(** * Range collections over a pixelated sphere and their tabular codec

    A shallow embedding of the Go package [ranges] (files [ranges.go]
    and [io.go]) together with the properties its specification states.

    Conventions of the embedding:
    - a Go [string] is the list of its Unicode code points ([gostring]);
    - a Go [int] / [int64] is a [Z];
    - a Go [float64] is a binary64 value of [SpecFloat] (53 bits of
      precision, infinities at exponent 1024);
    - a Go [map] is a [gmap]; a pointer to a struct that is only reached
      through one map entry is the struct stored in that entry;
    - what the package takes from other libraries (Unicode tables beyond
      Latin-1, the [earth] pixelation, [strconv]'s float conversions) is
      a parameter, collected in the class [GoLib]. *)

From Stdlib Require Import ZArith QArith Qabs Decimal DecimalZ.
From Stdlib Require Import Floats.SpecFloat.
From stdpp Require Import strings gmap list sorting.

Local Open Scope Z_scope.

(** ** Strings *)

Definition rune := Z.
Definition gostring := list rune.

(** String literals are written as Rocq strings and read as code points. *)
Definition str (s : String.string) : gostring :=
  (λ a, Z.of_N (Ascii.N_of_ascii a)) <$> String.list_ascii_of_string s.
Arguments str s%_string.

(** ** Floating point: binary64 *)

Definition float64 := spec_float.

Definition f64_div : float64 → float64 → float64 := SFdiv 53 1024.
Definition f64_ltb : float64 → float64 → bool := SFltb.
Definition f64_eqb : float64 → float64 → bool := SFeqb.

Definition f64_zero : float64 := S754_zero false.
Definition f64_one : float64 := S754_finite false 4503599627370496 (-52).

(** The exact value of a finite binary64 number. *)
Definition f64_toQ (x : float64) : option Q :=
  match x with
  | S754_zero _ => Some 0%Q
  | S754_finite s m e =>
      let n := if s then Z.neg m else Z.pos m in
      Some (match e with
            | Z.neg k => Qmake n (2 ^ k)%positive
            | _ => Qmake (n * 2 ^ e) 1
            end)
  | _ => None
  end.

(** [a] and [b] are finite and differ by at most 10^-6. *)
Definition within_1e6 (a b : float64) : Prop :=
  match f64_toQ a, f64_toQ b with
  | Some x, Some y => (Qabs (x - y) <= 1 # 1000000)%Q
  | _, _ => False
  end.

(** ** The pixelation of package [earth] *)

Record Pixelation := {
  Equator : Z;                                  (* pix.Equator() *)
  Len : Z;                                      (* pix.Len() *)
  PixelID : float64 → float64 → option Z        (* pix.Pixel(lat, lon).ID(),
                                                   [None] when Pixel panics *)
}.

(** ** What the package takes from other libraries *)

Class GoLib := {
  (* unicode.IsSpace, unicode.ToLower and unicode.ToUpper on the code
     points that their Latin-1 / ASCII fast paths do not decide *)
  uniIsSpace : rune → bool;
  uniToLower : rune → rune;
  uniToUpper : rune → rune;
  (* earth.NewPixelation *)
  NewPixelation : Z → Pixelation;
  (* strconv.ParseFloat(s, 64), [None] for an error *)
  ParseFloat : gostring → option float64;
  (* strconv.FormatFloat(d, 'f', 6, 64) *)
  FormatFloat6 : float64 → gostring
}.

Section Strings.
Context `{GoLib}.

(** unicode.IsSpace: the Latin-1 switch, then the White_Space table. *)
Definition IsSpace (r : rune) : bool :=
  if bool_decide (0 ≤ r ≤ 255) then
    bool_decide (r = 9 ∨ r = 10 ∨ r = 11 ∨ r = 12 ∨ r = 13 ∨ r = 32
                 ∨ r = 133 ∨ r = 160)
  else uniIsSpace r.

(** unicode.ToLower on one code point. *)
Definition toLower (r : rune) : rune :=
  if bool_decide (r ≤ 127) then
    if bool_decide (65 ≤ r ≤ 90) then r + 32 else r
  else uniToLower r.

(** unicode.ToUpper on one code point. *)
Definition toUpper (r : rune) : rune :=
  if bool_decide (r ≤ 127) then
    if bool_decide (97 ≤ r ≤ 122) then r - 32 else r
  else uniToUpper r.

(** strings.ToLower *)
Definition ToLower (s : gostring) : gostring := toLower <$> s.

(** strings.Fields: the maximal runs of non-space code points. *)
Fixpoint Fields (s : gostring) : list gostring :=
  match s with
  | [] => []
  | r :: s' =>
      if IsSpace r then Fields s'
      else match s' with
           | [] => [[r]]
           | r' :: _ =>
               if IsSpace r' then [r] :: Fields s'
               else match Fields s' with
                    | w :: ws => (r :: w) :: ws
                    | [] => [[r]]
                    end
           end
  end.

(** strings.Join(ws, " ") *)
Fixpoint JoinSp (ws : list gostring) : gostring :=
  match ws with
  | [] => []
  | [w] => w
  | w :: ws' => w ++ 32 :: JoinSp ws'
  end.

(** canon returns a taxon name in its canonical form. *)
Definition canon (name : gostring) : gostring :=
  let name := JoinSp (Fields name) in
  match name with
  | [] => []
  | _ =>
      match ToLower name with
      | r :: rest => toUpper r :: rest   (* string(unicode.ToUpper(r)) + name[n:] *)
      | [] => []
      end
  end.

(** Two names that differ only in letter case or in white space: their
    words agree, code point by code point, up to lower-casing. *)
Definition sameWords (x y : gostring) : Prop :=
  Forall2 (Forall2 (λ a b, toLower a = toLower b)) (Fields x) (Fields y).

End Strings.

(** ** Integers in decimal (package [strconv]) *)

Fixpoint uintRunes (u : Decimal.uint) : gostring :=
  match u with
  | Nil => []
  | D0 u => 48 :: uintRunes u
  | D1 u => 49 :: uintRunes u
  | D2 u => 50 :: uintRunes u
  | D3 u => 51 :: uintRunes u
  | D4 u => 52 :: uintRunes u
  | D5 u => 53 :: uintRunes u
  | D6 u => 54 :: uintRunes u
  | D7 u => 55 :: uintRunes u
  | D8 u => 56 :: uintRunes u
  | D9 u => 57 :: uintRunes u
  end.

Definition digitCons (r : rune) : option (Decimal.uint → Decimal.uint) :=
  match r with
  | 48 => Some D0 | 49 => Some D1 | 50 => Some D2 | 51 => Some D3
  | 52 => Some D4 | 53 => Some D5 | 54 => Some D6 | 55 => Some D7
  | 56 => Some D8 | 57 => Some D9
  | _ => None
  end.

Fixpoint runesUint (s : gostring) : option Decimal.uint :=
  match s with
  | [] => Some Nil
  | r :: s' =>
      match digitCons r, runesUint s' with
      | Some d, Some u => Some (d u)
      | _, _ => None
      end
  end.

(** strconv.FormatInt(z, 10), which is also strconv.Itoa. *)
Definition FormatInt (z : Z) : gostring :=
  match Z.to_int z with
  | Decimal.Pos u => uintRunes u
  | Decimal.Neg u => 45 :: uintRunes u
  end.

Definition Itoa : Z → gostring := FormatInt.

(** strconv.ParseInt(s, 10, 64): an optional sign, then one or more
    decimal digits; the value must fit in 64 bits.  [None] is an error. *)
Definition ParseInt (s : gostring) : option Z :=
  match s with
  | [] => None
  | r :: s' =>
      let '(neg, ds) :=
        if bool_decide (r = 43) then (false, s')
        else if bool_decide (r = 45) then (true, s')
        else (false, s) in
      match ds with
      | [] => None
      | _ =>
          match runesUint ds with
          | None => None
          | Some u =>
              let un := Z.of_uint u in
              if neg then (if bool_decide (2 ^ 63 < un) then None else Some (- un))
              else (if bool_decide (2 ^ 63 ≤ un) then None else Some un)
          end
      end
  end.

(** strconv.Atoi, with a 64-bit [int]. *)
Definition Atoi : gostring → option Z := ParseInt.

(** ** The collection (ranges.go) *)

(** Type is the type of range map. *)
Definition RType := gostring.

(** Points is a range map made of points. *)
Definition Points : RType := str "points".
(** A Range is a continuous range map. *)
Definition Range : RType := str "range".

(** A taxon is a representation of a taxon range. *)
Record taxon := {
  name : gostring;
  tp : RType;
  age : Z;
  rng : gmap Z float64
}.

(** A Collection is a collection of distribution ranges with an
    associated pixelation. *)
Record Collection := {
  pix : Pixelation;
  taxa : gmap gostring taxon
}.

(** What a call does: it returns, or it panics. *)
Inductive outcome (A : Type) :=
  | Returns (a : A)
  | Panics.
Arguments Returns {A} a.
Arguments Panics {A}.

(** Byte-wise order of Go strings (on code points). *)
Fixpoint str_leb (a b : gostring) : bool :=
  match a, b with
  | [], _ => true
  | _ :: _, [] => false
  | x :: a', y :: b' => if bool_decide (x = y) then str_leb a' b' else bool_decide (x < y)
  end.

Definition str_le (a b : gostring) : Prop := str_leb a b = true.

#[global] Instance str_le_dec : RelDecision str_le :=
  λ a b, decide (str_leb a b = true).

Section Collection.
Context `{GoLib}.

(** New creates a new collection of taxon ranges. *)
Definition New (p : Pixelation) : Collection := {| pix := p; taxa := ∅ |}.

(** Add adds a point to a taxon.  The argument [ag] is not used by the
    method.  The call panics when [Pixel] does. *)
Definition Collection_Add (c : Collection) (nm : gostring) (ag : Z)
    (lat lon : float64) : outcome Collection :=
  let nm := canon nm in
  if decide (nm = []) then Returns c
  else
    let tax := default {| name := nm; tp := Points; age := 0; rng := ∅ |}
                       (taxa c !! nm) in
    let c1 := {| pix := pix c; taxa := <[nm := tax]> (taxa c) |} in
    if decide (tp tax ≠ Points) then Returns c1
    else
      match PixelID (pix c) lat lon with
      | None => Panics
      | Some px =>
          Returns {| pix := pix c;
                     taxa := <[nm := {| name := name tax; tp := tp tax;
                                        age := age tax;
                                        rng := <[px := f64_one]> (rng tax) |}]>
                               (taxa c) |}
      end.

(** Modelled from the spec: the method [AddPixel], whose code is not in
    the sources at hand.  The spec gives it the contract of [Add] with the
    cell id supplied by the caller instead of a coordinate; the body is
    that of [Add] with the pixel lookup replaced by the argument. *)
Definition Collection_AddPixel (c : Collection) (nm : gostring) (ag : Z)
    (px : Z) : outcome Collection :=
  let nm := canon nm in
  if decide (nm = []) then Returns c
  else
    let tax := default {| name := nm; tp := Points; age := 0; rng := ∅ |}
                       (taxa c !! nm) in
    let c1 := {| pix := pix c; taxa := <[nm := tax]> (taxa c) |} in
    if decide (tp tax ≠ Points) then Returns c1
    else
      Returns {| pix := pix c;
                 taxa := <[nm := {| name := name tax; tp := tp tax;
                                    age := age tax;
                                    rng := <[px := f64_one]> (rng tax) |}]>
                           (taxa c) |}.

(** Age returns the age used to set a range map for a taxon. *)
Definition Collection_Age (c : Collection) (nm : gostring) : Z :=
  let nm := canon nm in
  if decide (nm = []) then 0
  else match taxa c !! nm with
       | None => 0
       | Some tax => age tax
       end.

(** Delete removes the indicated taxon from the collection. *)
Definition Collection_Delete (c : Collection) (nm : gostring) : Collection :=
  let nm := canon nm in
  if decide (nm = []) then c
  else {| pix := pix c; taxa := delete nm (taxa c) |}.

(** HasTaxon returns true if the indicated taxon is in the collection. *)
Definition Collection_HasTaxon (c : Collection) (nm : gostring) : bool :=
  let nm := canon nm in
  if decide (nm = []) then false
  else bool_decide (is_Some (taxa c !! nm)).

(** Pixelation returns the underlying pixelation. *)
Definition Collection_Pixelation (c : Collection) : Pixelation := pix c.

(** Range returns a range map of a taxon; [None] is Go's nil map. *)
Definition Collection_Range (c : Collection) (nm : gostring)
    : option (gmap Z float64) :=
  let nm := canon nm in
  if decide (nm = []) then None
  else match taxa c !! nm with
       | None => None
       | Some tax => Some (rng tax)
       end.

(** The largest value met by the first loop of [Set], which starts from
    the zero value and runs over the entries in the map's order. *)
Definition setMax (field : gmap Z float64) : float64 :=
  foldl (λ mx v, if f64_ltb mx v then v else mx) f64_zero
        (snd <$> map_to_list field).

(** Set sets a range map for a taxon at the indicated age.  It panics
    when a pixel of [field] is not below [pix.Len()]. *)
Definition Collection_Set (c : Collection) (nm : gostring) (ag : Z)
    (field : gmap Z float64) : outcome Collection :=
  let nm := canon nm in
  if decide (nm = []) then Returns c
  else
    let tax := default {| name := nm; tp := []; age := 0; rng := ∅ |}
                       (taxa c !! nm) in
    let mx := setMax field in
    if forallb (λ e, bool_decide (e.1 < Len (pix c))) (map_to_list field) then
      Returns {| pix := pix c;
                 taxa := <[nm := {| name := name tax; tp := Range; age := ag;
                                    rng := (λ p, f64_div p mx) <$> field |}]>
                           (taxa c) |}
    else Panics.

(** Modelled from the spec: the method [SetPixels], whose code is not in
    the sources at hand.  The spec: it replaces the taxon's record with
    type Points, the age as given, and cells holding every key of the
    input field set to exactly 1.0; like every operation it canonicalizes
    the name and does nothing when the canonical name is empty. *)
Definition Collection_SetPixels (c : Collection) (nm : gostring) (ag : Z)
    (field : gmap Z float64) : Collection :=
  let nm := canon nm in
  if decide (nm = []) then c
  else
    let tax := default {| name := nm; tp := []; age := 0; rng := ∅ |}
                       (taxa c !! nm) in
    {| pix := pix c;
       taxa := <[nm := {| name := name tax; tp := Points; age := ag;
                          rng := (λ _, f64_one) <$> field |}]>
                 (taxa c) |}.

(** Taxa returns the taxon names of the collection, sorted. *)
Definition Collection_Taxa (c : Collection) : list gostring :=
  merge_sort str_le (name <$> (snd <$> map_to_list (taxa c))).

(** Type returns the type of a range map for a given taxon. *)
Definition Collection_Type (c : Collection) (nm : gostring) : RType :=
  let nm := canon nm in
  if decide (nm = []) then []
  else match taxa c !! nm with
       | None => []
       | Some tax => tp tax
       end.

End Collection.

(** ** The tabular codec (io.go) *)

Definition headerFields : list gostring :=
  [str "taxon"; str "type"; str "age"; str "equator"; str "pixel"; str "density"].

(** What one call of [tab.Read()] yields before the end of the input: a
    record, or an error of the csv reader.  [ln] is the line that
    [tab.FieldPos(0)] reports.  The reader is the one [ReadTSV] sets up:
    tab separated, lines starting with [#] skipped as comments, and (the
    default [FieldsPerRecord = 0]) every record required to have as many
    fields as the first one. *)
Inductive csvResult :=
  | CsvRecord (ln : Z) (row : list gostring)
  | CsvError (ln : Z).

(** The errors of [ReadTSV], by the message they format. *)
Inductive fieldError :=
  | BadValue                              (* an error of strconv *)
  | GotWant (got want : Z)                (* "got %d, want %d" *)
  | InvalidType (s : gostring)            (* "invalid type %q" *)
  | TypeMismatch (got want : RType)       (* "invalid type: got %q, want %q" *)
  | AgeMismatch (got want : Z)            (* "invalid age: got %d, want %d" *)
  | InvalidPixel (px : Z).                (* "invalid pixel value %d" *)

Inductive error :=
  | ErrHeader                             (* "while reading header: %v" *)
  | ErrExpecting (h : gostring)           (* "expecting field %q" *)
  | ErrRow (ln : Z)                       (* "on row %d: %v" *)
  | ErrField (ln : Z) (f : gostring) (e : fieldError)
                                          (* "on row %d: field %q: ..." *)
  | ErrNoData.                            (* "while reading data: EOF" *)

Inductive result (A : Type) :=
  | Ok (a : A)
  | Err (e : error).
Arguments Ok {A} a.
Arguments Err {A} e.

(** The local variables of the reading loop: [pix], [c] and [max]. *)
Record readState := {
  rs_pix : option Pixelation;
  rs_c : option Collection;
  rs_max : gmap gostring float64
}.

Section Codec.
Context `{GoLib}.

(** The map [fields]: lower-cased header name to column, a later column
    replacing an earlier one of the same name. *)
Definition headerIndex (head : list gostring) : gmap gostring nat :=
  foldl (λ m ih, <[ToLower ih.2 := ih.1]> m) ∅ (imap pair head).

(** [row[fields[f]]]; the reader has checked the length of [row]. *)
Definition rowField (fields : gmap gostring nat) (row : list gostring)
    (f : gostring) : gostring :=
  default [] (fields !! f ≫= λ i, row !! i).

(** The switch on the lower-cased type field. *)
Definition parseType (s : gostring) : option RType :=
  if decide (s = Points) then Some Points
  else if decide (s = Range) then Some Range
  else if decide (s = []) then Some Points
  else None.

(** The end of a turn of the loop, for a record that is not skipped:
    [p] is the pixelation in use, [c] the collection, [t] and [ag] the
    parsed type and age and [nm] the canonical name, not empty. *)
Definition storeRow (fields : gmap gostring nat) (st : readState) (ln : Z)
    (row : list gostring) (p : Pixelation) (c : Collection) (t : RType)
    (ag : Z) (nm : gostring) : result readState :=
  let tax := default {| name := nm; tp := t; age := ag; rng := ∅ |}
                     (taxa c !! nm) in
  if decide (tp tax ≠ t) then
    Err (ErrField ln (str "taxon") (TypeMismatch t (tp tax)))
  else if decide (age tax ≠ ag) then
    Err (ErrField ln (str "taxon") (AgeMismatch ag (age tax)))
  else
  match Atoi (rowField fields row (str "pixel")) with
  | None => Err (ErrField ln (str "pixel") BadValue)
  | Some px =>
    if decide (Len p ≤ px) then
      Err (ErrField ln (str "pixel") (InvalidPixel px))
    else
    match (if decide (tp tax = Range)
           then ParseFloat (rowField fields row (str "density"))
           else Some f64_one) with
    | None => Err (ErrField ln (str "density") BadValue)
    | Some density =>
      let mx := default f64_zero (rs_max st !! name tax) in
      Ok {| rs_pix := Some p;
            rs_c := Some {| pix := pix c;
                            taxa := <[nm := {| name := name tax;
                                               tp := tp tax;
                                               age := age tax;
                                               rng := <[px := density]> (rng tax) |}]>
                                      (taxa c) |};
            rs_max := if f64_ltb mx density
                      then <[name tax := density]> (rs_max st)
                      else rs_max st |}
    end
  end.

(** One turn of the loop on a record the reader returned without error:
    the new state, or the error the function returns. *)
Definition readRow (fields : gmap gostring nat) (st : readState) (ln : Z)
    (row : list gostring) : result readState :=
  match Atoi (rowField fields row (str "equator")) with
  | None => Err (ErrField ln (str "equator") BadValue)
  | Some eq =>
    let p := default (NewPixelation eq) (rs_pix st) in
    if decide (Equator p ≠ eq) then
      Err (ErrField ln (str "equator") (GotWant eq (Equator p)))
    else
    let c := default (New p) (rs_c st) in
    match parseType (ToLower (rowField fields row (str "type"))) with
    | None =>
        Err (ErrField ln (str "type") (InvalidType (rowField fields row (str "type"))))
    | Some t =>
      match ParseInt (rowField fields row (str "age")) with
      | None => Err (ErrField ln (str "age") BadValue)
      | Some ag =>
        let nm := canon (rowField fields row (str "taxon")) in
        if decide (nm = []) then                       (* continue *)
          Ok {| rs_pix := Some p; rs_c := Some c; rs_max := rs_max st |}
        else storeRow fields st ln row p c t ag nm
      end
    end
  end.

(** The loop over the records after the header, [n] being the number of
    fields of the header. *)
Fixpoint readRows (n : nat) (fields : gmap gostring nat) (st : readState)
    (rs : list csvResult) : result readState :=
  match rs with
  | [] => Ok st
  | CsvError ln :: _ => Err (ErrRow ln)
  | CsvRecord ln row :: rs' =>
      if decide (length row ≠ n) then Err (ErrRow ln)   (* wrong number of fields *)
      else match readRow fields st ln row with
           | Err e => Err e
           | Ok st' => readRows n fields st' rs'
           end
  end.

(** The second pass: the values of a taxon divided by its maximum. *)
Definition scaleTaxon (mx : gmap gostring float64) (tax : taxon) : taxon :=
  if decide (tp tax = Points) then tax
  else
    let scale := default f64_zero (mx !! name tax) in
    if f64_eqb scale f64_one then tax
    else {| name := name tax; tp := tp tax; age := age tax;
            rng := (λ v, f64_div v scale) <$> rng tax |}.

(** ReadTSV reads a collection of range maps from a TSV file, given as
    the results the csv reader yields for it. *)
Definition ReadTSV (r : list csvResult) (p : option Pixelation)
    : result Collection :=
  match r with
  | [] => Err ErrHeader
  | CsvError _ :: _ => Err ErrHeader
  | CsvRecord _ head :: rows =>
      let fields := headerIndex head in
      match List.find (λ h, bool_decide (fields !! h = None)) headerFields with
      | Some h => Err (ErrExpecting h)
      | None =>
          match readRows (length head) fields
                  {| rs_pix := p; rs_c := None; rs_max := ∅ |} rows with
          | Err e => Err e
          | Ok st =>
              match rs_c st with
              | None => Err ErrNoData
              | Some c =>
                  Ok {| pix := pix c;
                        taxa := scaleTaxon (rs_max st) <$> taxa c |}
              end
          end
      end
  end.

(** The rows [TSV] writes for one taxon: one per pixel, in ascending
    order of the pixels. *)
Definition taxonRows (c : Collection) (tax : taxon) : list (list gostring) :=
  (λ px, [name tax; tp tax; FormatInt (age tax); Itoa (Equator (pix c));
          Itoa px; FormatFloat6 (default f64_zero (rng tax !! px))])
  <$> merge_sort Z.le ((map_to_list (rng tax)).*1).

(** TSV encodes the range maps of a collection: the records handed to
    the csv writer, the header first (two comment lines precede them in
    the file).  [None] stands for the nil dereference of a name of [Taxa]
    that is not a key of the collection. *)
Definition Collection_TSV (c : Collection) : option (list (list gostring)) :=
  rows ← mapM (λ nm, taxonRows c <$> (taxa c !! nm)) (Collection_Taxa c);
  Some (headerFields :: concat rows).

(** Writer.fieldNeedsQuotes of encoding/csv, for the tab separator. *)
Definition fieldNeedsQuotes (field : gostring) : bool :=
  match field with
  | [] => false
  | r1 :: _ =>
      bool_decide (field = str "\.")
      || existsb (λ c, bool_decide (c = 10 ∨ c = 13 ∨ c = 34 ∨ c = 9)) field
      || IsSpace r1
  end.

(** A written record that the reader takes for a comment line: its line
    starts with [#]. *)
Definition isCommentLine (rec : list gostring) : bool :=
  match rec with
  | (35 :: f) :: _ => negb (fieldNeedsQuotes (35 :: f))
  | _ => false
  end.

(** What the csv reader of [ReadTSV] yields for a file that the csv
    writer of [TSV] produced from [recs], the first record being on line
    [ln]: the records as written, but for those it skips as comments.
    This covers records like those of [TSV]: the same number of fields,
    and no line break inside a field. *)
Fixpoint csvReread (ln : Z) (recs : list (list gostring)) : list csvResult :=
  match recs with
  | [] => []
  | rec :: recs' =>
      if isCommentLine rec then csvReread (ln + 1) recs'
      else CsvRecord ln rec :: csvReread (ln + 1) recs'
  end.

End Codec.

(** ** The commands (cmd/taxrange) *)

(** -90, 90, -180 and 180 as binary64 numbers. *)
Definition f64_m90 : float64 := S754_finite true 6333186975989760 (-46).
Definition f64_90 : float64 := S754_finite false 6333186975989760 (-46).
Definition f64_m180 : float64 := S754_finite true 6333186975989760 (-45).
Definition f64_180 : float64 := S754_finite false 6333186975989760 (-45).

(** The errors that one row of [readTextData] can end with. *)
Inductive importError :=
  | ImpBadValue (f : gostring)             (* an error of strconv on field f *)
  | ImpLatitude (lat : float64)            (* "invalid latitude %.6f" *)
  | ImpLongitude (lon : float64)           (* "invalid longitude %.6f" *)
  | ImpHasMap (tax : gostring) (t : RType).  (* "taxon %q: has defined a %q map" *)

Section Commands.
Context `{GoLib}.

(** The loop of the commands [kde] and [rotate] over one taxon name of
    a collection [c] that was read: a taxon of type points is copied
    into [coll] by one call of Add per cell, [pointOf id] being the
    latitude and the longitude of [pix.ID(id).Point()].  The cells are
    taken in the order of the map. *)
Definition copyTaxon (pointOf : Z → float64 * float64) (c : Collection)
    (coll : outcome Collection) (nm : gostring) : outcome Collection :=
  if decide (Collection_Type c nm ≠ Points) then coll       (* continue *)
  else
    let ag := Collection_Age c nm in
    foldl (λ acc id,
             match acc with
             | Panics => Panics
             | Returns cl =>
                 Collection_Add cl nm ag (pointOf id).1 (pointOf id).2
             end)
          coll ((map_to_list (default ∅ (Collection_Range c nm))).*1).

(** The loop over the names of [c.Taxa()]. *)
Definition copyPoints (pointOf : Pixelation → Z → float64 * float64)
    (coll : outcome Collection) (c : Collection) : outcome Collection :=
  foldl (copyTaxon (pointOf (Collection_Pixelation c)) c) coll (Collection_Taxa c).

(** The loop over the collections read, from a new collection. *)
Definition copyAll (pointOf : Pixelation → Z → float64 * float64)
    (p : Pixelation) (cs : list Collection) : outcome Collection :=
  foldl (copyPoints pointOf) (Returns (New p)) cs.

(** One row of [readTextData] (command [imppoints]), from its three
    fields: the error that ends the reading, or the call of Add. *)
Definition importRow (c : Collection) (ag : Z) (tax slat slon : gostring)
    : importError + outcome Collection :=
  match ParseFloat slat with
  | None => inl (ImpBadValue (str "latitude"))
  | Some lat =>
    if f64_ltb lat f64_m90 || f64_ltb f64_90 lat then inl (ImpLatitude lat)
    else
    match ParseFloat slon with
    | None => inl (ImpBadValue (str "longitude"))
    | Some lon =>
      if f64_ltb lon f64_m180 || f64_ltb f64_180 lon then inl (ImpLongitude lon)
      else
        let t := Collection_Type c tax in
        if decide (t ≠ [] ∧ t ≠ Points) then inl (ImpHasMap tax t)
        else inr (Collection_Add c tax ag lat lon)
    end
  end.

End Commands.

(** ** The statements of the specification *)

Section Statements.
Context `{GoLib}.

(** [mx] is the maximum of the values of [field]: it is one of them, and
    no value is greater ([v > mx] is false for every value, as in the
    loop of [Set]). *)
Definition isMaxOf (field : gmap Z float64) (mx : float64) : Prop :=
  (∃ px, field !! px = Some mx) ∧
  ∀ px v, field !! px = Some v → f64_ltb mx v = false.

(** Normalization by [Set]: the call returns, the maximum of the stored
    values is exactly 1.0, and each stored value is the input value
    divided by the maximum input value. *)
Definition SetNormalizes (c : Collection) (nm : gostring) (ag : Z)
    (field : gmap Z float64) : Prop :=
  ∃ c' r mx,
    Collection_Set c nm ag field = Returns c' ∧
    Collection_Range c' nm = Some r ∧
    isMaxOf r f64_one ∧
    isMaxOf field mx ∧
    ∀ px, r !! px = (λ p, f64_div p mx) <$> (field !! px).

(** The public mutations of a collection. *)
Inductive mutation :=
  | MAdd (nm : gostring) (ag : Z) (lat lon : float64)
  | MAddPixel (nm : gostring) (ag : Z) (px : Z)
  | MSet (nm : gostring) (ag : Z) (field : gmap Z float64)
  | MSetPixels (nm : gostring) (ag : Z) (field : gmap Z float64)
  | MDelete (nm : gostring).

Definition mutate (c : Collection) (m : mutation) : outcome Collection :=
  match m with
  | MAdd nm ag lat lon => Collection_Add c nm ag lat lon
  | MAddPixel nm ag px => Collection_AddPixel c nm ag px
  | MSet nm ag field => Collection_Set c nm ag field
  | MSetPixels nm ag field => Returns (Collection_SetPixels c nm ag field)
  | MDelete nm => Returns (Collection_Delete c nm)
  end.

(** The collections built by [New] or by a decode, and then by any
    sequence of mutations that satisfy [allowed] and return. *)
Inductive reachable (allowed : mutation → Prop) : Collection → Prop :=
  | reach_New p : reachable allowed (New p)
  | reach_ReadTSV r p c : ReadTSV r p = Ok c → reachable allowed c
  | reach_mutate c m c' :
      reachable allowed c → allowed m → mutate c m = Returns c' →
      reachable allowed c'.

(** A mutation that does not assign an empty field. *)
Definition fieldNotEmpty (m : mutation) : Prop :=
  match m with
  | MSet _ _ field | MSetPixels _ _ field => field ≠ ∅
  | _ => True
  end.

(** Every taxon record has at least one cell. *)
Definition cellsNotEmpty (c : Collection) : Prop :=
  ∀ nm tax, taxa c !! nm = Some tax → rng tax ≠ ∅.

(** No stored cell carries density zero. *)
Definition noZeroCell (c : Collection) : Prop :=
  ∀ nm tax px v,
    taxa c !! nm = Some tax → rng tax !! px = Some v → f64_eqb v f64_zero = false.

(** Every cell of a taxon of type Points holds exactly 1.0. *)
Definition pointsAreOne (c : Collection) : Prop :=
  ∀ nm tax px v,
    taxa c !! nm = Some tax → tp tax = Points → rng tax !! px = Some v →
    v = f64_one.

(** A taxon record with at least one cell and, when of type Points, with
    1.0 in every cell. *)
Definition taxonOK (tax : taxon) : Prop :=
  rng tax ≠ ∅ ∧
  (tp tax = Points → ∀ px v, rng tax !! px = Some v → v = f64_one).

(** The accessors cannot tell [c'] from [c]. *)
Definition sameView (c c' : Collection) : Prop :=
  Collection_Taxa c' = Collection_Taxa c ∧
  ∀ nm, Collection_Range c' nm = Collection_Range c nm
        ∧ Collection_Type c' nm = Collection_Type c nm
        ∧ Collection_Age c' nm = Collection_Age c nm.

(** After [SetPixels]: type Points, the age given, and exactly the keys
    of [field], each with value 1.0. *)
Definition SetPixelsStores (c : Collection) (nm : gostring) (ag : Z)
    (field : gmap Z float64) : Prop :=
  let c' := Collection_SetPixels c nm ag field in
  Collection_Type c' nm = Points ∧
  Collection_Age c' nm = ag ∧
  ∃ r, Collection_Range c' nm = Some r ∧
       dom r = dom field ∧
       ∀ px v, r !! px = Some v → v = f64_one.

(** The header names its six columns. *)
Definition headerOK (head : list gostring) : Prop :=
  ∀ h, h ∈ headerFields → is_Some (headerIndex head !! h).

(** The state of the reading loop after the records [pre], if none of
    them made [ReadTSV] return. *)
Definition stateAfter (head : list gostring) (p : option Pixelation)
    (pre : list csvResult) : result readState :=
  readRows (length head) (headerIndex head)
    {| rs_pix := p; rs_c := None; rs_max := ∅ |} pre.

(** The record [row] passes the reader and the checks on the equator,
    the type and the age fields, in state [st]: [pixn] is the pixelation
    in use, [t] and [ag] the parsed type and age, [nm] the canonical
    name. *)
Definition rowParses (head : list gostring) (st : readState)
    (row : list gostring) (pixn : Pixelation) (t : RType) (ag : Z)
    (nm : gostring) : Prop :=
  let fields := headerIndex head in
  length row = length head ∧
  (∃ eq, Atoi (rowField fields row (str "equator")) = Some eq ∧
         pixn = default (NewPixelation eq) (rs_pix st) ∧
         Equator pixn = eq) ∧
  parseType (ToLower (rowField fields row (str "type"))) = Some t ∧
  ParseInt (rowField fields row (str "age")) = Some ag ∧
  canon (rowField fields row (str "taxon")) = nm.

(** The taxon record that a row for [nm] works on: the stored one, or a
    new one with the parsed type and age. *)
Definition rowTaxon (st : readState) (pixn : Pixelation) (t : RType)
    (ag : Z) (nm : gostring) : taxon :=
  default {| name := nm; tp := t; age := ag; rng := ∅ |}
          (taxa (default (New pixn) (rs_c st)) !! nm).

(** The values of a 64-bit integer. *)
Definition int64 (z : Z) : Prop := - 2 ^ 63 ≤ z < 2 ^ 63.

(** What the round trip asks of [strconv] on a stored density [v]:
    [FormatFloat] then [ParseFloat] give a value within 10^-6 of [v] that
    is not above 1.0, and give 1.0 back exactly. *)
Definition floatRoundTrips (v : float64) : Prop :=
  ∃ v', ParseFloat (FormatFloat6 v) = Some v' ∧
        within_1e6 v v' ∧
        f64_ltb f64_one v' = false ∧
        (v = f64_one → v' = f64_one).

(** Encoding [c] and decoding the result, with the pixelation argument
    [p], gives a collection with the same Taxa() and, for every taxon,
    the same Type and Age and a Range() with the same cell ids and values
    equal within 10^-6. *)
Definition roundTrips (c : Collection) (p : option Pixelation) : Prop :=
  ∃ recs c',
    Collection_TSV c = Some recs ∧
    ReadTSV (csvReread 3 recs) p = Ok c' ∧
    Collection_Taxa c' = Collection_Taxa c ∧
    ∀ nm, nm ∈ Collection_Taxa c →
      Collection_Type c' nm = Collection_Type c nm ∧
      Collection_Age c' nm = Collection_Age c nm ∧
      ∃ r r', Collection_Range c nm = Some r ∧
              Collection_Range c' nm = Some r' ∧
              dom r' = dom r ∧
              ∀ px v v', r !! px = Some v → r' !! px = Some v' → within_1e6 v v'.

(** A taxon record as the mutators and the decoder leave it, with
    normalized densities: a canonical name that the csv reader does not
    take for a comment, a type, cells that are in bounds, 1.0 in every
    cell of a Points record, and in a Range record the value 1.0 in some
    cell and values that [strconv] round-trips. *)
Definition storable (c : Collection) (tax : taxon) : Prop :=
  canon (name tax) = name tax ∧ name tax ≠ [] ∧
  isCommentLine [name tax] = false ∧
  (tp tax = Points ∨ tp tax = Range) ∧
  int64 (age tax) ∧
  rng tax ≠ ∅ ∧
  (∀ px v, rng tax !! px = Some v → int64 px ∧ px < Len (pix c)) ∧
  (tp tax = Points → ∀ px v, rng tax !! px = Some v → v = f64_one) ∧
  (tp tax = Range →
     (∃ px, rng tax !! px = Some f64_one) ∧
     ∀ px v, rng tax !! px = Some v → floatRoundTrips v).

(** A collection that has at least one taxon and stores its records under
    their names. *)
Definition wellFormed (c : Collection) : Prop :=
  taxa c ≠ ∅ ∧ int64 (Equator (pix c)) ∧
  ∀ nm tax, taxa c !! nm = Some tax → name tax = nm ∧ storable c tax.

(** The record that [TSV] writes for the cell [px] of [tax]. *)
Definition cellRow (c : Collection) (tax : taxon) (px : Z) : list gostring :=
  [name tax; tp tax; FormatInt (age tax); Itoa (Equator (pix c));
   Itoa px; FormatFloat6 (default f64_zero (rng tax !! px))].

(** The density that the decoder stores for a written value. *)
Definition decValue (tax : taxon) (v : float64) : float64 :=
  if decide (tp tax = Range)
  then default f64_zero (ParseFloat (FormatFloat6 v))
  else f64_one.

Definition decCell (tax : taxon) (px : Z) : float64 :=
  decValue tax (default f64_zero (rng tax !! px)).

(** The record that the decoder builds from the rows of [tax]. *)
Definition decTaxon (tax : taxon) : taxon :=
  {| name := name tax; tp := tp tax; age := age tax;
     rng := decValue tax <$> rng tax |}.

(** A cell of the collection [c]: a record stored under its name and one
    of its pixels. *)
Definition cellOf (c : Collection) (x : taxon * Z) : Prop :=
  taxa c !! name x.1 = Some x.1 ∧ is_Some (rng x.1 !! x.2).

(** The cells in the order in which [TSV] writes them. *)
Definition cellsOf (c : Collection) (nm : gostring) : list (taxon * Z) :=
  match taxa c !! nm with
  | Some tax => (λ px, (tax, px)) <$> merge_sort Z.le ((map_to_list (rng tax)).*1)
  | None => []
  end.

Definition allCells (c : Collection) : list (taxon * Z) :=
  concat (cellsOf c <$> Collection_Taxa c).

(** The collection of the reading loop, before it is created: empty. *)
Definition current (c : Collection) (st : readState) : Collection :=
  default (New (pix c)) (rs_c st).

(** The state of the reading loop after the rows of the cells [cells] of
    the collection [c], read with the pixelation argument [p]. *)
Definition decoded (c : Collection) (p : option Pixelation)
    (cells : list (taxon * Z)) (st : readState) : Prop :=
  (rs_pix st = p ∨ rs_pix st = Some (pix c)) ∧
  pix (current c st) = pix c ∧
  (∀ nm t, taxa (current c st) !! nm = Some t →
     ∃ tax, taxa c !! nm = Some tax ∧ name t = nm ∧ tp t = tp tax ∧
            age t = age tax ∧
            ∀ px d, rng t !! px = Some d ↔ (tax, px) ∈ cells ∧ d = decCell tax px) ∧
  (∀ x, x ∈ cells → is_Some (rs_c st) ∧ is_Some (taxa (current c st) !! name x.1)) ∧
  (∀ nm, let m := default f64_zero (rs_max st !! nm) in
     m ≠ S754_nan ∧
     (m = f64_zero ∨ ∃ x, x ∈ cells ∧ name x.1 = nm ∧ m = decCell x.1 x.2) ∧
     (∀ x, x ∈ cells → name x.1 = nm → f64_ltb m (decCell x.1 x.2) = false)).

(** Every record is stored under its own name, a canonical name that is
    not empty, and has type Points or Range. *)
Definition keyed (c : Collection) : Prop :=
  ∀ nm tax, taxa c !! nm = Some tax →
    name tax = nm ∧ nm ≠ [] ∧ (∃ x, canon x = nm) ∧
    (tp tax = Points ∨ tp tax = Range).

(** No restriction on the mutations. *)
Definition anyMutation (m : mutation) : Prop := True.

(** The accessors give the same answers on the name [y] in [c'] as in
    [c]. *)
Definition sameTaxon (c c' : Collection) (y : gostring) : Prop :=
  Collection_HasTaxon c' y = Collection_HasTaxon c y ∧
  Collection_Type c' y = Collection_Type c y ∧
  Collection_Age c' y = Collection_Age c y ∧
  Collection_Range c' y = Collection_Range c y.

(** [c'] differs from [c] only on the taxon named [x]. *)
Definition onlyChanges (c c' : Collection) (x : gostring) : Prop :=
  Collection_Pixelation c' = Collection_Pixelation c ∧
  ∀ y, canon y ≠ canon x → sameTaxon c c' y.

(** A name without any code point that is not white space. *)
Definition blank (x : gostring) : Prop := Forall (λ r, IsSpace r = true) x.

(** The loop of the decoder has fixed its pixelation: the one of the
    collection, if it is created, whose cells are all below the length
    of that pixelation. *)
Definition pixInv (st : readState) : Prop :=
  ∀ c, rs_c st = Some c →
    rs_pix st = Some (pix c) ∧
    ∀ nm tax px v, taxa c !! nm = Some tax → rng tax !! px = Some v →
                   px < Len (pix c).

(** The row [r] is a record of [n] fields that gives [eq] for the
    equator. *)
Definition rowEquator (n : nat) (fields : gmap gostring nat) (eq : Z)
    (r : csvResult) : Prop :=
  ∃ ln row, r = CsvRecord ln row ∧ length row = n ∧
            Atoi (rowField fields row (str "equator")) = Some eq.

(** Two records of the type points that differ at most in how they
    say so (the type field empty, or points in any letter case), in the
    density field and in columns that the decoder does not read. *)
Definition samePoint (fields : gmap gostring nat) (row row' : list gostring)
    : Prop :=
  length row' = length row ∧
  (∀ f, f ∈ [str "taxon"; str "age"; str "equator"; str "pixel"] →
        rowField fields row' f = rowField fields row f) ∧
  parseType (ToLower (rowField fields row (str "type"))) = Some Points ∧
  parseType (ToLower (rowField fields row' (str "type"))) = Some Points.

(** No record of the collection has a cell. *)
Definition noCells (c : Collection) : Prop :=
  ∀ nm tax, taxa c !! nm = Some tax → rng tax = ∅.

(** A binary64 number in the canonical form of the format. *)
Definition f64_valid (v : float64) : Prop := valid_binary 53 1024 v = true.

(** What the reading loop keeps about [max]: an entry is the zero value
    or a positive number; and no cell of a record is above the entry of
    its name. *)
Definition maxInv (st : readState) : Prop :=
  (∀ nm, let m := default f64_zero (rs_max st !! nm) in
         m = f64_zero ∨ (f64_ltb f64_zero m = true ∧ f64_valid m)) ∧
  ∀ c, rs_c st = Some c →
    keyed c ∧
    ∀ nm tax px v, taxa c !! nm = Some tax → rng tax !! px = Some v →
      f64_valid v ∧ f64_ltb (default f64_zero (rs_max st !! nm)) v = false.

(** The density field of the row, if [ParseFloat] accepts it, gives a
    number in canonical form. *)
Definition validDensity (fields : gmap gostring nat) (r : csvResult) : Prop :=
  ∀ ln row v, r = CsvRecord ln row →
    ParseFloat (rowField fields row (str "density")) = Some v → f64_valid v.

(** A collection filled by the copy of the collections [cs]: every age
    is zero, and every taxon present is of type Points and is a taxon of
    type Points of one of [cs]. *)
Definition copiedFrom (cs : list Collection) (coll : Collection) : Prop :=
  ∀ y, Collection_Age coll y = 0 ∧
       (Collection_HasTaxon coll y = true →
        Collection_Type coll y = Points ∧
        ∃ c, c ∈ cs ∧ Collection_Type c y = Points).

End Statements.

(** ** A reference instance of the library parameters

    Used to evaluate the definitions on concrete inputs: ASCII-only case
    and space tables, a pixelation that is a plain grid, and the float
    conversions of [strconv] restricted to plain decimal notation. *)

(** Rounding of [num / den] to the nearest integer, ties to even. *)
Definition roundHalfEven (num den : Z) : Z :=
  let q := num / den in
  let r := num mod den in
  if bool_decide (2 * r < den) then q
  else if bool_decide (den < 2 * r) then q + 1
  else if Z.even q then q else q + 1.

(** Six digits, zero padded, for [0 ≤ n < 10^6]. *)
Definition pad6 (n : Z) : gostring := drop 1 (FormatInt (1000000 + n)).

(** The 'f' format with six decimals: the exact value rounded to the
    nearest multiple of 10^-6, ties to even. *)
Definition formatFixed6 (x : float64) : gostring :=
  match x with
  | S754_nan => str "NaN"
  | S754_infinity s => if s then str "-Inf" else str "+Inf"
  | S754_zero s => (if s then [45] else []) ++ str "0.000000"
  | S754_finite s m e =>
      let n := match e with
               | Z.neg k => roundHalfEven (Z.pos m * 1000000) (2 ^ Z.pos k)
               | _ => Z.pos m * 2 ^ e * 1000000
               end in
      (if s then [45] else []) ++ FormatInt (n / 1000000)
        ++ 46 :: pad6 (n mod 1000000)
  end.

(** The digits before and after the first dot. *)
Fixpoint splitDot (s : gostring) : gostring * gostring :=
  match s with
  | [] => ([], [])
  | r :: s' =>
      if bool_decide (r = 46) then ([], s')
      else let '(a, b) := splitDot s' in (r :: a, b)
  end.

(** Plain decimal notation ([-12.5], [.5], [3.]) and the names of the
    infinities and of NaN, correctly rounded; other notations (exponent,
    hexadecimal) are outside this instance and reported as errors. *)
Definition parseFixed (s : gostring) : option float64 :=
  let l := (λ r, if bool_decide (65 ≤ r ≤ 90) then r + 32 else r) <$> s in
  if bool_decide (l = str "nan") then Some S754_nan
  else if bool_decide (l ∈ [str "inf"; str "+inf"; str "infinity"; str "+infinity"])
  then Some (S754_infinity false)
  else if bool_decide (l ∈ [str "-inf"; str "-infinity"])
  then Some (S754_infinity true)
  else
    let '(neg, ds) :=
      match s with
      | 43 :: s' => (false, s')
      | 45 :: s' => (true, s')
      | _ => (false, s)
      end in
    let '(ip, fp) := splitDot ds in
    if bool_decide (ip = [] ∧ fp = []) then None
    else
      match runesUint (ip ++ fp) with
      | None => None
      | Some u =>
          match Z.of_uint u with
          | Z.pos n =>
              Some (SFdiv 53 1024 (S754_finite neg n 0)
                      (S754_finite false (10 ^ Pos.of_nat (length fp)) 0))
          | _ => Some (S754_zero neg)
          end
      end.

(** A grid of [eq] columns and [eq / 2] rows; every coordinate is taken
    to fall in its first cell. *)
Definition gridPixelation (eq : Z) : Pixelation :=
  {| Equator := eq; Len := eq * (eq / 2); PixelID := λ _ _, Some 0 |}.

Definition refLib : GoLib :=
  {| uniIsSpace := λ _, false;
     uniToLower := λ r, r;
     uniToUpper := λ r, r;
     NewPixelation := gridPixelation;
     ParseFloat := parseFixed;
     FormatFloat6 := formatFixed6 |}.

(** Inputs for the examples. *)
Definition exPix : Pixelation := gridPixelation 360.

Definition exEmpty : Collection := {| pix := exPix; taxa := ∅ |}.

(** 0.5, for the examples. *)
Definition f64_half : float64 := S754_finite false 4503599627370496 (-53).

(** A data record, its fields in the order of [headerFields]. *)
Definition exRow (taxon type age equator pixel density : String.string)
    : list gostring :=
  [str taxon; str type; str age; str equator; str pixel; str density].
Arguments exRow (taxon type age equator pixel density)%_string.

(** A collection with one range map, for the examples. *)
Definition exRange : Collection :=
  {| pix := exPix;
     taxa := {[ str "Aa bb" := {| name := str "Aa bb"; tp := Range; age := 100;
                                  rng := {[ 3 := f64_one; 5 := f64_half ]} |} ]} |}.


(** * Properties *)

(** ** Canonical names *)

Section StringFacts.
Context `{GoLib}.

(** A list of words as [Fields] produces them. *)
Definition wordsOK (ws : list gostring) : Prop :=
  Forall (λ w, w ≠ [] ∧ Forall (λ r, IsSpace r = false) w) ws.

Lemma Fields_wordsOK s : wordsOK (Fields s).
Proof.
  unfold wordsOK. induction s as [|r s IH]; simpl; [constructor|].
  destruct (IsSpace r) eqn:Hr; [exact IH|].
  destruct s as [|r' s'].
  - constructor; [|constructor]. split; [done|]. by constructor.
  - destruct (IsSpace r') eqn:Hr'.
    + constructor; [|exact IH]. split; [done|]. by constructor.
    + destruct (Fields (r' :: s')) as [|w ws].
      * constructor; [|constructor]. split; [done|]. by constructor.
      * inversion IH as [|? ? [Hw1 Hw2] Hws]; subst.
        constructor; [|done]. split; [done|]. by constructor.
Qed.

Lemma Fields_word w :
  w ≠ [] → Forall (λ r, IsSpace r = false) w → Fields w = [w].
Proof.
  induction w as [|r w IH]; [done|]. intros _ Hw.
  inversion Hw as [|? ? Hr Hw']; subst. simpl. rewrite Hr.
  destruct w as [|r' w']; [done|].
  inversion Hw' as [|? ? Hr' _]; subst. rewrite Hr'.
  by rewrite IH.
Qed.

Lemma Fields_word_space w s :
  w ≠ [] → Forall (λ r, IsSpace r = false) w →
  Fields (w ++ 32 :: s) = w :: Fields s.
Proof.
  induction w as [|r w IH]; [done|]. intros _ Hw.
  inversion Hw as [|? ? Hr Hw']; subst.
  change ((r :: w) ++ 32 :: s) with (r :: (w ++ 32 :: s)).
  cbn [Fields]. rewrite Hr.
  destruct w as [|r' w'].
  - reflexivity.
  - change ((r' :: w') ++ 32 :: s) with (r' :: (w' ++ 32 :: s)) in *.
    inversion Hw' as [|? ? Hr' _]; subst. rewrite Hr'.
    by rewrite IH.
Qed.

Lemma Fields_JoinSp ws : wordsOK ws → Fields (JoinSp ws) = ws.
Proof.
  induction 1 as [|w ws [Hne Hw] Hws IH]; [done|].
  destruct ws as [|w' ws'].
  - by apply Fields_word.
  - change (JoinSp (w :: w' :: ws')) with (w ++ 32 :: JoinSp (w' :: ws')).
    rewrite Fields_word_space by done. by rewrite IH.
Qed.

Lemma ToLower_JoinSp ws : ToLower (JoinSp ws) = JoinSp (ToLower <$> ws).
Proof.
  unfold ToLower. induction ws as [|w ws IH]; [done|].
  destruct ws as [|w' ws']; [done|].
  change (JoinSp (w :: w' :: ws')) with (w ++ 32 :: JoinSp (w' :: ws')).
  rewrite fmap_app, fmap_cons, IH. reflexivity.
Qed.

(** [canon] only looks at the lower-cased words of its argument. *)
Lemma canon_words name :
  canon name =
  match JoinSp (ToLower <$> Fields name) with
  | r :: rest => toUpper r :: rest
  | [] => []
  end.
Proof.
  unfold canon. rewrite <- ToLower_JoinSp.
  by destruct (JoinSp (Fields name)).
Qed.

Lemma JoinSp_cons_cons r w ws : JoinSp ((r :: w) :: ws) = r :: JoinSp (w :: ws).
Proof. destruct ws; [|done]. by destruct w. Qed.

(** The shape of a canonical name: the lower-cased words, the first code
    point upper-cased. *)
Lemma canon_shape x :
  canon x = [] ∨
  ∃ r0 y z, Fields x = (r0 :: y) :: z ∧
    canon x = JoinSp ((toUpper (toLower r0) :: ToLower y) :: (ToLower <$> z)).
Proof.
  rewrite canon_words.
  pose proof (Fields_wordsOK x) as Hok.
  destruct (Fields x) as [|w z]; [by left|].
  inversion Hok as [|? ? [Hne _] _]; subst.
  destruct w as [|r0 y]; [done|]. right. exists r0, y, z. split; [done|].
  rewrite fmap_cons. unfold ToLower at 1. rewrite fmap_cons.
  by rewrite !JoinSp_cons_cons.
Qed.

Section Idempotent.
Hypothesis lower_lower : ∀ r, toLower (toLower r) = toLower r.
Hypothesis upper_lower_upper :
  ∀ r, toUpper (toLower (toUpper (toLower r))) = toUpper (toLower r).
Hypothesis space_lower : ∀ r, IsSpace (toLower r) = IsSpace r.
Hypothesis space_upper : ∀ r, IsSpace r = false → IsSpace (toUpper r) = false.

Lemma ToLower_ToLower s : ToLower (ToLower s) = ToLower s.
Proof.
  unfold ToLower. rewrite <- list_fmap_compose.
  apply list_fmap_ext. intros i r _. apply lower_lower.
Qed.

Lemma ToLower_nospace w :
  Forall (λ r, IsSpace r = false) w → Forall (λ r, IsSpace r = false) (ToLower w).
Proof.
  unfold ToLower. intros Hw. apply Forall_fmap.
  eapply Forall_impl; [exact Hw|]. intros r Hr. simpl. by rewrite space_lower.
Qed.

Lemma wordsOK_ToLower ws : wordsOK ws → wordsOK (ToLower <$> ws).
Proof.
  unfold wordsOK. intros Hws. apply Forall_fmap.
  eapply Forall_impl; [exact Hws|]. intros w [Hne Hw]. simpl. split.
  - destruct w; [done|]. unfold ToLower. by rewrite fmap_cons.
  - by apply ToLower_nospace.
Qed.

Lemma canon_canon x : canon (canon x) = canon x.
Proof.
  destruct (canon_shape x) as [->|(r0 & y & z & Hf & Hc)]; [done|].
  pose proof (Fields_wordsOK x) as Hok. rewrite Hf in Hok.
  inversion Hok as [|? ? [_ Hw] Hz]; subst.
  inversion Hw as [|? ? Hr0 Hy]; subst.
  assert (wordsOK ((toUpper (toLower r0) :: ToLower y) :: (ToLower <$> z))) as Hok'.
  { constructor; [|by apply wordsOK_ToLower]. split; [done|].
    constructor; [|by apply ToLower_nospace].
    apply space_upper. by rewrite space_lower. }
  rewrite Hc at 1. rewrite canon_words, Fields_JoinSp by done.
  rewrite Hc. rewrite fmap_cons. unfold ToLower at 1. rewrite fmap_cons.
  rewrite !JoinSp_cons_cons. rewrite upper_lower_upper. f_equal.
  fold (ToLower (ToLower y)). rewrite ToLower_ToLower.
  rewrite <- list_fmap_compose.
  f_equal. f_equal. apply list_fmap_ext. intros i w _. simpl. apply ToLower_ToLower.
Qed.

End Idempotent.

Lemma sameWords_ToLower x y :
  sameWords x y → ToLower <$> Fields x = ToLower <$> Fields y.
Proof.
  unfold sameWords. induction 1 as [|w w' ws ws' Hw _ IH]; [done|].
  rewrite !fmap_cons, IH. f_equal.
  unfold ToLower. induction Hw as [|a b u v Hab _ IHw]; [done|].
  by rewrite !fmap_cons, Hab, IHw.
Qed.

Lemma sameWords_canon x y : sameWords x y → canon x = canon y.
Proof. intros Hxy. by rewrite !canon_words, (sameWords_ToLower x y). Qed.

End StringFacts.

(** C9. Canonicalization is idempotent, canon (canon x) = canon x for
    every string x; two names that differ only in letter case or in
    (internal, leading, trailing) white space have the same canonical
    form, as "  Foo  bar " and "foo bar" do.  The case and space tables of
    Go's [unicode] package are parameters; idempotence asks of them that
    lower-casing is idempotent, that upper-casing a lower-case code point
    survives a lower/upper round, and that neither makes or removes a
    space. *)
Theorem canon_idempotent `{GoLib} :
  (∀ r, toLower (toLower r) = toLower r) →
  (∀ r, toUpper (toLower (toUpper (toLower r))) = toUpper (toLower r)) →
  (∀ r, IsSpace (toLower r) = IsSpace r) →
  (∀ r, IsSpace r = false → IsSpace (toUpper r) = false) →
  (∀ x, canon (canon x) = canon x)
  ∧ (∀ x y, sameWords x y → canon x = canon y)
  ∧ sameWords (str "  Foo  bar ") (str "foo bar")
  ∧ canon (str "  Foo  bar ") = canon (str "foo bar").
Proof.
  intros H1 H2 H3 H4. split; [|split; [|split]].
  - intros x. by apply canon_canon.
  - apply sameWords_canon.
  - vm_compute. repeat constructor.
  - reflexivity.
Qed.

Lemma refLib_lower_lower r : @toLower refLib (@toLower refLib r) = @toLower refLib r.
Proof. unfold toLower; simpl. repeat case_bool_decide; lia. Qed.

Lemma refLib_upper_lower_upper r :
  @toUpper refLib (@toLower refLib (@toUpper refLib (@toLower refLib r)))
  = @toUpper refLib (@toLower refLib r).
Proof. unfold toLower, toUpper; simpl. repeat case_bool_decide; lia. Qed.

Lemma refLib_space_lower r : @IsSpace refLib (@toLower refLib r) = @IsSpace refLib r.
Proof.
  unfold toLower, IsSpace; simpl.
  repeat case_bool_decide; try reflexivity; try lia.
Qed.

Lemma refLib_space_upper r :
  @IsSpace refLib r = false → @IsSpace refLib (@toUpper refLib r) = false.
Proof.
  unfold toUpper, IsSpace; simpl.
  repeat case_bool_decide; try reflexivity; try lia; try done.
Qed.

Lemma canon_idempotent_witness :
  (∀ x, @canon refLib (@canon refLib x) = @canon refLib x)
  ∧ (∀ x y, @sameWords refLib x y → @canon refLib x = @canon refLib y)
  ∧ @sameWords refLib (str "  Foo  bar ") (str "foo bar")
  ∧ @canon refLib (str "  Foo  bar ") = @canon refLib (str "foo bar").
Proof.
  apply (@canon_idempotent refLib).
  - exact refLib_lower_lower.
  - exact refLib_upper_lower_upper.
  - exact refLib_space_lower.
  - exact refLib_space_upper.
Defined.

(** ** Facts on binary64 *)

(** A finite non-zero number divided by itself is exactly one. *)
Lemma f64_div_self s m e :
  f64_div (S754_finite s m e) (S754_finite s m e) = f64_one.
Proof.
  unfold f64_div, SFdiv, SFdiv_core_binary.
  replace (Z.sub (Z.add (Zdigits2 (Z.pos m)) e) (Z.add (Zdigits2 (Z.pos m)) e))
    with 0 by lia.
  replace (Z.sub e e) with 0 by lia.
  change (Z.min (fexp 53 1024 0) 0) with (-53).
  change (Z.sub 0 (-53)) with 53.
  cbv beta iota zeta.
  rewrite Z.shiftl_mul_pow2 by lia.
  assert (Z.div_eucl (Z.pos m * 2 ^ 53) (Z.pos m) = (2 ^ 53, 0)) as ->.
  { transitivity ((Z.pos m * 2 ^ 53) / Z.pos m, (Z.pos m * 2 ^ 53) mod Z.pos m).
    - unfold Z.div, Z.modulo. by destruct (Z.div_eucl _ _).
    - rewrite (Z.mul_comm (Z.pos m)), Z.div_mul, Z.mod_mul by lia. done. }
  replace (new_location (Z.pos m) 0) with loc_Exact
    by (unfold new_location; by destruct (Z.even (Z.pos m))).
  by destruct s.
Qed.

(** The comparison of [SpecFloat] orders the numbers that are not NaN. *)
Ltac f64_order :=
  repeat match goal with
  | s : bool |- _ => destruct s
  | |- context [Pos.compare_cont Eq ?a ?b] =>
      change (Pos.compare_cont Eq a b) with (Pos.compare a b);
      destruct (Pos.compare_spec a b)
  | |- context [Z.compare ?a ?b] => destruct (Z.compare_spec a b)
  | H : context [Pos.compare_cont Eq ?a ?b] |- _ =>
      change (Pos.compare_cont Eq a b) with (Pos.compare a b) in H;
      destruct (Pos.compare_spec a b)
  | H : context [Z.compare ?a ?b] |- _ => destruct (Z.compare_spec a b)
  end; simpl in *; try done; try lia.

Lemma f64_ltb_irrefl a : f64_ltb a a = false.
Proof.
  unfold f64_ltb, SFltb. destruct a; simpl; f64_order.
Qed.

(** If [v] is not above [a] and [a] is below [b], [v] is not above [b]. *)
Lemma f64_ltb_raise a b v :
  f64_ltb a v = false → f64_ltb a b = true → f64_ltb b v = false.
Proof.
  unfold f64_ltb, SFltb.
  destruct a, b, v; simpl; intros Hav Hab; f64_order.
Qed.

Lemma f64_ltb_not_nan a b : f64_ltb a b = true → b ≠ S754_nan.
Proof. unfold f64_ltb, SFltb. by destruct a, b. Qed.

(** *** Division by a larger number does not exceed one *)

Lemma digits2_bounds p :
  2 ^ (Z.pos (digits2_pos p) - 1) ≤ Z.pos p < 2 ^ Z.pos (digits2_pos p).
Proof.
  induction p as [p IH|p IH|]; simpl digits2_pos.
  - rewrite Pos2Z.inj_succ.
    replace (Z.succ (Z.pos (digits2_pos p)) - 1) with (Z.succ (Z.pos (digits2_pos p) - 1)) by lia.
    rewrite !Z.pow_succ_r by lia. lia.
  - rewrite Pos2Z.inj_succ.
    replace (Z.succ (Z.pos (digits2_pos p)) - 1) with (Z.succ (Z.pos (digits2_pos p) - 1)) by lia.
    rewrite !Z.pow_succ_r by lia. lia.
  - simpl. lia.
Qed.

Lemma Zdigits2_le m k : 0 ≤ k → 0 ≤ m ≤ 2 ^ k → Zdigits2 m ≤ k + 1.
Proof.
  intros Hk [Hm0 Hm]. destruct m as [|p|p]; simpl; [lia| |lia].
  pose proof (digits2_bounds p) as [Hlo _].
  destruct (decide (Z.pos (digits2_pos p) - 1 ≤ k)) as [|Hn]; [lia|].
  assert (2 ^ (k + 1) ≤ 2 ^ (Z.pos (digits2_pos p) - 1))
    by (apply Z.pow_le_mono_r; lia).
  rewrite Z.pow_add_r in * by lia. lia.
Qed.

Lemma Zdigits2_lt m k : 0 ≤ k → 0 ≤ m < 2 ^ k → Zdigits2 m ≤ k.
Proof.
  intros Hk [Hm0 Hm]. destruct m as [|p|p]; simpl; [lia| |lia].
  pose proof (digits2_bounds p) as [Hlo _].
  destruct (decide (Z.pos (digits2_pos p) ≤ k)) as [|Hn]; [lia|].
  assert (2 ^ k ≤ 2 ^ (Z.pos (digits2_pos p) - 1))
    by (apply Z.pow_le_mono_r; lia).
  lia.
Qed.

Lemma shr_1_m mrs : 0 ≤ shr_m mrs → shr_m (shr_1 mrs) = shr_m mrs / 2.
Proof.
  destruct mrs as [m r s]. simpl. intros Hm.
  destruct m as [|[p|p|]|p]; cbn [shr_m]; try lia; try reflexivity.
  - apply Z.div_unique with 1; lia.
  - apply Z.div_unique with 0; lia.
Qed.

Lemma iter_shr_1_m p mrs :
  0 ≤ shr_m mrs → shr_m (SpecFloat.iter_pos shr_1 p mrs) = shr_m mrs / 2 ^ Z.pos p.
Proof.
  revert mrs. induction p as [p IH|p IH|]; intros mrs Hm; simpl SpecFloat.iter_pos.
  - assert (0 ≤ shr_m (shr_1 mrs)) as H1
      by (rewrite shr_1_m by done; apply Z.div_pos; lia).
    assert (0 ≤ shr_m (SpecFloat.iter_pos shr_1 p (shr_1 mrs))) as H2
      by (rewrite IH by done; apply Z.div_pos; lia).
    rewrite IH, IH, shr_1_m by done.
    rewrite !Z.div_div by lia. f_equal.
    rewrite Pos2Z.inj_xI. rewrite <- Z.pow_add_r, <- (Z.pow_succ_r 2) by lia.
    f_equal. lia.
  - assert (0 ≤ shr_m (SpecFloat.iter_pos shr_1 p mrs)) as H2
      by (rewrite IH by done; apply Z.div_pos; lia).
    rewrite IH, IH by done.
    rewrite !Z.div_div by lia. f_equal.
    rewrite Pos2Z.inj_xO. rewrite <- Z.pow_add_r by lia. f_equal. lia.
  - rewrite shr_1_m by done. reflexivity.
Qed.

(** [shr_fexp] brings the exponent up to the one the format asks for and
    divides the mantissa accordingly. *)
Lemma shr_fexp_m m e l mrs e1 :
  0 ≤ m →
  shr_fexp 53 1024 m e l = (mrs, e1) →
  let n := fexp 53 1024 (Zdigits2 m + e) - e in
  (n ≤ 0 ∧ shr_m mrs = m ∧ e1 = e) ∨
  (0 < n ∧ shr_m mrs = m / 2 ^ n ∧ e1 = e + n).
Proof.
  intros Hm. unfold shr_fexp, shr.
  assert (shr_m (shr_record_of_loc m l) = m) as Hrec
    by (by destruct l as [|[]]).
  change (Z.sub (fexp 53 1024 (Z.add (Zdigits2 m) e)) e)
    with (fexp 53 1024 (Zdigits2 m + e) - e).
  destruct (fexp 53 1024 (Zdigits2 m + e) - e) as [|p|p] eqn:Hn;
    intros [= <- <-]; simpl.
  - left. split; [lia|]. by rewrite Hrec.
  - right. split; [lia|]. rewrite iter_shr_1_m by (rewrite Hrec; lia).
    by rewrite Hrec.
  - left. split; [lia|]. by rewrite Hrec.
Qed.

Lemma round_nearest_even_bounds m l :
  m ≤ round_nearest_even m l ≤ m + 1.
Proof.
  unfold round_nearest_even. destruct l as [|[]]; try lia.
  destruct (Z.even m); lia.
Qed.

Lemma fexp_eq x : fexp 53 1024 x = Z.max (x - 53) (-1074).
Proof. reflexivity. Qed.

Lemma f64_one_ge m e :
  e < -52 ∨ e = -52 ∧ Z.pos m ≤ 2 ^ 52 →
  f64_ltb f64_one (S754_finite false m e) = false.
Proof.
  intros He. unfold f64_ltb, SFltb, f64_one, SFcompare.
  change (Pos.compare_cont Eq 4503599627370496 m)
    with (Pos.compare 4503599627370496 m).
  destruct (Z.compare_spec (-52) e); try done; try lia.
  destruct (Pos.compare_spec 4503599627370496 m); try done.
  change (2 ^ 52) with 4503599627370496 in He. lia.
Qed.

(** Rounding a value below one gives at most one. *)
Lemma round_below_one q k lz :
  53 ≤ k → 0 ≤ q < 2 ^ k →
  f64_ltb f64_one (binary_round_aux 53 1024 false q (- k) lz) = false.
Proof.
  intros Hk [Hq0 Hq]. unfold binary_round_aux.
  destruct (shr_fexp 53 1024 q (- k) lz) as [mrs1 e1] eqn:H1.
  apply shr_fexp_m in H1; [|done]. cbv zeta in H1. rewrite fexp_eq in H1.
  pose proof (Zdigits2_lt q k ltac:(lia) ltac:(lia)) as Hdq.
  assert (0 ≤ Zdigits2 q) as Hdq0 by (destruct q; simpl; lia).
  (* after the first shift: mantissa below 2^(-e1), exponent at most -53 *)
  assert (e1 ≤ -53 ∧ -1074 - 53 ≤ e1 + k ∧ 0 ≤ shr_m mrs1 < 2 ^ (- e1)) as (He1 & He1' & Hm1).
  { destruct H1 as [(Hn & -> & ->)|(Hn & -> & ->)].
    - rewrite Z.opp_involutive. lia.
    - split; [lia|]. split; [lia|]. split; [apply Z.div_pos; lia|].
      apply Z.div_lt_upper_bound; [lia|].
      rewrite <- Z.pow_add_r by lia.
      replace (Z.max (Zdigits2 q + - k - 53) (-1074) - - k
               + - (- k + (Z.max (Zdigits2 q + - k - 53) (-1074) - - k)))
        with k by lia. done. }
  set (m2 := round_nearest_even (shr_m mrs1) (loc_of_shr_record mrs1)).
  pose proof (round_nearest_even_bounds (shr_m mrs1) (loc_of_shr_record mrs1)) as Hm2.
  fold m2 in Hm2.
  destruct (shr_fexp 53 1024 m2 e1 loc_Exact) as [mrs2 e2] eqn:H2.
  apply shr_fexp_m in H2; [|lia]. cbv zeta in H2. rewrite fexp_eq in H2.
  pose proof (Zdigits2_le m2 (- e1) ltac:(lia) ltac:(lia)) as Hd2.
  assert (0 ≤ Zdigits2 m2) as Hd20 by (destruct m2; simpl; lia).
  assert (0 ≤ shr_m mrs2 ∧ (e2 < -52 ∨ e2 = -52 ∧ shr_m mrs2 ≤ 2 ^ 52)) as [Hm3 He2].
  { destruct H2 as [(Hn & -> & ->)|(Hn & -> & ->)].
    - split; [lia|]. left. lia.
    - split; [apply Z.div_pos; lia|].
      destruct (decide (Z.max (Zdigits2 m2 + e1 - 53) (-1074) < -52)) as [|Hge];
        [left; lia|right].
      assert (Z.max (Zdigits2 m2 + e1 - 53) (-1074) = -52) as Heq by lia.
      rewrite Heq. split; [lia|].
      replace (-52 - e1) with (- e1 - 52) by lia.
      apply Z.div_le_upper_bound; [lia|].
      rewrite <- Z.pow_add_r by lia.
      replace (- e1 - 52 + 52) with (- e1) by lia. lia. }
  destruct (shr_m mrs2) as [|m3|m3] eqn:Hm3e; [done| |lia].
  destruct (Z.leb_spec e2 (1024 - 53)); [|lia].
  by apply f64_one_ge.
Qed.

Lemma round_negative q e l :
  f64_ltb f64_one (binary_round_aux 53 1024 true q e l) = false.
Proof.
  unfold binary_round_aux.
  destruct (shr_fexp 53 1024 q e l) as [mrs1 e1].
  destruct (shr_fexp 53 1024 _ e1 loc_Exact) as [mrs2 e2].
  destruct (shr_m mrs2); [done| |done].
  by destruct (Z.leb e2 (Z.sub 1024 53)).
Qed.

Lemma valid_finite s m e :
  valid_binary 53 1024 (S754_finite s m e) = true →
  e = Z.max (Z.pos (digits2_pos m) + e - 53) (-1074).
Proof.
  simpl. unfold bounded, canonical_mantissa. rewrite andb_true_iff.
  intros [He _]. apply Z.eqb_eq in He. by rewrite <- He at 1.
Qed.

(** A binary64 number divided by a positive one that is not smaller
    gives at most one. *)
Lemma f64_div_le_one v m e :
  valid_binary 53 1024 v = true →
  valid_binary 53 1024 (S754_finite false m e) = true →
  f64_ltb (S754_finite false m e) v = false →
  f64_ltb f64_one (f64_div v (S754_finite false m e)) = false.
Proof.
  intros Hv Hmx Hle. destruct v as [sv|sv| |sv mv ev]; try done.
  - by destruct sv.
  - destruct sv.
    { unfold f64_div, SFdiv.
      destruct (SFdiv_core_binary 53 1024 (Z.pos mv) ev (Z.pos m) e) as [[mz ez] lz].
      apply round_negative. }
    destruct (decide (mv = m ∧ ev = e)) as [[-> ->]|Hne].
    { rewrite f64_div_self. apply f64_ltb_irrefl. }
    apply valid_finite in Hv, Hmx.
    pose proof (digits2_bounds mv) as Hdv. pose proof (digits2_bounds m) as Hdm.
    set (dv := Z.pos (digits2_pos mv)) in *. set (dm := Z.pos (digits2_pos m)) in *.
    (* the order of the two numbers *)
    assert (ev < e ∨ ev = e ∧ Z.pos mv < Z.pos m) as Hord.
    { revert Hle. unfold f64_ltb, SFltb, SFcompare.
      change (Pos.compare_cont Eq m mv) with (Pos.compare m mv).
      destruct (Z.compare_spec e ev); try done; try lia.
      destruct (Pos.compare_spec m mv); try done; intros _; [|lia].
      subst. by destruct Hne. }
    unfold f64_div, SFdiv, SFdiv_core_binary.
    change (Zdigits2 (Z.pos mv)) with dv. change (Zdigits2 (Z.pos m)) with dm.
    change (Z.sub (Z.add dv ev) (Z.add dm e)) with (dv + ev - (dm + e)).
    change (Z.sub ev e) with (ev - e).
    rewrite fexp_eq.
    set (e' := Z.min (Z.max (dv + ev - (dm + e) - 53) (-1074)) (ev - e)).
    change (Z.sub (ev - e) e') with (ev - e - e').
    (* the exponent difference is not positive, the mantissa one decides *)
    assert (dv + ev - (dm + e) ≤ 0 ∧
            Z.pos mv * 2 ^ (ev - e - e') < Z.pos m * 2 ^ (- e')) as [HD Hval].
    { destruct Hord as [Hlt|[-> Hlt]].
      - assert (dm = 53) as Hdm53 by lia. assert (dv ≤ 53) by lia.
        split; [lia|].
        assert (e' ≤ ev - e) by lia.
        assert (Z.pos mv < 2 ^ 53).
        { eapply Z.lt_le_trans; [apply Hdv|]. apply Z.pow_le_mono_r; lia. }
        assert (2 ^ 52 ≤ Z.pos m) by (by rewrite Hdm53 in Hdm; apply Hdm).
        replace (- e') with ((ev - e - e') + (e - ev - 1) + 1) by lia.
        rewrite !Z.pow_add_r by lia.
        assert (0 < 2 ^ (ev - e - e')) by (apply Z.pow_pos_nonneg; lia).
        assert (0 < 2 ^ (e - ev - 1)) by (apply Z.pow_pos_nonneg; lia).
        change (2 ^ 1) with 2. change (2 ^ 53) with (2 * 2 ^ 52) in *.
        generalize dependent (2 ^ (ev - e - e')). intros A HA.
        generalize dependent (2 ^ (e - ev - 1)). intros B HB.
        generalize dependent (2 ^ 52). intros X HX1 HX2.
        assert (Z.pos mv * A < 2 * X * A) by nia.
        assert (2 * X * A ≤ 2 * Z.pos m * A) by nia.
        assert (Z.pos m * A * 1 ≤ Z.pos m * A * B) by nia.
        lia.
      - assert (dv ≤ dm).
        { destruct (decide (dv ≤ dm)) as [|Hn]; [done|].
          assert (2 ^ dm ≤ 2 ^ (dv - 1)) by (apply Z.pow_le_mono_r; lia). lia. }
        split; [lia|].
        replace (e - e - e') with (- e') by lia.
        assert (0 < 2 ^ (- e')) by (apply Z.pow_pos_nonneg; lia). nia. }
    assert (e' ≤ -53 ∧ 0 ≤ ev - e - e') as [He' Hs] by lia.
    assert ((match ev - e - e' with
             | Z.pos _ => Z.shiftl (Z.pos mv) (ev - e - e')
             | 0 => Z.pos mv
             | Z.neg _ => 0
             end) = Z.pos mv * 2 ^ (ev - e - e')) as ->.
    { destruct (ev - e - e') eqn:Hse; [lia| |lia].
      rewrite Z.shiftl_mul_pow2; lia. }
    set (m' := Z.pos mv * 2 ^ (ev - e - e')) in *.
    assert (Z.div_eucl m' (Z.pos m) = (m' / Z.pos m, m' mod Z.pos m)) as ->.
    { unfold Z.div, Z.modulo. by destruct (Z.div_eucl _ _). }
    pose proof (round_below_one (m' / Z.pos m) (- e')
                  (new_location (Z.pos m) (m' mod Z.pos m))) as Hround.
    rewrite Z.opp_involutive in Hround.
    apply Hround; [lia|]. split.
    + apply Z.div_pos; [|lia]. unfold m'.
      assert (0 < 2 ^ (ev - e - e')) by (apply Z.pow_pos_nonneg; lia). lia.
    + apply Z.div_lt_upper_bound; lia.
Qed.

(** ** The mutators of a collection *)

Section CollectionFacts.
Context `{GoLib}.

Lemma foldl_max_upper (P : float64 → Prop) vs a :
  (∀ v, P v → f64_ltb a v = false) →
  ∀ v, P v ∨ v ∈ vs →
       f64_ltb (foldl (λ mx v, if f64_ltb mx v then v else mx) a vs) v = false.
Proof.
  revert P a. induction vs as [|v0 vs IH]; intros P a HP v Hv; simpl.
  - destruct Hv as [Hv|Hv]; [by apply HP|]. by apply elem_of_nil in Hv.
  - apply (IH (λ v, P v ∨ v = v0)).
    + intros w [Hw| ->].
      * destruct (f64_ltb a v0) eqn:Ha; [|by apply HP].
        eapply f64_ltb_raise; [by apply HP|done].
      * destruct (f64_ltb a v0) eqn:Ha; [apply f64_ltb_irrefl|done].
    + destruct Hv as [Hv|Hv]; [by left; left|].
      apply elem_of_cons in Hv as [->|Hv]; [left; by right|by right].
Qed.

Lemma foldl_max_attained vs a :
  let r := foldl (λ mx v, if f64_ltb mx v then v else mx) a vs in
  r = a ∨ r ∈ vs.
Proof.
  revert a. induction vs as [|v0 vs IH]; intros a; simpl; [by left|].
  destruct (IH (if f64_ltb a v0 then v0 else a)) as [Hr|Hr].
  - rewrite Hr. destruct (f64_ltb a v0); [right; left|by left].
  - right. by right.
Qed.

Lemma foldl_max_not_nan vs a :
  a ≠ S754_nan →
  foldl (λ mx v, if f64_ltb mx v then v else mx) a vs ≠ S754_nan.
Proof.
  revert a. induction vs as [|v0 vs IH]; intros a Ha; simpl; [done|].
  apply IH. destruct (f64_ltb a v0) eqn:Hlt; [|done].
  by eapply f64_ltb_not_nan.
Qed.

Lemma setMax_not_nan field : setMax field ≠ S754_nan.
Proof. by apply foldl_max_not_nan. Qed.

Lemma setMax_upper (field : gmap Z float64) px v :
  field !! px = Some v → f64_ltb (setMax field) v = false.
Proof.
  intros Hv. unfold setMax. apply (foldl_max_upper (λ _, False)); [done|].
  right. apply list_elem_of_fmap. exists (px, v). split; [done|].
  by apply elem_of_map_to_list.
Qed.

Lemma setMax_attained field :
  setMax field = f64_zero ∨ ∃ px, field !! px = Some (setMax field).
Proof.
  unfold setMax.
  destruct (foldl_max_attained (snd <$> map_to_list field) f64_zero) as [Hr|Hr];
    [by left|right].
  apply list_elem_of_fmap in Hr as [[px v] [Hv Hin]]. simpl in Hv.
  exists px. rewrite Hv. by apply elem_of_map_to_list.
Qed.

(** A positive finite maximum is the one the loop of [Set] finds. *)
Lemma setMax_isMaxOf field m e :
  isMaxOf field (S754_finite false m e) → setMax field = S754_finite false m e.
Proof.
  intros [[px Hpx] Hup].
  pose proof (setMax_upper field px _ Hpx) as H1.
  pose proof (setMax_not_nan field) as Hnan.
  destruct (setMax_attained field) as [H0|[px' Hpx']].
  - by rewrite H0 in H1.
  - apply Hup in Hpx'. revert H1 Hpx' Hnan. unfold f64_ltb, SFltb.
    destruct (setMax field) as [[]|[]| |[] m' e']; simpl; try done.
    change (Pos.compare_cont Eq m' m) with (Pos.compare m' m).
    change (Pos.compare_cont Eq m m') with (Pos.compare m m').
    destruct (Z.compare_spec e' e), (Z.compare_spec e e'); try done; try lia.
    destruct (Pos.compare_spec m' m), (Pos.compare_spec m m'); try done; try lia.
    intros _ _ _. by subst.
Qed.

Lemma Set_in_bounds c (field : gmap Z float64) :
  (∀ px v, field !! px = Some v → px < Len (pix c)) →
  forallb (λ e, bool_decide (e.1 < Len (pix c))) (map_to_list field) = true.
Proof.
  intros Hb. apply forallb_forall. intros [px v] Hin.
  apply bool_decide_eq_true. simpl. apply (Hb px v).
  apply elem_of_map_to_list. by apply list_elem_of_In.
Qed.

Lemma Set_out_of_bounds c (field : gmap Z float64) px v :
  field !! px = Some v → Len (pix c) ≤ px →
  forallb (λ e, bool_decide (e.1 < Len (pix c))) (map_to_list field) = false.
Proof.
  intros Hv Hpx. apply not_true_is_false. intros Hall.
  rewrite forallb_forall in Hall. specialize (Hall (px, v)).
  rewrite bool_decide_eq_true in Hall. simpl in Hall.
  assert (px < Len (pix c)); [|lia].
  apply Hall. apply list_elem_of_In. by apply elem_of_map_to_list.
Qed.

(** What [Set] stores when it returns. *)
Lemma Set_returns c nm ag field :
  canon nm ≠ [] →
  (∀ px v, field !! px = Some v → px < Len (pix c)) →
  ∃ c', Collection_Set c nm ag field = Returns c' ∧
        Collection_Range c' nm = Some ((λ p, f64_div p (setMax field)) <$> field) ∧
        Collection_Type c' nm = Range ∧
        Collection_Age c' nm = ag.
Proof.
  intros Hnm Hb. eexists. unfold Collection_Set.
  rewrite decide_False by done. rewrite Set_in_bounds by done.
  split; [reflexivity|].
  unfold Collection_Range, Collection_Type, Collection_Age.
  rewrite !decide_False by done. simpl. by rewrite lookup_insert_eq.
Qed.

End CollectionFacts.

Section SetFacts.
Context `{GoLib}.

Lemma Set_normalizes_aux c nm ag (field : gmap Z float64) m e :
  canon nm ≠ [] →
  (∀ px v, field !! px = Some v →
           px < Len (pix c) ∧ valid_binary 53 1024 v = true) →
  isMaxOf field (S754_finite false m e) →
  SetNormalizes c nm ag field.
Proof.
  intros Hnm Hf Hmax.
  destruct (Set_returns c nm ag field Hnm) as (c' & Hset & Hr & _ & _).
  { intros px v Hv. by apply (Hf px v). }
  pose proof (setMax_isMaxOf field m e Hmax) as Hmx. rewrite Hmx in Hr.
  exists c', ((λ p, f64_div p (S754_finite false m e)) <$> field),
         (S754_finite false m e).
  split; [done|]. split; [done|]. split; [|split; [done|]].
  - destruct Hmax as [[px Hpx] Hup]. split.
    + exists px. rewrite lookup_fmap, Hpx.
      exact (f_equal Some (f64_div_self false m e)).
    + intros px' v'. rewrite lookup_fmap.
      destruct (field !! px') as [v|] eqn:Hv; simpl; [|done].
      intros [= <-]. apply f64_div_le_one.
      * by apply (Hf px' v).
      * by apply (Hf px _ Hpx).
      * by apply (Hup px').
  - intros px. by rewrite lookup_fmap.
Qed.

End SetFacts.

(** C2 (amended). For every name that does not canonicalize to empty, every
    age and every field of binary64 values with all cell ids in bounds
    whose maximum is finite and greater than zero, [Set] returns, the
    maximum of the values of Range(name) is exactly 1.0, and each stored
    value is the input value divided by the maximum input value. *)
Theorem Set_normalizes `{GoLib} c nm ag (field : gmap Z float64) m e :
  canon nm ≠ [] →
  (∀ px v, field !! px = Some v →
           px < Len (pix c) ∧ valid_binary 53 1024 v = true) →
  isMaxOf field (S754_finite false m e) →
  SetNormalizes c nm ag field.
Proof. apply Set_normalizes_aux. Qed.

Section SetExamples.
#[local] Existing Instance refLib.

Lemma Set_normalizes_witness :
  SetNormalizes exEmpty (str "Eoraptor lunensis") 230000000
    (<[34662 := f64_half]> {[34663 := f64_one]}).
Proof.
  apply (Set_normalizes exEmpty (str "Eoraptor lunensis") 230000000
           (<[34662 := f64_half]> {[34663 := f64_one]}) 4503599627370496 (-52)).
  - by vm_compute.
  - intros px v Hv. apply lookup_insert_Some in Hv as [[<- <-]|[_ Hv]].
    + by vm_compute.
    + apply lookup_singleton_Some in Hv as [<- <-]. by vm_compute.
  - split.
    + exists 34663. reflexivity.
    + intros px v Hv. apply lookup_insert_Some in Hv as [[<- <-]|[_ Hv]].
      * reflexivity.
      * apply lookup_singleton_Some in Hv as [<- <-]. reflexivity.
Defined.

(** C2 as stated fails: a non-empty field that holds only the value zero
    is stored as NaN (0/0), so that no stored value is 1.0. *)
Lemma Set_zero_field_not_normalized :
  let field : gmap Z float64 := {[0 := f64_zero]} in
  field ≠ ∅ ∧ canon (str "A") ≠ [] ∧
  (∀ px v, field !! px = Some v → px < Len (pix exEmpty)) ∧
  ¬ SetNormalizes exEmpty (str "A") 0 field.
Proof.
  intros field. split; [|split; [|split]].
  - apply insert_non_empty.
  - by vm_compute.
  - intros px v Hv. apply lookup_singleton_Some in Hv as [<- <-]. by vm_compute.
  - intros (c' & r & mx & Hset & Hr & [[px Hone] _] & _ & _).
    destruct (Set_returns exEmpty (str "A") 0 field) as (c2 & Hset2 & Hr2 & _).
    { by vm_compute. }
    { intros px' v Hv. apply lookup_singleton_Some in Hv as [<- <-]. by vm_compute. }
    rewrite Hset in Hset2. injection Hset2 as ->.
    rewrite Hr in Hr2. injection Hr2 as ->.
    unfold field in Hone. rewrite map_fmap_singleton in Hone.
    apply lookup_singleton_Some in Hone as [_ Hone].
    by vm_compute in Hone.
Qed.

End SetExamples.

Section AddFacts.
Context `{GoLib}.

Lemma Range_ne_Points : Range ≠ Points.
Proof. by vm_compute. Qed.

Lemma Collection_eta c : {| pix := pix c; taxa := taxa c |} = c.
Proof. by destruct c. Qed.

(** A taxon of type Range is stored under the canonical name. *)
Lemma Type_Range_stored c nm :
  Collection_Type c nm = Range →
  canon nm ≠ [] ∧ ∃ tax, taxa c !! canon nm = Some tax ∧ tp tax = Range.
Proof.
  unfold Collection_Type. destruct (decide (canon nm = [])) as [|Hnm]; [done|].
  destruct (taxa c !! canon nm) as [tax|]; [|done]. eauto.
Qed.

Lemma Add_on_Range c nm ag lat lon :
  Collection_Type c nm = Range → Collection_Add c nm ag lat lon = Returns c.
Proof.
  intros (Hnm & tax & Htax & Htp)%Type_Range_stored. unfold Collection_Add.
  rewrite decide_False by done. rewrite Htax. simpl.
  rewrite decide_True by (rewrite Htp; apply Range_ne_Points).
  by rewrite insert_id, Collection_eta.
Qed.

Lemma AddPixel_on_Range c nm ag px :
  Collection_Type c nm = Range → Collection_AddPixel c nm ag px = Returns c.
Proof.
  intros (Hnm & tax & Htax & Htp)%Type_Range_stored. unfold Collection_AddPixel.
  rewrite decide_False by done. rewrite Htax. simpl.
  rewrite decide_True by (rewrite Htp; apply Range_ne_Points).
  by rewrite insert_id, Collection_eta.
Qed.

Lemma SetPixels_stores_aux c nm ag (field : gmap Z float64) :
  canon nm ≠ [] → SetPixelsStores c nm ag field.
Proof.
  intros Hnm. unfold SetPixelsStores, Collection_SetPixels.
  unfold Collection_Type, Collection_Age, Collection_Range.
  rewrite !decide_False by done. cbn [taxa pix]. rewrite lookup_insert_eq.
  split; [done|]. split; [done|].
  exists ((λ _, f64_one) <$> field). split; [done|]. split.
  - apply dom_fmap_L.
  - intros px v. rewrite lookup_fmap.
    destruct (field !! px); simpl; [|done]. by intros [= <-].
Qed.

End AddFacts.

(** C4. For every collection and every taxon whose current type is Range,
    a call of [Add] or of [AddPixel] with that taxon's name returns (no
    panic, and the methods have no error result) and leaves the collection
    as it was: Range(name), Type(name) and Age(name), as those of every
    other name, are unchanged; the point is dropped. *)
Theorem Add_on_Range_is_dropped `{GoLib} c nm ag lat lon px :
  Collection_Type c nm = Range →
  ∃ c1 c2,
    Collection_Add c nm ag lat lon = Returns c1 ∧
    Collection_AddPixel c nm ag px = Returns c2 ∧
    sameView c c1 ∧ sameView c c2 ∧ c1 = c ∧ c2 = c.
Proof.
  intros Htp. exists c, c.
  split; [by apply Add_on_Range|]. split; [by apply AddPixel_on_Range|].
  by repeat split.
Qed.

(** C8 (amended). For every name that does not canonicalize to empty, every
    age and every field, after [SetPixels] the type of the taxon is
    Points, its age is the one given, and its range holds exactly the keys
    of the field, each with the value 1.0 whatever the input densities. *)
Theorem SetPixels_stores `{GoLib} c nm ag (field : gmap Z float64) :
  canon nm ≠ [] → SetPixelsStores c nm ag field.
Proof. apply SetPixels_stores_aux. Qed.

Section AddExamples.
#[local] Existing Instance refLib.

(** A collection whose only taxon is of type Range. *)
Lemma exRange_Type :
  Collection_Type
    {| pix := exPix;
       taxa := {[str "Eoraptor lunensis" :=
                   {| name := str "Eoraptor lunensis"; tp := Range;
                      age := 230000000; rng := {[34663 := f64_one]} |}]} |}
    (str "eoraptor  lunensis") = Range.
Proof. by vm_compute. Qed.

Lemma Add_on_Range_is_dropped_witness :
  let c := {| pix := exPix;
              taxa := {[str "Eoraptor lunensis" :=
                          {| name := str "Eoraptor lunensis"; tp := Range;
                             age := 230000000; rng := {[34663 := f64_one]} |}]} |} in
  ∃ c1 c2,
    Collection_Add c (str "eoraptor  lunensis") 0 f64_zero f64_zero = Returns c1 ∧
    Collection_AddPixel c (str "eoraptor  lunensis") 0 17319 = Returns c2 ∧
    sameView c c1 ∧ sameView c c2 ∧ c1 = c ∧ c2 = c.
Proof.
  intros c.
  apply (Add_on_Range_is_dropped c (str "eoraptor  lunensis") 0 f64_zero f64_zero 17319).
  by vm_compute.
Defined.

Lemma SetPixels_stores_witness :
  SetPixelsStores exEmpty (str "Eoraptor lunensis") 230000000
    (<[34662 := f64_half]> {[34663 := f64_one]}).
Proof.
  apply (SetPixels_stores exEmpty (str "Eoraptor lunensis") 230000000
           (<[34662 := f64_half]> {[34663 := f64_one]})).
  by vm_compute.
Defined.

(** C8 as stated fails for a name that canonicalizes to empty: the call
    does nothing and the type of the name is not Points. *)
Lemma SetPixels_empty_name :
  ¬ SetPixelsStores exEmpty (str "  ") 0 {[34663 := f64_half]}.
Proof. intros [Htp _]. by vm_compute in Htp. Qed.

End AddExamples.

(** ** Decoding *)

Arguments canon : simpl never.
Arguments rowField : simpl never.
Arguments ParseInt : simpl never.
Arguments Atoi : simpl never.
Arguments parseType : simpl never.
Arguments ToLower : simpl never.
Arguments str : simpl never.

Section DecodeFacts.
Context `{GoLib}.

Lemma find_none_all {A} (f : A → bool) l :
  (∀ x, x ∈ l → f x = false) → List.find f l = None.
Proof.
  induction l as [|x l IH]; intros Hall; simpl; [done|].
  rewrite (Hall x) by left. apply IH. intros y Hy. apply Hall. by right.
Qed.

Lemma headerOK_find head :
  headerOK head →
  List.find (λ h, bool_decide (headerIndex head !! h = None)) headerFields = None.
Proof.
  intros Hok. apply find_none_all. intros h Hh.
  apply bool_decide_eq_false. destruct (Hok h Hh) as [i Hi]. by rewrite Hi.
Qed.

(** With a header that lacks a column, [ReadTSV] returns an error. *)
Lemma ReadTSV_header l0 head rows p :
  headerOK head ∨ ∃ e, ReadTSV (CsvRecord l0 head :: rows) p = Err e.
Proof.
  unfold ReadTSV.
  destruct (List.find _ headerFields) as [h|] eqn:Hf; [right; by eexists|].
  left. intros h Hh.
  pose proof (find_none _ _ Hf h) as Hn.
  rewrite <- list_elem_of_In in Hn. specialize (Hn Hh).
  apply bool_decide_eq_false in Hn.
  by destruct (headerIndex head !! h).
Qed.

(** [ReadTSV] with a complete header, in terms of the loop. *)
Lemma ReadTSV_rows l0 head rows p :
  headerOK head →
  ReadTSV (CsvRecord l0 head :: rows) p =
  match stateAfter head p rows with
  | Err e => Err e
  | Ok st =>
      match rs_c st with
      | None => Err ErrNoData
      | Some c => Ok {| pix := pix c; taxa := scaleTaxon (rs_max st) <$> taxa c |}
      end
  end.
Proof. intros Hok. unfold ReadTSV. by rewrite headerOK_find. Qed.

Lemma readRows_app n fields st pre post :
  readRows n fields st (pre ++ post) =
  match readRows n fields st pre with
  | Err e => Err e
  | Ok st' => readRows n fields st' post
  end.
Proof.
  revert st. induction pre as [|[ln row|ln] pre IH]; intros st; simpl; [done| |done].
  destruct (decide (length row ≠ n)); [done|].
  by destruct (readRow fields st ln row).
Qed.

(** A record that parses goes on to the test of its name. *)
Lemma readRow_parses head st ln row pixn t ag nm :
  rowParses head st row pixn t ag nm →
  readRow (headerIndex head) st ln row =
  if decide (nm = []) then
    Ok {| rs_pix := Some pixn; rs_c := Some (default (New pixn) (rs_c st));
          rs_max := rs_max st |}
  else storeRow (headerIndex head) st ln row pixn
         (default (New pixn) (rs_c st)) t ag nm.
Proof.
  intros (_ & (eq & Heq & -> & Hpix) & Ht & Hag & <-). unfold readRow.
  rewrite Heq. rewrite decide_False by (by intros []).
  by rewrite Ht, Hag.
Qed.

(** What a turn of the loop that does not return has done. *)
Lemma readRow_Ok fields st ln row st' :
  readRow fields st ln row = Ok st' →
  ∃ eq t ag,
    let p := default (NewPixelation eq) (rs_pix st) in
    let c := default (New p) (rs_c st) in
    let nm := canon (rowField fields row (str "taxon")) in
    Atoi (rowField fields row (str "equator")) = Some eq ∧
    Equator p = eq ∧
    parseType (ToLower (rowField fields row (str "type"))) = Some t ∧
    ParseInt (rowField fields row (str "age")) = Some ag ∧
    ((nm = [] ∧ st' = {| rs_pix := Some p; rs_c := Some c; rs_max := rs_max st |})
     ∨ (nm ≠ [] ∧ storeRow fields st ln row p c t ag nm = Ok st')).
Proof.
  unfold readRow. intros Hrow.
  destruct (Atoi _) as [eq|]; [|done]. exists eq.
  destruct (decide (Equator _ ≠ eq)) as [|Heq]; [done|].
  apply dec_stable in Heq.
  destruct (parseType _) as [t|]; [|done]. exists t.
  destruct (ParseInt _) as [ag|]; [|done]. exists ag.
  cbv zeta. split; [done|]. split; [done|]. split; [done|]. split; [done|].
  destruct (decide (canon _ = [])) as [Hnm|Hnm].
  - left. split; [done|]. by injection Hrow.
  - by right.
Qed.

Lemma storeRow_Ok fields st ln row p c t ag nm st' :
  storeRow fields st ln row p c t ag nm = Ok st' →
  let tax := default {| name := nm; tp := t; age := ag; rng := ∅ |}
                     (taxa c !! nm) in
  ∃ px density,
    tp tax = t ∧ age tax = ag ∧
    Atoi (rowField fields row (str "pixel")) = Some px ∧ px < Len p ∧
    (if decide (tp tax = Range)
     then ParseFloat (rowField fields row (str "density"))
     else Some f64_one) = Some density ∧
    st' = {| rs_pix := Some p;
             rs_c := Some {| pix := pix c;
                             taxa := <[nm := {| name := name tax; tp := tp tax;
                                                age := age tax;
                                                rng := <[px := density]> (rng tax) |}]>
                                       (taxa c) |};
             rs_max := if f64_ltb (default f64_zero (rs_max st !! name tax)) density
                       then <[name tax := density]> (rs_max st)
                       else rs_max st |}.
Proof.
  unfold storeRow. cbv zeta. intros Hrow.
  destruct (decide (tp _ ≠ t)) as [|Ht]; [done|]. apply dec_stable in Ht.
  destruct (decide (age _ ≠ ag)) as [|Hag]; [done|]. apply dec_stable in Hag.
  destruct (Atoi _) as [px|]; [|done].
  destruct (decide (Len p ≤ px)) as [|Hpx]; [done|].
  destruct (if decide (tp _ = Range) then _ else _) as [density|] eqn:Hd; [|done].
  exists px, density. injection Hrow as <-.
  repeat split; try done. lia.
Qed.

End DecodeFacts.

Section DecodeRows.
Context `{GoLib}.

(** The loop on the records [pre], then on one more record that parses. *)
Lemma ReadTSV_at_row l0 head pre ln row post p st pixn t ag nm :
  headerOK head → stateAfter head p pre = Ok st →
  rowParses head st row pixn t ag nm → nm ≠ [] →
  ∀ e,
    storeRow (headerIndex head) st ln row pixn
      (default (New pixn) (rs_c st)) t ag nm = Err e →
    ReadTSV (CsvRecord l0 head :: pre ++ CsvRecord ln row :: post) p = Err e.
Proof.
  intros Hok Hpre Hrow Hnm e He.
  rewrite ReadTSV_rows by done. unfold stateAfter in *.
  rewrite readRows_app, Hpre. simpl.
  rewrite decide_False by (destruct Hrow as [-> _]; by intros []).
  rewrite (readRow_parses _ _ _ _ _ _ _ _ Hrow).
  by rewrite decide_False, He.
Qed.

Lemma storeRow_inconsistent fields st ln row p c t ag nm tax :
  taxa c !! nm = Some tax → tp tax ≠ t ∨ age tax ≠ ag →
  ∃ fe, storeRow fields st ln row p c t ag nm = Err (ErrField ln (str "taxon") fe)
        ∧ (fe = TypeMismatch t (tp tax) ∨ fe = AgeMismatch ag (age tax)).
Proof.
  intros Htax Hne. unfold storeRow. rewrite Htax. simpl.
  destruct (decide (tp tax ≠ t)); [eauto|].
  destruct (decide (age tax ≠ ag)); [eauto|].
  destruct Hne; done.
Qed.

(** A turn of the loop keeps the type and the age of the stored taxa. *)
Lemma readRow_kept fields st ln row st' c n tax :
  readRow fields st ln row = Ok st' →
  rs_c st = Some c → taxa c !! n = Some tax →
  ∃ c' tax', rs_c st' = Some c' ∧ taxa c' !! n = Some tax'
             ∧ tp tax' = tp tax ∧ age tax' = age tax.
Proof.
  intros Hrow Hc Htax.
  apply readRow_Ok in Hrow as (eq & t & ag & _ & _ & _ & _ & Hcase).
  rewrite Hc in Hcase. simpl in Hcase.
  destruct Hcase as [[_ ->]|[Hnm Hstore]]; [by exists c, tax|].
  apply storeRow_Ok in Hstore as (px & d & _ & _ & _ & _ & _ & ->).
  cbn [rs_c].
  destruct (decide (canon (rowField fields row (str "taxon")) = n)) as [<-|Hn].
  - eexists _, _. split; [done|]. cbn [taxa].
    rewrite lookup_insert_eq. split; [done|]. by rewrite Htax.
  - eexists _, tax. split; [done|]. cbn [taxa].
    rewrite lookup_insert_ne by done. done.
Qed.

Lemma readRows_kept k fields rs st st' c n tax :
  readRows k fields st rs = Ok st' →
  rs_c st = Some c → taxa c !! n = Some tax →
  ∃ c' tax', rs_c st' = Some c' ∧ taxa c' !! n = Some tax'
             ∧ tp tax' = tp tax ∧ age tax' = age tax.
Proof.
  revert st c tax. induction rs as [|[ln row|ln] rs IH]; intros st c tax; simpl.
  - intros [= <-] Hc Htax. by exists c, tax.
  - destruct (decide (length row ≠ k)); [done|].
    destruct (readRow fields st ln row) as [st1|] eqn:Hrow; [|done].
    intros Hrs Hc Htax.
    destruct (readRow_kept _ _ _ _ _ _ _ _ Hrow Hc Htax)
      as (c1 & tax1 & Hc1 & Htax1 & Htp1 & Hag1).
    destruct (IH _ _ _ Hrs Hc1 Htax1) as (c' & tax' & ? & ? & ? & ?).
    exists c', tax'. repeat split; congruence.
  - done.
Qed.

(** A turn of the loop that stores a cell leaves the taxon of the record
    with the parsed age. *)
Lemma readRow_stored fields st ln row st' ag :
  readRow fields st ln row = Ok st' →
  ParseInt (rowField fields row (str "age")) = Some ag →
  canon (rowField fields row (str "taxon")) ≠ [] →
  ∃ c' tax', rs_c st' = Some c'
             ∧ taxa c' !! canon (rowField fields row (str "taxon")) = Some tax'
             ∧ age tax' = ag.
Proof.
  intros Hrow Hag Hnm.
  apply readRow_Ok in Hrow as (eq & t & ag' & _ & _ & _ & Hag' & Hcase).
  rewrite Hag in Hag'. injection Hag' as <-.
  destruct Hcase as [[? _]|[_ Hstore]]; [done|].
  apply storeRow_Ok in Hstore as (px & d & _ & Hage & _ & _ & _ & ->).
  cbn [rs_c]. eexists _, _. split; [done|]. cbn [taxa].
  rewrite lookup_insert_eq. done.
Qed.

(** Two records of one taxon with different ages: the loop returns an
    error. *)
Lemma readRows_two_ages k fields st pre ln1 row1 mid ln2 row2 post a1 a2 :
  canon (rowField fields row1 (str "taxon"))
    = canon (rowField fields row2 (str "taxon")) →
  canon (rowField fields row1 (str "taxon")) ≠ [] →
  ParseInt (rowField fields row1 (str "age")) = Some a1 →
  ParseInt (rowField fields row2 (str "age")) = Some a2 →
  a1 ≠ a2 →
  ∃ e, readRows k fields st
         (pre ++ CsvRecord ln1 row1 :: mid ++ CsvRecord ln2 row2 :: post) = Err e.
Proof.
  intros Hsame Hnm Ha1 Ha2 Hne.
  rewrite readRows_app.
  destruct (readRows k fields st pre) as [st0|e0]; [|by eexists].
  simpl. destruct (decide (length row1 ≠ k)); [by eexists|].
  destruct (readRow fields st0 ln1 row1) as [st1|e1] eqn:Hrow1; [|by eexists].
  destruct (readRow_stored _ _ _ _ _ _ Hrow1 Ha1 Hnm) as (c1 & tax1 & Hc1 & Htax1 & Hag1).
  rewrite readRows_app.
  destruct (readRows k fields st1 mid) as [st2|e2] eqn:Hmid; [|by eexists].
  destruct (readRows_kept _ _ _ _ _ _ _ _ Hmid Hc1 Htax1)
    as (c2 & tax2 & Hc2 & Htax2 & _ & Hag2).
  simpl. destruct (decide (length row2 ≠ k)); [by eexists|].
  destruct (readRow fields st2 ln2 row2) as [st3|e3] eqn:Hrow2; [|by eexists].
  exfalso.
  apply readRow_Ok in Hrow2 as (eq & t & ag & _ & _ & _ & Hag & Hcase).
  rewrite Ha2 in Hag. injection Hag as <-.
  rewrite Hc2 in Hcase. simpl in Hcase. rewrite <- Hsame in Hcase.
  destruct Hcase as [[? _]|[_ Hstore]]; [done|].
  apply storeRow_Ok in Hstore as (px & d & _ & Hage & _).
  rewrite Htax2 in Hage. simpl in Hage. congruence.
Qed.

End DecodeRows.

(** C5. During decode, a data row that names a taxon already created from
    an earlier row, and whose parsed type or parsed age differs from the
    stored one, makes the whole decode fail with a consistency error that
    reports the row and the field; no collection is returned.  In
    particular a stream with two rows for the same taxon that carry
    different age values never decodes. *)
Theorem decode_inconsistent_row `{GoLib} :
  (∀ head l0 pre ln row post p st c pixn t ag nm tax,
     headerOK head → stateAfter head p pre = Ok st → rs_c st = Some c →
     rowParses head st row pixn t ag nm → nm ≠ [] →
     taxa c !! nm = Some tax → tp tax ≠ t ∨ age tax ≠ ag →
     ∃ fe,
       ReadTSV (CsvRecord l0 head :: pre ++ CsvRecord ln row :: post) p
         = Err (ErrField ln (str "taxon") fe)
       ∧ (fe = TypeMismatch t (tp tax) ∨ fe = AgeMismatch ag (age tax)))
  ∧ (∀ head l0 pre ln1 row1 mid ln2 row2 post p a1 a2,
       canon (rowField (headerIndex head) row1 (str "taxon"))
         = canon (rowField (headerIndex head) row2 (str "taxon")) →
       canon (rowField (headerIndex head) row1 (str "taxon")) ≠ [] →
       ParseInt (rowField (headerIndex head) row1 (str "age")) = Some a1 →
       ParseInt (rowField (headerIndex head) row2 (str "age")) = Some a2 →
       a1 ≠ a2 →
       ∃ e, ReadTSV (CsvRecord l0 head :: pre ++ CsvRecord ln1 row1
                       :: mid ++ CsvRecord ln2 row2 :: post) p = Err e).
Proof.
  split.
  - intros head l0 pre ln row post p st c pixn t ag nm tax
      Hok Hpre Hc Hrow Hnm Htax Hne.
    destruct (storeRow_inconsistent (headerIndex head) st ln row pixn c t ag nm tax
                Htax Hne) as (fe & Hst & Hfe).
    exists fe. split; [|done].
    eapply ReadTSV_at_row; try done. by rewrite Hc.
  - intros head l0 pre ln1 row1 mid ln2 row2 post p a1 a2 Hsame Hnm Ha1 Ha2 Hne.
    destruct (ReadTSV_header l0 head
                (pre ++ CsvRecord ln1 row1 :: mid ++ CsvRecord ln2 row2 :: post) p)
      as [Hok|Hbad]; [|done].
    rewrite ReadTSV_rows by done. unfold stateAfter.
    destruct (readRows_two_ages (length head) (headerIndex head)
                {| rs_pix := p; rs_c := None; rs_max := ∅ |}
                pre ln1 row1 mid ln2 row2 post a1 a2) as [e ->]; try done.
    by exists e.
Qed.

Section DecodeExamples.
#[local] Existing Instance refLib.

Lemma decode_inconsistent_row_witness :
  ∃ e, ReadTSV
         (CsvRecord 3 headerFields
          :: [] ++ CsvRecord 4 (exRow "Eoraptor lunensis" "range" "230000000" "360" "34661" "0.2")
          :: [] ++ CsvRecord 5 (exRow "eoraptor lunensis" "range" "100" "360" "34662" "1.0")
          :: []) None = Err e.
Proof.
  apply (proj2 decode_inconsistent_row headerFields 3 []
           4 (exRow "Eoraptor lunensis" "range" "230000000" "360" "34661" "0.2") []
           5 (exRow "eoraptor lunensis" "range" "100" "360" "34662" "1.0") []
           None 230000000 100); by vm_compute.
Defined.

(** The error of the example: the second record, its age against the
    stored one. *)
Example decode_inconsistent_row_error :
  ReadTSV
    [CsvRecord 3 headerFields;
     CsvRecord 4 (exRow "Eoraptor lunensis" "range" "230000000" "360" "34661" "0.2");
     CsvRecord 5 (exRow "eoraptor lunensis" "range" "100" "360" "34662" "1.0")] None
  = Err (ErrField 5 (str "taxon") (AgeMismatch 100 230000000)).
Proof. by vm_compute. Qed.

End DecodeExamples.

Section DecodeBounds.
Context `{GoLib}.

Lemma storeRow_out_of_bounds fields st ln row p c t ag nm px :
  tp (default {| name := nm; tp := t; age := ag; rng := ∅ |} (taxa c !! nm)) = t →
  age (default {| name := nm; tp := t; age := ag; rng := ∅ |} (taxa c !! nm)) = ag →
  Atoi (rowField fields row (str "pixel")) = Some px →
  Len p ≤ px →
  storeRow fields st ln row p c t ag nm
  = Err (ErrField ln (str "pixel") (InvalidPixel px)).
Proof.
  intros Htp Hag Hpx Hlen. unfold storeRow. cbv zeta.
  rewrite decide_False by (by intros []).
  rewrite decide_False by (by intros []).
  rewrite Hpx. by rewrite decide_True.
Qed.

(** The loop on records that are all skipped. *)
Lemma readRows_skipped head pixn rows st :
  rs_pix st = Some pixn →
  Forall (λ r, ∃ ln row t ag,
            r = CsvRecord ln row ∧
            rowParses head {| rs_pix := Some pixn; rs_c := None; rs_max := ∅ |}
              row pixn t ag []) rows →
  ∃ st', readRows (length head) (headerIndex head) st rows = Ok st'
         ∧ rs_pix st' = Some pixn
         ∧ rs_max st' = rs_max st
         ∧ (rows = [] ∧ st' = st
            ∨ rows ≠ [] ∧ rs_c st' = Some (default (New pixn) (rs_c st))).
Proof.
  intros Hpix Hrows. revert st Hpix.
  induction Hrows as [|r rows (ln & row & t & ag & -> & Hrow) _ IH]; intros st Hpix.
  - exists st. simpl. repeat split; try done. by left.
  - simpl. rewrite decide_False by (destruct Hrow as [-> _]; by intros []).
    assert (rowParses head st row pixn t ag []) as Hrow'.
    { destruct Hrow as (Hlen & (eq & Heq & Hdef & Hpx) & Hrest).
      split; [done|]. split; [|done]. exists eq. rewrite Hpix. done. }
    rewrite (readRow_parses _ _ _ _ _ _ _ _ Hrow'). rewrite decide_True by done.
    destruct (IH {| rs_pix := Some pixn;
                    rs_c := Some (default (New pixn) (rs_c st));
                    rs_max := rs_max st |} eq_refl)
      as (st' & Hst' & Hp' & Hm' & Hc').
    exists st'. split; [done|]. split; [done|]. split; [done|]. right.
    split; [done|].
    destruct Hc' as [[_ ->]|[_ ->]]; done.
Qed.

Lemma Taxa_New p : Collection_Taxa (New p) = [].
Proof. unfold Collection_Taxa, New. simpl. by rewrite map_to_list_empty. Qed.

End DecodeBounds.

(** C6 (amended). [Set] with a name that does not canonicalize to empty
    panics whenever a cell id of its input is greater than or equal to the
    number of cells of the pixelation, [pix.Len()]; and a data row that
    passes the checks of the equator, the type and the age, names a taxon
    (not empty) whose stored type and age agree, and whose pixel field is
    such a cell id, makes the decode return a bounds error for that row. *)
Theorem bounds_are_checked `{GoLib} :
  (∀ c nm ag (field : gmap Z float64) px v,
     canon nm ≠ [] → field !! px = Some v → Len (pix c) ≤ px →
     Collection_Set c nm ag field = Panics)
  ∧ (∀ head l0 pre ln row post p st pixn t ag nm px,
       headerOK head → stateAfter head p pre = Ok st →
       rowParses head st row pixn t ag nm → nm ≠ [] →
       tp (rowTaxon st pixn t ag nm) = t → age (rowTaxon st pixn t ag nm) = ag →
       Atoi (rowField (headerIndex head) row (str "pixel")) = Some px →
       Len pixn ≤ px →
       ReadTSV (CsvRecord l0 head :: pre ++ CsvRecord ln row :: post) p
       = Err (ErrField ln (str "pixel") (InvalidPixel px))).
Proof.
  split.
  - intros c nm ag field px v Hnm Hv Hpx. unfold Collection_Set.
    rewrite decide_False by done.
    by rewrite (Set_out_of_bounds c field px v).
  - intros head l0 pre ln row post p st pixn t ag nm px
      Hok Hpre Hrow Hnm Htp Hag Hpx Hlen.
    eapply ReadTSV_at_row; try done.
    by apply storeRow_out_of_bounds.
Qed.

(** C7. Decoding a stream without data rows fails and returns no
    collection: the empty stream, a stream in which only the header can
    be read, and a header followed only by lines that the reader skips as
    comments. *)
Theorem decode_no_rows `{GoLib} :
  (∀ p, ReadTSV [] p = Err ErrHeader)
  ∧ (∀ h p, ∃ e, ReadTSV [h] p = Err e)
  ∧ (∀ ln head p, headerOK head → ReadTSV [CsvRecord ln head] p = Err ErrNoData)
  ∧ (∀ ln head p lines,
       headerOK head → Forall (λ rec, isCommentLine rec = true) lines →
       ReadTSV (CsvRecord ln head :: csvReread (ln + 1) lines) p = Err ErrNoData).
Proof.
  split; [done|]. split; [|split].
  - intros [ln head|ln] p; [|by eexists].
    destruct (ReadTSV_header ln head [] p) as [Hok|Hbad]; [|done].
    rewrite ReadTSV_rows by done. by eexists.
  - intros ln head p Hok. by rewrite ReadTSV_rows.
  - intros ln head p lines Hok Hlines.
    assert (∀ k, csvReread k lines = []) as ->.
    { induction Hlines as [|rec lines Hrec _ IH]; intros k; simpl; [done|].
      by rewrite Hrec. }
    by rewrite ReadTSV_rows.
Qed.

(** C10. When every data row parses (equator, type and age) and has a
    taxon name that canonicalizes to empty, the collection is created
    before the names are looked at: with at least one such row the decode
    returns, without error, a collection whose Taxa() is empty, not the
    error of a stream without data. *)
Theorem decode_all_names_empty `{GoLib} head l0 rows p pixn :
  headerOK head → rows ≠ [] →
  default (NewPixelation (Equator pixn)) p = pixn →
  Forall (λ r, ∃ ln row t ag,
            r = CsvRecord ln row ∧
            rowParses head {| rs_pix := Some pixn; rs_c := None; rs_max := ∅ |}
              row pixn t ag []) rows →
  ReadTSV (CsvRecord l0 head :: rows) p = Ok (New pixn)
  ∧ Collection_Taxa (New pixn) = [].
Proof.
  intros Hok Hne Hpix Hrows. split; [|apply Taxa_New].
  rewrite ReadTSV_rows by done. unfold stateAfter.
  destruct rows as [|r rows]; [done|].
  inversion Hrows as [|? ? (ln & row & t & ag & -> & Hrow) Hrows']; subst.
  simpl. rewrite decide_False by (destruct Hrow as [-> _]; by intros []).
  assert (rowParses head {| rs_pix := p; rs_c := None; rs_max := ∅ |}
            row pixn t ag []) as Hrow'.
  { destruct Hrow as (Hlen & (eq & Heq & Hdef & Hpx) & Hrest).
    split; [done|]. split; [|done]. exists eq.
    split; [done|]. split; [|done]. cbn [rs_pix]. rewrite <- Hpx. by rewrite Hpix. }
  rewrite (readRow_parses _ _ _ _ _ _ _ _ Hrow'). rewrite decide_True by done.
  simpl.
  destruct (readRows_skipped head pixn rows
              {| rs_pix := Some pixn; rs_c := Some (New pixn); rs_max := ∅ |}
              eq_refl Hrows') as (st' & -> & _ & _ & Hc').
  assert (rs_c st' = Some (New pixn)) as ->
    by (destruct Hc' as [[_ ->]|[_ ->]]; done).
  unfold New. simpl. by rewrite fmap_empty.
Qed.

Lemma headerOK_headerFields `{GoLib} : headerOK headerFields.
Proof.
  intros h Hh. unfold headerFields in Hh.
  repeat (apply elem_of_cons in Hh as [->|Hh]); try (by vm_compute; eexists).
  by apply elem_of_nil in Hh.
Qed.

Section BoundsExamples.
#[local] Existing Instance refLib.

Lemma bounds_are_checked_witness :
  Collection_Set exEmpty (str "Eoraptor lunensis") 0 {[64800 := f64_one]} = Panics.
Proof.
  apply (proj1 bounds_are_checked exEmpty (str "Eoraptor lunensis") 0
           {[64800 := f64_one]} 64800 f64_one);
    by vm_compute.
Defined.

(** The bounds error of the decoder on a pixel that is out of range. *)
Example decode_out_of_bounds :
  ReadTSV
    [CsvRecord 3 headerFields;
     CsvRecord 4 (exRow "Eoraptor lunensis" "range" "230000000" "360" "64800" "1.0")] None
  = Err (ErrField 4 (str "pixel") (InvalidPixel 64800)).
Proof. by vm_compute. Qed.

(** C6 as stated fails.  With a name that canonicalizes to empty [Set]
    returns without looking at the cell ids, and the decoder skips the
    row without reading its pixel; and the bound is the number of cells,
    not the resolution (the equator, 360 here): cell 400 is accepted. *)
Lemma bounds_not_checked_everywhere :
  (Len exPix ≤ 1000000000
   ∧ Collection_Set exEmpty (str "  ") 0 {[1000000000 := f64_one]} = Returns exEmpty)
  ∧ (Equator exPix ≤ 400
     ∧ Collection_Set exEmpty (str "A") 0 {[400 := f64_one]} ≠ Panics)
  ∧ ReadTSV
      [CsvRecord 3 headerFields;
       CsvRecord 4 (exRow "  " "range" "0" "360" "1000000000" "1.0")] None
    = Ok exEmpty.
Proof.
  split; [split; [by vm_compute|by vm_compute]|]. split.
  - split; [by vm_compute|].
    destruct (Set_returns exEmpty (str "A") 0 {[400 := f64_one]})
      as (c' & -> & _); [by vm_compute| |done].
    intros px v Hv. apply lookup_singleton_Some in Hv as [<- _]. by vm_compute.
  - by vm_compute.
Qed.

Lemma decode_no_rows_witness :
  ReadTSV (CsvRecord 3 headerFields
           :: csvReread (3 + 1) [exRow "# a comment" "" "" "" "" ""]) None
  = Err ErrNoData.
Proof.
  apply (proj2 (proj2 (proj2 decode_no_rows)) 3 headerFields None
           [exRow "# a comment" "" "" "" "" ""]).
  - apply headerOK_headerFields.
  - constructor; [by vm_compute|constructor].
Defined.

Lemma decode_all_names_empty_witness :
  ReadTSV [CsvRecord 3 headerFields;
           CsvRecord 4 (exRow "  " "points" "0" "360" "17319" "1.0")] None
  = Ok (New exPix)
  ∧ Collection_Taxa (New exPix) = [].
Proof.
  apply (decode_all_names_empty headerFields 3
           [CsvRecord 4 (exRow "  " "points" "0" "360" "17319" "1.0")] None exPix).
  - apply headerOK_headerFields.
  - done.
  - reflexivity.
  - constructor; [|constructor].
    exists 4, (exRow "  " "points" "0" "360" "17319" "1.0"), Points, 0.
    split; [done|]. split; [done|]. split.
    + exists 360. by vm_compute.
    + by vm_compute.
Defined.

End BoundsExamples.

(** ** The records of a collection *)

Section RecordFacts.
Context `{GoLib}.

Lemma recordsOK_taxonOK c :
  cellsNotEmpty c ∧ pointsAreOne c ↔ map_Forall (λ _, taxonOK) (taxa c).
Proof.
  unfold cellsNotEmpty, pointsAreOne, taxonOK. split.
  - intros [Hne Hone] nm tax Htax. split; [by eapply Hne|].
    intros Htp px v Hv. by eapply Hone.
  - intros Hall. split.
    + intros nm tax Htax. by apply (Hall nm tax Htax).
    + intros nm tax px v Htax Htp Hv. by eapply (Hall nm tax Htax).
Qed.

(** A Points record, new or in order, is in order with one more cell. *)
Lemma taxonOK_add_cell tax px :
  rng tax = ∅ ∨ taxonOK tax → tp tax = Points →
  taxonOK {| name := name tax; tp := tp tax; age := age tax;
             rng := <[px := f64_one]> (rng tax) |}.
Proof.
  intros Hold Htp. split; simpl; [apply insert_non_empty|].
  intros _ px' v [[_ <-]|[_ Hv]]%lookup_insert_Some; [done|].
  destruct Hold as [Hold|[_ Hold]]; [by rewrite Hold in Hv|].
  by apply (Hold Htp px').
Qed.

Lemma taxonOK_default c nm (tax0 : taxon) :
  map_Forall (λ _, taxonOK) (taxa c) → rng tax0 = ∅ →
  let tax := default tax0 (taxa c !! nm) in
  rng tax = ∅ ∨ taxonOK tax.
Proof.
  intros Hc H0. simpl. destruct (taxa c !! nm) as [tax|] eqn:Htax; simpl.
  - right. by apply (Hc nm).
  - by left.
Qed.

Lemma Add_taxonOK c nm ag lat lon c' :
  map_Forall (λ _, taxonOK) (taxa c) →
  Collection_Add c nm ag lat lon = Returns c' →
  map_Forall (λ _, taxonOK) (taxa c').
Proof.
  intros Hc. unfold Collection_Add.
  destruct (decide (canon nm = [])); [by intros [= <-]|].
  pose proof (taxonOK_default c (canon nm)
    {| name := canon nm; tp := Points; age := 0; rng := ∅ |} Hc eq_refl) as Htax.
  simpl in Htax.
  destruct (decide (tp _ ≠ Points)) as [Htp|Htp].
  - intros [= <-]. simpl. apply map_Forall_insert_2; [|done].
    destruct (taxa c !! canon nm) as [tax|] eqn:Hl; simpl in *; [|done].
    by apply (Hc (canon nm)).
  - apply dec_stable in Htp.
    destruct (PixelID _ _ _) as [px|]; [|done]. intros [= <-]. simpl.
    apply map_Forall_insert_2; [|done]. by apply taxonOK_add_cell.
Qed.

Lemma AddPixel_taxonOK c nm ag px c' :
  map_Forall (λ _, taxonOK) (taxa c) →
  Collection_AddPixel c nm ag px = Returns c' →
  map_Forall (λ _, taxonOK) (taxa c').
Proof.
  intros Hc. unfold Collection_AddPixel.
  destruct (decide (canon nm = [])); [by intros [= <-]|].
  pose proof (taxonOK_default c (canon nm)
    {| name := canon nm; tp := Points; age := 0; rng := ∅ |} Hc eq_refl) as Htax.
  simpl in Htax.
  destruct (decide (tp _ ≠ Points)) as [Htp|Htp].
  - intros [= <-]. simpl. apply map_Forall_insert_2; [|done].
    destruct (taxa c !! canon nm) as [tax|] eqn:Hl; simpl in *; [|done].
    by apply (Hc (canon nm)).
  - apply dec_stable in Htp. intros [= <-]. simpl.
    apply map_Forall_insert_2; [|done]. by apply taxonOK_add_cell.
Qed.

Lemma Set_taxonOK c nm ag (field : gmap Z float64) c' :
  map_Forall (λ _, taxonOK) (taxa c) → field ≠ ∅ →
  Collection_Set c nm ag field = Returns c' →
  map_Forall (λ _, taxonOK) (taxa c').
Proof.
  intros Hc Hf. unfold Collection_Set.
  destruct (decide (canon nm = [])); [by intros [= <-]|].
  destruct (forallb _ _); [|done]. intros [= <-]. simpl.
  apply map_Forall_insert_2; [|done]. split; simpl.
  - by rewrite fmap_empty_iff.
  - intros Htp. by destruct Range_ne_Points.
Qed.

Lemma SetPixels_taxonOK c nm ag (field : gmap Z float64) :
  map_Forall (λ _, taxonOK) (taxa c) → field ≠ ∅ →
  map_Forall (λ _, taxonOK) (taxa (Collection_SetPixels c nm ag field)).
Proof.
  intros Hc Hf. unfold Collection_SetPixels.
  destruct (decide (canon nm = [])); [done|]. simpl.
  apply map_Forall_insert_2; [|done]. split; simpl.
  - by rewrite fmap_empty_iff.
  - intros _ px v. rewrite lookup_fmap.
    destruct (field !! px); simpl; [|done]. by intros [= <-].
Qed.

Lemma Delete_taxonOK c nm :
  map_Forall (λ _, taxonOK) (taxa c) →
  map_Forall (λ _, taxonOK) (taxa (Collection_Delete c nm)).
Proof.
  intros Hc. unfold Collection_Delete.
  destruct (decide (canon nm = [])); [done|]. simpl.
  by apply map_Forall_delete.
Qed.

Lemma readRow_taxonOK fields st ln row st' :
  (∀ c, rs_c st = Some c → map_Forall (λ _, taxonOK) (taxa c)) →
  readRow fields st ln row = Ok st' →
  ∀ c, rs_c st' = Some c → map_Forall (λ _, taxonOK) (taxa c).
Proof.
  intros Hst Hrow.
  apply readRow_Ok in Hrow as (eq & t & ag & _ & _ & _ & _ & Hcase).
  cbv zeta in Hcase.
  set (p := default (NewPixelation eq) (rs_pix st)) in *.
  assert (map_Forall (λ _, taxonOK) (taxa (default (New p) (rs_c st)))) as Hc.
  { destruct (rs_c st) as [c0|]; simpl; [by apply Hst|]. apply map_Forall_empty. }
  destruct Hcase as [[_ ->]|[Hnm Hstore]]; [by intros c [= <-]|].
  apply storeRow_Ok in Hstore as (px & d & Htp & _ & _ & _ & Hd & ->).
  intros c [= <-]. cbn [taxa]. apply map_Forall_insert_2; [|done].
  set (nm := canon (rowField fields row (str "taxon"))) in *.
  pose proof (taxonOK_default (default (New p) (rs_c st)) nm
    {| name := nm; tp := t; age := ag; rng := ∅ |} Hc eq_refl) as Htax.
  cbv zeta in Htax.
  set (tax := default _ (taxa (default (New p) (rs_c st)) !! nm)) in *.
  split; cbn [rng tp]; [apply insert_non_empty|].
  intros Hpt px' v [[_ <-]|[_ Hv]]%lookup_insert_Some.
  - rewrite decide_False in Hd; [by injection Hd|].
    rewrite Hpt. intros Heq. by destruct Range_ne_Points.
  - destruct Htax as [Htax|[_ Htax]]; [by rewrite Htax in Hv|].
    by apply (Htax Hpt px').
Qed.

Lemma readRows_taxonOK k fields rs st st' :
  (∀ c, rs_c st = Some c → map_Forall (λ _, taxonOK) (taxa c)) →
  readRows k fields st rs = Ok st' →
  ∀ c, rs_c st' = Some c → map_Forall (λ _, taxonOK) (taxa c).
Proof.
  revert st. induction rs as [|[ln row|ln] rs IH]; intros st Hst; simpl.
  - by intros [= <-].
  - destruct (decide (length row ≠ k)); [done|].
    destruct (readRow fields st ln row) as [st1|] eqn:Hrow; [|done].
    apply IH. by eapply readRow_taxonOK.
  - done.
Qed.

Lemma scaleTaxon_taxonOK mx tax : taxonOK tax → taxonOK (scaleTaxon mx tax).
Proof.
  intros [Hne Hone]. unfold scaleTaxon.
  destruct (decide (tp tax = Points)) as [|Htp]; [done|].
  destruct (f64_eqb _ _); [done|]. split; simpl; [|done].
  by rewrite fmap_empty_iff.
Qed.

Lemma ReadTSV_taxonOK r p c :
  ReadTSV r p = Ok c → map_Forall (λ _, taxonOK) (taxa c).
Proof.
  destruct r as [|[l0 head|l0] rows]; [done| |done].
  destruct (ReadTSV_header l0 head rows p) as [Hok|[e ->]]; [|done].
  rewrite ReadTSV_rows by done. unfold stateAfter.
  destruct (readRows _ _ _ rows) as [st|] eqn:Hrows; [|done].
  destruct (rs_c st) as [c0|] eqn:Hc0; [|done]. intros [= <-]. simpl.
  apply map_Forall_fmap. 
  eapply map_Forall_impl; [|intros nm tax; apply scaleTaxon_taxonOK].
  eapply readRows_taxonOK; [|done..]. by intros c.
Qed.

Lemma reachable_taxonOK c :
  reachable fieldNotEmpty c → map_Forall (λ _, taxonOK) (taxa c).
Proof.
  induction 1 as [p|r p c Hread|c m c' _ IH Hm Hmut].
  - apply map_Forall_empty.
  - by eapply ReadTSV_taxonOK.
  - destruct m as [nm ag lat lon|nm ag px|nm ag field|nm ag field|nm];
      simpl in Hm, Hmut.
    + by eapply Add_taxonOK.
    + by eapply AddPixel_taxonOK.
    + by eapply Set_taxonOK.
    + injection Hmut as <-. by apply SetPixels_taxonOK.
    + injection Hmut as <-. by apply Delete_taxonOK.
Qed.

End RecordFacts.

(** C3 (amended). In every collection built by [New] or by a decode and
    then by any sequence of the mutations Add, AddPixel, Set, SetPixels
    (and Delete), where Set and SetPixels are not given an empty field,
    every taxon record present has a non-empty cells mapping, and every
    cell of a record of type Points holds exactly 1.0. *)
Theorem cells_never_empty `{GoLib} c :
  reachable fieldNotEmpty c → cellsNotEmpty c ∧ pointsAreOne c.
Proof. intros Hc. apply recordsOK_taxonOK. by apply reachable_taxonOK. Qed.

Section RecordExamples.
#[local] Existing Instance refLib.

Lemma cells_never_empty_witness :
  let c := {| pix := exPix;
              taxa := {[str "A" := {| name := str "A"; tp := Points; age := 7;
                                      rng := {[17319 := f64_one]} |}]} |} in
  cellsNotEmpty c ∧ pointsAreOne c.
Proof.
  intros c. apply (cells_never_empty c).
  apply (reach_mutate fieldNotEmpty (New exPix)
           (MSetPixels (str " a ") 7 {[17319 := f64_half]}) c).
  - apply reach_New.
  - apply insert_non_empty.
  - by vm_compute.
Defined.

(** C3 as stated fails.  [Set] with an empty field leaves a record without
    cells; and [Set] stores a cell of density zero as it is. *)
Lemma cells_can_be_empty_or_zero :
  (∃ c, reachable (λ _, True) c ∧ ¬ cellsNotEmpty c)
  ∧ (∃ c, reachable fieldNotEmpty c ∧ ¬ noZeroCell c).
Proof.
  split.
  - exists {| pix := exPix;
              taxa := {[str "A" := {| name := str "A"; tp := Range; age := 0;
                                      rng := ∅ |}]} |}.
    split.
    + apply (reach_mutate _ (New exPix) (MSet (str "A") 0 ∅)); [apply reach_New|done|].
      by vm_compute.
    + intros Hc. by apply (Hc (str "A") _ (lookup_singleton_eq _ _)).
  - exists {| pix := exPix;
              taxa := {[str "A" := {| name := str "A"; tp := Range; age := 0;
                                      rng := <[0 := f64_zero]> {[1 := f64_one]} |}]} |}.
    split.
    + apply (reach_mutate _ (New exPix)
               (MSet (str "A") 0 (<[0 := f64_zero]> {[1 := f64_one]})));
        [apply reach_New|apply insert_non_empty|].
      by vm_compute.
    + intros Hc.
      pose proof (Hc (str "A") _ 0 f64_zero (lookup_singleton_eq _ _)
                    (lookup_insert_eq _ _ _)) as Hz.
      by vm_compute in Hz.
Qed.

End RecordExamples.

(** ** Integers in decimal *)

Lemma runesUint_uintRunes u : runesUint (uintRunes u) = Some u.
Proof. induction u; simpl; try done; by rewrite IHu. Qed.

Lemma uintRunes_digit u :
  u ≠ Nil → ∃ r s, uintRunes u = r :: s ∧ 48 ≤ r ≤ 57.
Proof. destruct u; [done|..]; intros _; eexists _, _; (split; [done|lia]). Qed.

Lemma Z_of_uint_to_uint p : Z.of_uint (Pos.to_uint p) = Z.pos p.
Proof. unfold Z.of_uint. by rewrite DecimalPos.Unsigned.of_to. Qed.

(** Parsing what [FormatInt] printed gives the number back. *)
Lemma ParseInt_FormatInt z : int64 z → ParseInt (FormatInt z) = Some z.
Proof.
  unfold int64, FormatInt, ParseInt. intros Hz.
  destruct z as [|q|q]; [done|..]; simpl Z.to_int; cbv iota.
  - destruct (uintRunes_digit (Pos.to_uint q)) as (r & s & Hrs & Hr);
      [apply DecimalPos.Unsigned.to_uint_nonnil|].
    rewrite Hrs. rewrite !bool_decide_eq_false_2 by lia. rewrite <- Hrs.
    rewrite runesUint_uintRunes, Z_of_uint_to_uint.
    rewrite bool_decide_eq_false_2 by lia. done.
  - rewrite bool_decide_eq_false_2 by lia. rewrite bool_decide_eq_true_2 by lia.
    destruct (uintRunes_digit (Pos.to_uint q)) as (r & s & Hrs & Hr);
      [apply DecimalPos.Unsigned.to_uint_nonnil|].
    rewrite Hrs. rewrite <- Hrs.
    rewrite runesUint_uintRunes, Z_of_uint_to_uint.
    rewrite bool_decide_eq_false_2 by lia. done.
Qed.

Lemma Atoi_Itoa z : int64 z → Atoi (Itoa z) = Some z.
Proof. apply ParseInt_FormatInt. Qed.

(** ** The round trip *)

Section RowFields.
Context `{GoLib}.

Lemma rowField_cell a b c0 d e f :
  let row := [a; b; c0; d; e; f] in
  let fields := headerIndex headerFields in
  rowField fields row (str "taxon") = a ∧
  rowField fields row (str "type") = b ∧
  rowField fields row (str "age") = c0 ∧
  rowField fields row (str "equator") = d ∧
  rowField fields row (str "pixel") = e ∧
  rowField fields row (str "density") = f.
Proof.
  cbv zeta. unfold rowField.
  replace (headerIndex headerFields !! str "taxon") with (Some 0%nat) by (by vm_compute).
  replace (headerIndex headerFields !! str "type") with (Some 1%nat) by (by vm_compute).
  replace (headerIndex headerFields !! str "age") with (Some 2%nat) by (by vm_compute).
  replace (headerIndex headerFields !! str "equator") with (Some 3%nat) by (by vm_compute).
  replace (headerIndex headerFields !! str "pixel") with (Some 4%nat) by (by vm_compute).
  replace (headerIndex headerFields !! str "density") with (Some 5%nat) by (by vm_compute).
  done.
Qed.

Lemma parseType_ok t :
  t = Points ∨ t = Range → parseType (ToLower t) = Some t.
Proof. by intros [->| ->]; vm_compute. Qed.

(** A number that is neither below nor above a positive finite one is
    that number. *)
Lemma f64_same_finite m mx ex :
  m ≠ S754_nan →
  f64_ltb m (S754_finite false mx ex) = false →
  f64_ltb (S754_finite false mx ex) m = false →
  m = S754_finite false mx ex.
Proof.
  unfold f64_ltb, SFltb.
  destruct m as [[]|[]| |[] m e]; simpl; try done.
  change (Pos.compare_cont Eq m mx) with (Pos.compare m mx).
  change (Pos.compare_cont Eq mx m) with (Pos.compare mx m).
  destruct (Z.compare_spec e ex), (Z.compare_spec ex e); try done; try lia.
  destruct (Pos.compare_spec m mx), (Pos.compare_spec mx m); try done; try lia.
  intros _ _ _. by subst.
Qed.

Lemma f64_is_one m :
  m ≠ S754_nan → f64_ltb m f64_one = false → f64_ltb f64_one m = false →
  m = f64_one.
Proof. apply f64_same_finite. Qed.

Lemma isCommentLine_first f rest : isCommentLine (f :: rest) = isCommentLine [f].
Proof. done. Qed.

Lemma csvReread_rows ln (rows : list (list gostring)) :
  Forall (λ row, isCommentLine row = false) rows →
  Forall2 (λ r row, ∃ k, r = CsvRecord k row) (csvReread ln rows) rows.
Proof.
  intros Hrows. revert ln. induction Hrows as [|row rows Hrow _ IH]; intros ln; simpl.
  - constructor.
  - rewrite Hrow. constructor; [by eexists|apply IH].
Qed.

End RowFields.

Arguments FormatInt : simpl never.
Arguments Itoa : simpl never.
Arguments decCell : simpl never.
Arguments f64_ltb : simpl never.

Section RoundTrip.
Context `{GoLib}.
Variables (c : Collection) (p : option Pixelation).
Hypothesis Hwf : wellFormed c.
Hypothesis Hp : default (NewPixelation (Equator (pix c))) p = pix c.

Lemma cellOf_storable x : cellOf c x → storable c x.1.
Proof. intros [Htax _]. destruct Hwf as (_ & _ & Hall). by apply (Hall _ _ Htax). Qed.

Lemma stored_name nm tax : taxa c !! nm = Some tax → name tax = nm.
Proof. intros Htax. destruct Hwf as (_ & _ & Hall). by apply (Hall _ _ Htax). Qed.

Lemma cellOf_same_name x y : cellOf c x → cellOf c y → name x.1 = name y.1 → x.1 = y.1.
Proof. intros [Hx _] [Hy _] Heq. rewrite Heq in Hx. congruence. Qed.

(** The density that the decoder reads for a cell. *)
Lemma decCell_parsed tax px :
  cellOf c (tax, px) →
  (if decide (tp tax = Range)
   then ParseFloat (FormatFloat6 (default f64_zero (rng tax !! px)))
   else Some f64_one) = Some (decCell tax px).
Proof.
  intros Hcell. pose proof (cellOf_storable _ Hcell) as Hst.
  destruct Hcell as [_ [v Hv]]. simpl in *.
  unfold decCell, decValue. destruct (decide (tp tax = Range)) as [Htp|]; [|done].
  destruct Hst as (_ & _ & _ & _ & _ & _ & _ & _ & Hrg).
  destruct (Hrg Htp) as [_ Hrt]. rewrite Hv. simpl.
  destruct (Hrt px v Hv) as (v' & -> & _). done.
Qed.

Lemma readRow_cell done st ln tax px :
  decoded c p done st → cellOf c (tax, px) →
  ∃ st', readRow (headerIndex headerFields) st ln (cellRow c tax px) = Ok st'
         ∧ decoded c p (done ++ [(tax, px)]) st'.
Proof.
  intros (Hpix & Hcur & Hrec & Hin & Hmax) Hcell.
  pose proof (cellOf_storable _ Hcell)
    as (Hcanon & Hne & _ & Htp & Hage & _ & Hbounds & _ & _).
  pose proof (decCell_parsed _ _ Hcell) as Hdens.
  pose proof Hcell as [Htax [v Hv]]. simpl in Hcanon, Hne, Htp, Hage, Hbounds, Htax, Hv.
  destruct (Hbounds px v Hv) as [Hpx64 Hpxlen].
  destruct Hwf as (_ & Heq64 & _).
  pose proof (rowField_cell (name tax) (tp tax) (FormatInt (age tax))
                (Itoa (Equator (pix c))) (Itoa px)
                (FormatFloat6 (default f64_zero (rng tax !! px))))
    as (Hf1 & Hf2 & Hf3 & Hf4 & Hf5 & Hf6).
  cbv zeta in Hf1, Hf2, Hf3, Hf4, Hf5, Hf6.
  change [name tax; tp tax; FormatInt (age tax); Itoa (Equator (pix c)); Itoa px;
          FormatFloat6 (default f64_zero (rng tax !! px))]
    with (cellRow c tax px) in Hf1, Hf2, Hf3, Hf4, Hf5, Hf6.
  (* the record parses *)
  assert (rowParses headerFields st (cellRow c tax px) (pix c) (tp tax) (age tax)
            (name tax)) as Hrow.
  { unfold rowParses. cbv zeta. rewrite Hf1, Hf2, Hf3, Hf4.
    split; [done|]. split; [|split; [by apply parseType_ok|]].
    - exists (Equator (pix c)). split; [by apply Atoi_Itoa|]. split; [|done].
      destruct Hpix as [->| ->]; [by rewrite Hp|done].
    - split; [by apply ParseInt_FormatInt|done]. }
  rewrite (readRow_parses _ _ _ _ _ _ _ _ Hrow).
  rewrite decide_False by done.
  (* the record stored so far *)
  fold (current c st).
  set (old := default {| name := name tax; tp := tp tax; age := age tax; rng := ∅ |}
                      (taxa (current c st) !! name tax)).
  assert (name old = name tax ∧ tp old = tp tax ∧ age old = age tax ∧
          ∀ px' d, rng old !! px' = Some d ↔ (tax, px') ∈ done ∧ d = decCell tax px')
    as (Hold1 & Hold2 & Hold3 & Hold4).
  { unfold old. destruct (taxa (current c st) !! name tax) as [t|] eqn:Ht; simpl.
    - destruct (Hrec _ _ Ht) as (tax' & Htax' & ? & ? & ? & ?).
      rewrite Htax in Htax'. injection Htax' as <-. done.
    - split; [done|]. split; [done|]. split; [done|]. intros px' d'. split.
      + by intros ?%lookup_empty_Some.
      + intros [Hd _]. apply Hin in Hd as [_ [? Hd]]. simpl in Hd. congruence. }
  unfold storeRow. cbv zeta. fold old.
  rewrite Hold1, Hold2, Hold3.
  rewrite decide_False by (by intros []). rewrite decide_False by (by intros []).
  rewrite Hf5, Hf6, (Atoi_Itoa px Hpx64).
  rewrite decide_False by lia. rewrite Hdens.
  eexists. split; [reflexivity|].
  set (d := decCell tax px).
  set (m := default f64_zero (rs_max st !! name tax)).
  (* the invariant *)
  split; [by right|]. split; [done|]. split; [|split].
  - intros nm t. unfold current. cbn [rs_c default from_option id taxa].
    fold (current c st). intros [[<- <-]|[Hnm Ht]]%lookup_insert_Some.
    + exists tax. cbn [name tp age rng].
      split; [done|]. split; [done|]. split; [done|]. split; [done|].
      intros px' d'. split.
      * intros [[<- <-]|[Hpx' Hd]]%lookup_insert_Some.
        -- split; [|done]. apply elem_of_app. right. by left.
        -- apply Hold4 in Hd as [Hd ->]. split; [|done]. apply elem_of_app. by left.
      * intros [Hd ->]. apply lookup_insert_Some.
        destruct (decide (px = px')) as [<-|Hpx']; [by left|right].
        split; [done|]. apply Hold4. split; [|done].
        apply elem_of_app in Hd as [Hd|Hd]; [done|].
        apply list_elem_of_singleton in Hd. congruence.
    + destruct (Hrec _ _ Ht) as (tax0 & Htax0 & Hn0 & Ht0 & Ha0 & Hr0).
      exists tax0.
      split; [done|]. split; [done|]. split; [done|]. split; [done|].
      intros px' d'. split.
      * intros Hd. apply Hr0 in Hd as [Hd ->]. split; [|done].
        apply elem_of_app. by left.
      * intros [Hd ->]. apply Hr0. split; [|done].
        apply elem_of_app in Hd as [Hd|Hd]; [done|].
        apply list_elem_of_singleton in Hd. injection Hd as -> ->.
        pose proof (stored_name _ _ Htax0). congruence.
  - intros x Hx. unfold current. cbn [rs_c default from_option id taxa]. split; [done|].
    fold (current c st).
    destruct (decide (name tax = name x.1)) as [<-|Hnx].
    + by rewrite lookup_insert_eq.
    + rewrite lookup_insert_ne by done.
      apply elem_of_app in Hx as [Hx|Hx]; [by apply Hin|].
      apply list_elem_of_singleton in Hx. by subst.
  - intros nm. cbn [rs_max]. fold m.
    destruct (Hmax nm) as (Hnan & Hatt & Hup).
    destruct (decide (nm = name tax)) as [->|Hnm].
    + fold m in Hnan, Hatt, Hup.
      destruct (f64_ltb m d) eqn:Hlt.
      * rewrite lookup_insert_eq. cbn [default from_option id]. split; [|split].
        -- by eapply f64_ltb_not_nan.
        -- right. exists (tax, px). split; [|done]. apply elem_of_app. right. by left.
        -- intros x [Hx|Hx]%elem_of_app Hnx.
           ++ eapply f64_ltb_raise; [|done]. by apply Hup.
           ++ apply list_elem_of_singleton in Hx. subst x. apply f64_ltb_irrefl.
      * fold m. split; [done|]. split.
        -- destruct Hatt as [Hz|(x & Hx & Hnx & Hm)]; [by left|right].
           exists x. split; [|done]. apply elem_of_app. by left.
        -- intros x [Hx|Hx]%elem_of_app Hnx; [by apply Hup|].
           apply list_elem_of_singleton in Hx. by subst x.
    + assert (default f64_zero
                ((if f64_ltb m d then <[name tax := d]> (rs_max st) else rs_max st) !! nm)
              = default f64_zero (rs_max st !! nm)) as ->.
      { destruct (f64_ltb m d); [|done]. by rewrite lookup_insert_ne. }
      split; [done|]. split.
      * destruct Hatt as [Hz|(x & Hx & Hnx & Hm)]; [by left|right].
        exists x. split; [|done]. apply elem_of_app. by left.
      * intros x [Hx|Hx]%elem_of_app Hnx; [by apply Hup|].
        apply list_elem_of_singleton in Hx. subst x. done.
Qed.


Lemma decoded_init :
  decoded c p [] {| rs_pix := p; rs_c := None; rs_max := ∅ |}.
Proof.
  split; [by left|]. split; [done|]. split; [|split].
  - intros nm t. unfold current. simpl. by intros ?%lookup_empty_Some.
  - by intros x ?%elem_of_nil.
  - intros nm. cbn [rs_max]. rewrite lookup_empty. cbn [default from_option id].
    split; [done|]. split; [by left|]. by intros x ?%elem_of_nil.
Qed.

Lemma readRows_cells cells rs done st :
  Forall (cellOf c) cells →
  Forall2 (λ r x, ∃ k, r = CsvRecord k (cellRow c x.1 x.2)) rs cells →
  decoded c p done st →
  ∃ st', readRows 6 (headerIndex headerFields) st rs = Ok st'
         ∧ decoded c p (done ++ cells) st'.
Proof.
  intros Hcells. revert rs done st.
  induction Hcells as [|[tax px] cells Hx _ IH]; intros rs done st Hrs Hst.
  - apply Forall2_nil_inv_r in Hrs as ->. exists st. by rewrite app_nil_r.
  - apply Forall2_cons_inv_r in Hrs as (r & rs' & [k ->] & Hrs' & ->).
    cbn [readRows fst snd]. rewrite decide_False by (by intros []).
    destruct (readRow_cell done st k tax px Hst Hx) as (st1 & -> & Hst1).
    destruct (IH rs' _ st1 Hrs' Hst1) as (st' & Hrows & Hst').
    exists st'. split; [done|]. by rewrite <- app_assoc in Hst'.
Qed.


Lemma names_keys :
  name <$> (map_to_list (taxa c)).*2 = (map_to_list (taxa c)).*1.
Proof.
  rewrite <- list_fmap_compose. apply list_fmap_ext.
  intros i [nm tax] Hi. simpl. apply stored_name.
  apply elem_of_map_to_list. by eapply list_elem_of_lookup_2.
Qed.

Lemma elem_of_Taxa nm : nm ∈ Collection_Taxa c ↔ is_Some (taxa c !! nm).
Proof.
  unfold Collection_Taxa. rewrite merge_sort_Permutation, names_keys.
  rewrite list_elem_of_fmap. split.
  - intros ([nm' tax] & -> & Hin). apply elem_of_map_to_list in Hin. by eexists.
  - intros [tax Htax]. exists (nm, tax). split; [done|].
    by apply elem_of_map_to_list.
Qed.

Lemma elem_of_cellsOf x nm :
  x ∈ cellsOf c nm ↔ name x.1 = nm ∧ cellOf c x.
Proof.
  unfold cellsOf, cellOf. destruct x as [tax px]. simpl. split.
  - destruct (taxa c !! nm) as [tax'|] eqn:Htax; [|by intros ?%elem_of_nil].
    intros (px' & [= -> ->] & Hpx)%list_elem_of_fmap.
    pose proof (stored_name _ _ Htax) as Hnm. rewrite Hnm.
    split; [done|]. split; [done|].
    rewrite merge_sort_Permutation in Hpx.
    apply list_elem_of_fmap in Hpx as ([px'' v] & -> & Hpx).
    apply elem_of_map_to_list in Hpx. by eexists.
  - intros (<- & Htax & [v Hv]). rewrite Htax.
    apply list_elem_of_fmap. exists px. split; [done|].
    rewrite merge_sort_Permutation. apply list_elem_of_fmap.
    exists (px, v). split; [done|]. by apply elem_of_map_to_list.
Qed.

Lemma elem_of_allCells x : x ∈ allCells c ↔ cellOf c x.
Proof.
  unfold allCells. rewrite list_elem_of_In, in_concat. split.
  - intros (l & Hl & Hx). apply list_elem_of_In in Hl. apply list_elem_of_In in Hx.
    apply list_elem_of_fmap in Hl as (nm & -> & _).
    by apply elem_of_cellsOf in Hx as [_ Hx].
  - intros Hx. exists (cellsOf c (name x.1)).
    split; apply list_elem_of_In.
    + apply list_elem_of_fmap. exists (name x.1). split; [done|].
      apply elem_of_Taxa. destruct Hx as [-> _]. done.
    + by apply elem_of_cellsOf.
Qed.

Lemma TSV_rows :
  Collection_TSV c
  = Some (headerFields :: ((λ x, cellRow c x.1 x.2) <$> allCells c)).
Proof.
  unfold Collection_TSV, allCells.
  assert (∀ l, Forall (λ nm, is_Some (taxa c !! nm)) l →
            mapM (λ nm, taxonRows c <$> taxa c !! nm) l
            = Some ((λ nm, (λ x, cellRow c x.1 x.2) <$> cellsOf c nm) <$> l)) as Hmap.
  { induction 1 as [|nm l [tax Htax] _ IH]; [done|].
    cbn [mapM]. rewrite IH, Htax. cbn. f_equal. f_equal.
    unfold cellsOf, taxonRows. rewrite Htax.
    rewrite <- list_fmap_compose. done. }
  rewrite Hmap by (apply Forall_forall; intros nm; apply elem_of_Taxa).
  cbn. do 2 f_equal.
  induction (Collection_Taxa c) as [|nm l IH]; [done|].
  cbn. by rewrite fmap_app, IH.
Qed.

Lemma cells_exist : ∃ x, x ∈ allCells c.
Proof.
  destruct Hwf as (Hne & _ & Hall).
  apply map_choose in Hne as (nm & tax & Htax).
  destruct (Hall _ _ Htax) as [Hnm (_ & _ & _ & _ & _ & Hrng & _)].
  apply map_choose in Hrng as (px & v & Hv).
  exists (tax, px). apply elem_of_allCells. split; simpl; [by rewrite Hnm|by eexists].
Qed.


Lemma rows_not_comments :
  Forall (λ row, isCommentLine row = false)
         ((λ x, cellRow c x.1 x.2) <$> allCells c).
Proof.
  apply Forall_fmap, Forall_forall. intros [tax px] Hx%elem_of_allCells.
  change (isCommentLine [name tax] = false).
  by destruct (cellOf_storable _ Hx) as (_ & _ & Hc & _).
Qed.

(** The state of the reading loop after all the rows that [TSV] writes. *)
Lemma readRows_written :
  ∃ st cF, readRows 6 (headerIndex headerFields)
             {| rs_pix := p; rs_c := None; rs_max := ∅ |}
             (csvReread 4 ((λ x, cellRow c x.1 x.2) <$> allCells c)) = Ok st ∧
           rs_c st = Some cF ∧ decoded c p (allCells c) st.
Proof.
  destruct (readRows_cells (allCells c)
              (csvReread 4 ((λ x, cellRow c x.1 x.2) <$> allCells c)) []
              {| rs_pix := p; rs_c := None; rs_max := ∅ |}) as (st & Hst & Hdec).
  - apply Forall_forall. intros x. apply elem_of_allCells.
  - pose proof (csvReread_rows 4 _ rows_not_comments) as Hrows.
    by apply Forall2_fmap_r in Hrows.
  - apply decoded_init.
  - simpl in Hdec. destruct cells_exist as [x Hx].
    pose proof Hdec as (_ & _ & _ & Hsome & _).
    destruct (Hsome x Hx) as [[cF HcF] _]. by exists st, cF.
Qed.

Lemma decoded_taxa st :
  decoded c p (allCells c) st → taxa (current c st) = decTaxon <$> taxa c.
Proof.
  intros (_ & _ & Hin & Hsome & _). apply map_eq. intros nm.
  rewrite lookup_fmap.
  destruct (taxa (current c st) !! nm) as [t|] eqn:Ht.
  - destruct (Hin nm t Ht) as (tax & Htax & Hnm & Htp & Hage & Hrng).
    rewrite Htax. simpl. f_equal. destruct t as [n t a r]. simpl in *.
    unfold decTaxon. rewrite (stored_name _ _ Htax). f_equal; try done.
    apply map_eq. intros px. rewrite lookup_fmap.
    destruct (r !! px) as [d|] eqn:Hd.
    + apply Hrng in Hd as [Hcell ->]. apply elem_of_allCells in Hcell as [_ [v Hv]].
      simpl in Hv. rewrite Hv. simpl. unfold decCell. by rewrite Hv.
    + destruct (rng tax !! px) as [v|] eqn:Hv; [|done].
      assert ((tax, px) ∈ allCells c) as Hcell.
      { apply elem_of_allCells. split; simpl; [by rewrite (stored_name _ _ Htax)|by eexists]. }
      assert (r !! px = Some (decCell tax px)) as Hr by (by apply Hrng).
      congruence.
  - destruct (taxa c !! nm) as [tax|] eqn:Htax; [|done]. exfalso.
    destruct Hwf as (_ & _ & Hall).
    destruct (Hall _ _ Htax) as [Hnm (_ & _ & _ & _ & _ & Hrng & _)].
    apply map_choose in Hrng as (px & v & Hv).
    assert ((tax, px) ∈ allCells c) as Hcell.
    { apply elem_of_allCells. split; simpl; [by rewrite Hnm|by eexists]. }
    destruct (Hsome _ Hcell) as [_ [t Ht']]. simpl in Ht'. rewrite Hnm in Ht'. congruence.
Qed.

Lemma decCell_le_one tax px :
  cellOf c (tax, px) → tp tax = Range → f64_ltb f64_one (decCell tax px) = false.
Proof.
  intros Hcell Htp. pose proof (cellOf_storable _ Hcell) as Hst. simpl in Hst.
  destruct Hst as (_ & _ & _ & _ & _ & _ & _ & _ & Hr).
  destruct (Hr Htp) as [_ Hall]. destruct Hcell as [_ [v Hv]]. simpl in Hv.
  destruct (Hall _ _ Hv) as (v' & Hparse & _ & Hle & _).
  unfold decCell, decValue. rewrite Hv, decide_True by done. simpl.
  by rewrite Hparse.
Qed.

Lemma decoded_max st nm tax :
  decoded c p (allCells c) st → taxa c !! nm = Some tax → tp tax = Range →
  default f64_zero (rs_max st !! nm) = f64_one.
Proof.
  intros (_ & _ & _ & _ & Hmax) Htax Htp.
  destruct (Hmax nm) as (Hnan & Hatt & Hup).
  pose proof (stored_name _ _ Htax) as Hnm.
  destruct Hwf as (_ & _ & Hall).
  destruct (Hall _ _ Htax) as [_ (_ & _ & _ & _ & _ & _ & _ & _ & Hr)].
  destruct (Hr Htp) as [[px1 Hpx1] Hvals].
  assert (cellOf c (tax, px1)) as Hc1.
  { split; simpl; [by rewrite Hnm|by eexists]. }
  assert (decCell tax px1 = f64_one) as Hone.
  { unfold decCell, decValue. rewrite Hpx1, decide_True by done. simpl.
    destruct (Hvals _ _ Hpx1) as (v' & -> & _ & _ & Hv'). simpl. by apply Hv'. }
  apply f64_is_one; [done| |].
  - rewrite <- Hone. apply (Hup (tax, px1)); [by apply elem_of_allCells|done].
  - destruct Hatt as [->|([tax' px'] & Hx & Hnm' & ->)]; [done|]. simpl in *.
    apply elem_of_allCells in Hx.
    assert (tax' = tax) as ->.
    { destruct Hx as [Hx _]. simpl in Hx. rewrite Hnm' in Hx. congruence. }
    by apply decCell_le_one.
Qed.

Lemma scale_decoded st :
  decoded c p (allCells c) st →
  scaleTaxon (rs_max st) <$> (decTaxon <$> taxa c) = decTaxon <$> taxa c.
Proof.
  intros Hdec. rewrite <- (map_fmap_id (decTaxon <$> taxa c)) at 2.
  apply map_fmap_ext. intros nm t. rewrite lookup_fmap.
  destruct (taxa c !! nm) as [tax|] eqn:Htax; [|done]. intros [= <-].
  unfold scaleTaxon. cbn [tp name decTaxon].
  destruct (decide (tp tax = Points)) as [|Hnp]; [done|].
  destruct Hwf as (_ & _ & Hall).
  destruct (Hall _ _ Htax) as [Hnm (_ & _ & _ & [?|Htp] & _)]; [done|].
  rewrite Hnm, (decoded_max _ _ _ Hdec Htax Htp). done.
Qed.

Lemma Taxa_decoded :
  Collection_Taxa {| pix := pix c; taxa := decTaxon <$> taxa c |} = Collection_Taxa c.
Proof.
  unfold Collection_Taxa. cbn [taxa]. rewrite map_to_list_fmap.
  f_equal. rewrite <- !list_fmap_compose. apply list_fmap_ext.
  by intros i [nm tax] _.
Qed.

Lemma within_1e6_one : within_1e6 f64_one f64_one.
Proof. vm_compute. discriminate. Qed.

End RoundTrip.


Section RoundTripExample.
#[local] Existing Instance refLib.


End RoundTripExample.

(** ** Names and records of a collection *)

#[global] Instance str_le_total : Total str_le.
Proof.
  intros a. unfold str_le. induction a as [|x a IH]; intros [|y b]; simpl; auto.
  destruct (IH b) as [Hab|Hba].
  - repeat case_bool_decide; auto; lia.
  - repeat case_bool_decide; auto; lia.
Qed.

#[global] Instance str_le_trans : Transitive str_le.
Proof.
  intros a. unfold str_le.
  induction a as [|x a IH]; intros [|y b] [|z c]; simpl; auto.
  all: intros Hab Hbc.
  all: repeat case_bool_decide; try done; try lia; subst; eauto.
Qed.

Section KeyFacts.
Context `{GoLib}.

Lemma keyed_New p : keyed (New p).
Proof. intros nm tax Hl. unfold New in Hl. cbn [taxa] in Hl. by rewrite lookup_empty in Hl. Qed.

Lemma keyed_default c nm tax0 :
  keyed c → name tax0 = nm → name (default tax0 (taxa c !! nm)) = nm.
Proof.
  intros Hc H0. destruct (taxa c !! nm) as [tax|] eqn:Htax; simpl; [|done].
  by apply (Hc nm tax).
Qed.

Lemma keyed_insert c x tax :
  keyed c → name tax = canon x → canon x ≠ [] →
  tp tax = Points ∨ tp tax = Range →
  keyed {| pix := pix c; taxa := <[canon x := tax]> (taxa c) |}.
Proof.
  intros Hc Hname Hne Htp nm tax'. cbn [taxa].
  intros [[<- <-]|[_ Hold]]%lookup_insert_Some; [|by apply Hc].
  split; [done|]. split; [done|]. split; [by exists x|done].
Qed.

Lemma default_tp c nm tax0 :
  keyed c → tp tax0 = Points ∨ tp tax0 = Range →
  tp (default tax0 (taxa c !! nm)) = Points ∨ tp (default tax0 (taxa c !! nm)) = Range.
Proof.
  intros Hc H0. destruct (taxa c !! nm) as [tax|] eqn:Htax; simpl; [|done].
  by apply (Hc nm tax).
Qed.

Lemma Add_keyed c nm ag lat lon c' :
  keyed c → Collection_Add c nm ag lat lon = Returns c' → keyed c'.
Proof.
  intros Hc. unfold Collection_Add.
  destruct (decide (canon nm = [])); [by intros [= <-]|].
  pose proof (keyed_default c (canon nm)
    {| name := canon nm; tp := Points; age := 0; rng := ∅ |} Hc eq_refl) as Hname.
  pose proof (default_tp c (canon nm)
    {| name := canon nm; tp := Points; age := 0; rng := ∅ |} Hc (or_introl eq_refl)) as Htp.
  destruct (decide (tp _ ≠ Points)).
  - intros [= <-]. by apply keyed_insert.
  - destruct (PixelID _ _ _); [|done]. intros [= <-]. by apply keyed_insert.
Qed.

Lemma AddPixel_keyed c nm ag px c' :
  keyed c → Collection_AddPixel c nm ag px = Returns c' → keyed c'.
Proof.
  intros Hc. unfold Collection_AddPixel.
  destruct (decide (canon nm = [])); [by intros [= <-]|].
  pose proof (keyed_default c (canon nm)
    {| name := canon nm; tp := Points; age := 0; rng := ∅ |} Hc eq_refl) as Hname.
  pose proof (default_tp c (canon nm)
    {| name := canon nm; tp := Points; age := 0; rng := ∅ |} Hc (or_introl eq_refl)) as Htp.
  destruct (decide (tp _ ≠ Points)); intros [= <-]; by apply keyed_insert.
Qed.

Lemma Set_keyed c nm ag (field : gmap Z float64) c' :
  keyed c → Collection_Set c nm ag field = Returns c' → keyed c'.
Proof.
  intros Hc. unfold Collection_Set.
  destruct (decide (canon nm = [])); [by intros [= <-]|].
  destruct (forallb _ _); [|done]. intros [= <-].
  apply keyed_insert; try done; [|by right].
  by apply keyed_default.
Qed.

Lemma SetPixels_keyed c nm ag (field : gmap Z float64) :
  keyed c → keyed (Collection_SetPixels c nm ag field).
Proof.
  intros Hc. unfold Collection_SetPixels.
  destruct (decide (canon nm = [])); [done|].
  apply keyed_insert; try done; [|by left].
  by apply keyed_default.
Qed.

Lemma Delete_keyed c nm : keyed c → keyed (Collection_Delete c nm).
Proof.
  intros Hc. unfold Collection_Delete.
  destruct (decide (canon nm = [])); [done|].
  intros nm' tax. cbn [taxa]. intros [_ Hold]%lookup_delete_Some. by apply Hc.
Qed.

Lemma parseType_cases s t : parseType s = Some t → t = Points ∨ t = Range.
Proof.
  unfold parseType. repeat case_decide; intros [= <-]; auto.
Qed.

Lemma readRow_keyed fields st ln row st' :
  (∀ c, rs_c st = Some c → keyed c) →
  readRow fields st ln row = Ok st' →
  ∀ c, rs_c st' = Some c → keyed c.
Proof.
  intros Hst Hrow.
  apply readRow_Ok in Hrow as (eq & t & ag & _ & _ & Ht & _ & Hcase).
  cbv zeta in Hcase.
  set (p := default (NewPixelation eq) (rs_pix st)) in *.
  assert (keyed (default (New p) (rs_c st))) as Hc.
  { destruct (rs_c st) as [c0|]; simpl; [by apply Hst|]. apply keyed_New. }
  destruct Hcase as [[_ ->]|[Hnm Hstore]]; [by intros c [= <-]|].
  apply storeRow_Ok in Hstore as (px & d & Htp & _ & _ & _ & _ & ->).
  intros c [= <-]. apply keyed_insert; try done.
  - by apply keyed_default.
  - cbn [tp]. rewrite Htp. by eapply parseType_cases.
Qed.

Lemma readRows_keyed k fields rs st st' :
  (∀ c, rs_c st = Some c → keyed c) →
  readRows k fields st rs = Ok st' →
  ∀ c, rs_c st' = Some c → keyed c.
Proof.
  revert st. induction rs as [|[ln row|ln] rs IH]; intros st Hst; simpl.
  - by intros [= <-].
  - destruct (decide (length row ≠ k)); [done|].
    destruct (readRow fields st ln row) as [st1|] eqn:Hrow; [|done].
    apply IH. by eapply readRow_keyed.
  - done.
Qed.

Lemma scaleTaxon_name mx tax :
  name (scaleTaxon mx tax) = name tax ∧ tp (scaleTaxon mx tax) = tp tax ∧
  age (scaleTaxon mx tax) = age tax ∧ dom (rng (scaleTaxon mx tax)) = dom (rng tax).
Proof.
  unfold scaleTaxon. destruct (decide _); [done|].
  destruct (f64_eqb _ _); [done|]. simpl. by rewrite dom_fmap_L.
Qed.

Lemma ReadTSV_keyed r p c : ReadTSV r p = Ok c → keyed c.
Proof.
  destruct r as [|[l0 head|l0] rows]; [done| |done].
  destruct (ReadTSV_header l0 head rows p) as [Hok|[e ->]]; [|done].
  rewrite ReadTSV_rows by done. unfold stateAfter.
  destruct (readRows _ _ _ rows) as [st|] eqn:Hrows; [|done].
  destruct (rs_c st) as [c0|] eqn:Hc0; [|done]. intros [= <-].
  assert (keyed c0) as Hc.
  { eapply readRows_keyed; [|done..]. by intros c. }
  intros nm tax. cbn [taxa]. rewrite lookup_fmap.
  destruct (taxa c0 !! nm) as [tax0|] eqn:Htax; [|done]. intros [= <-].
  destruct (scaleTaxon_name (rs_max st) tax0) as (-> & -> & _).
  by apply Hc.
Qed.

Lemma reachable_keyed_aux c : reachable anyMutation c → keyed c.
Proof.
  induction 1 as [p|r p c Hread|c m c' _ IH _ Hmut].
  - apply keyed_New.
  - by eapply ReadTSV_keyed.
  - destruct m as [nm ag lat lon|nm ag px|nm ag field|nm ag field|nm];
      simpl in Hmut.
    + by eapply Add_keyed.
    + by eapply AddPixel_keyed.
    + by eapply Set_keyed.
    + injection Hmut as <-. by apply SetPixels_keyed.
    + injection Hmut as <-. by apply Delete_keyed.
Qed.

Lemma keyed_names c :
  keyed c → name <$> (map_to_list (taxa c)).*2 = (map_to_list (taxa c)).*1.
Proof.
  intros Hc. rewrite <- list_fmap_compose. apply list_fmap_ext.
  intros i [nm tax] Hi. simpl. apply Hc.
  apply elem_of_map_to_list. by eapply list_elem_of_lookup_2.
Qed.

Lemma keyed_Taxa c nm :
  keyed c → nm ∈ Collection_Taxa c ↔ is_Some (taxa c !! nm).
Proof.
  intros Hc. unfold Collection_Taxa.
  rewrite merge_sort_Permutation, keyed_names by done.
  rewrite list_elem_of_fmap. split.
  - intros ([nm' tax] & -> & Hin). apply elem_of_map_to_list in Hin. by eexists.
  - intros [tax Htax]. exists (nm, tax). split; [done|].
    by apply elem_of_map_to_list.
Qed.

End KeyFacts.

(** X2. Every collection built by [New] or by a decode, and then by any
    sequence of Add, AddPixel, Set, SetPixels and Delete that return,
    stores each record under the name the record holds; that name is the
    canonical form of some name and is not empty, and the type of the
    record is Points or Range. *)
Theorem reachable_keyed `{GoLib} c : reachable anyMutation c → keyed c.
Proof. apply reachable_keyed_aux. Qed.

(** X3. Taxa() of a collection whose records are stored under their names is
    in ascending order and without repetition, and HasTaxon answers true
    for a name exactly when the canonical form of the name is in
    Taxa(). *)
Theorem Taxa_lists_the_keys `{GoLib} c :
  keyed c →
  StronglySorted str_le (Collection_Taxa c) ∧ NoDup (Collection_Taxa c) ∧
  ∀ x, Collection_HasTaxon c x = true ↔ canon x ∈ Collection_Taxa c.
Proof.
  intros Hc. split; [apply StronglySorted_merge_sort; apply _|]. split.
  - unfold Collection_Taxa. rewrite merge_sort_Permutation, keyed_names by done.
    apply NoDup_fst_map_to_list.
  - intros x. rewrite keyed_Taxa by done. unfold Collection_HasTaxon.
    destruct (decide (canon x = [])) as [Hx|Hx].
    + split; [done|]. intros [tax Htax]. destruct (Hc _ _ Htax) as (_ & Hne & _).
      done.
    + by rewrite bool_decide_eq_true.
Qed.

(** ** The operations of a collection *)

Section Operations.
Context `{GoLib}.

Lemma Fields_blank x : Fields x = [] ↔ blank x.
Proof.
  unfold blank. induction x as [|r s IH]; simpl; [by split; constructor|].
  destruct (IsSpace r) eqn:Hr.
  - rewrite IH. split; [by constructor|]. by inversion 1.
  - split.
    + destruct s as [|r' s']; [done|].
      destruct (IsSpace r'); [done|]. by destruct (Fields (r' :: s')).
    + inversion 1; congruence.
Qed.

Lemma canon_blank x : canon x = [] ↔ blank x.
Proof.
  rewrite <- Fields_blank. split.
  - intros Hc. destruct (canon_shape x) as [_|(r0 & y & z & _ & Hx)].
    + pose proof (Fields_wordsOK x) as Hok. unfold canon in Hc.
      destruct (Fields x) as [|w ws]; [done|]. exfalso.
      inversion Hok as [|? ? [Hne _] _]; subst.
      destruct w as [|r w]; [done|]. rewrite JoinSp_cons_cons in Hc.
      by cbn in Hc.
    + rewrite Hx, JoinSp_cons_cons in Hc. done.
  - intros Hf. unfold canon. by rewrite Hf.
Qed.

Lemma lookup_other (c : Collection) x y tax :
  canon y ≠ canon x →
  sameTaxon c {| pix := pix c; taxa := <[canon x := tax]> (taxa c) |} y.
Proof.
  intros Hne.
  unfold sameTaxon, Collection_HasTaxon, Collection_Type, Collection_Age,
    Collection_Range.
  cbn [taxa]. by rewrite lookup_insert_ne.
Qed.

Lemma sameTaxon_refl c y : sameTaxon c c y.
Proof. done. Qed.

Lemma Add_cases c x ag lat lon :
  canon x ≠ [] →
  let tax := default {| name := canon x; tp := Points; age := 0; rng := ∅ |}
                     (taxa c !! canon x) in
  Collection_Add c x ag lat lon = Panics ∨
  ∃ r, Collection_Add c x ag lat lon
       = Returns {| pix := pix c;
                    taxa := <[canon x := {| name := name tax; tp := tp tax;
                                            age := age tax; rng := r |}]> (taxa c) |}.
Proof.
  intros Hx tax. unfold Collection_Add. rewrite decide_False by done.
  fold tax. destruct (decide (tp tax ≠ Points)).
  - right. exists (rng tax). by destruct tax.
  - destruct (PixelID _ _ _); [|by left]. right. by eexists.
Qed.

Lemma Add_stores_point_aux c x ag lat lon px :
  canon x ≠ [] →
  (Collection_HasTaxon c x = true → Collection_Type c x = Points) →
  PixelID (pix c) lat lon = Some px →
  ∃ c', Collection_Add c x ag lat lon = Returns c' ∧
        Collection_HasTaxon c' x = true ∧
        Collection_Type c' x = Points ∧
        Collection_Range c' x
        = Some (<[px := f64_one]> (default ∅ (Collection_Range c x))) ∧
        onlyChanges c c' x.
Proof.
  intros Hx Htp Hpx. unfold Collection_Add. rewrite decide_False by done.
  unfold Collection_HasTaxon, Collection_Type in Htp.
  rewrite !decide_False in Htp by done.
  assert (tp (default {| name := canon x; tp := Points; age := 0; rng := ∅ |}
                      (taxa c !! canon x)) = Points) as Htax.
  { destruct (taxa c !! canon x) as [tax|]; simpl; [|done].
    apply Htp. by apply bool_decide_eq_true. }
  rewrite decide_False by (by intros []). rewrite Hpx, Htax.
  eexists. split; [done|].
  unfold Collection_HasTaxon, Collection_Type, Collection_Range, onlyChanges.
  rewrite !decide_False by done. cbn [taxa]. rewrite lookup_insert_eq.
  split; [by apply bool_decide_eq_true|]. split; [done|]. split.
  - cbn [rng]. by destruct (taxa c !! canon x).
  - split; [done|]. intros y Hy. by apply lookup_other.
Qed.

End Operations.

(** X4. Delete makes the accessors answer as for a taxon that is not in the
    collection (HasTaxon false, Type empty, Age zero, Range nil) and
    changes nothing else; in a collection whose records are stored under
    their names, Taxa() loses the canonical form of the name and nothing
    else. *)
Theorem Delete_removes `{GoLib} c x :
  keyed c →
  let c' := Collection_Delete c x in
  Collection_HasTaxon c' x = false ∧ Collection_Type c' x = [] ∧
  Collection_Age c' x = 0 ∧ Collection_Range c' x = None ∧
  onlyChanges c c' x ∧
  ∀ nm, nm ∈ Collection_Taxa c' ↔ nm ∈ Collection_Taxa c ∧ nm ≠ canon x.
Proof.
  intros Hc c'.
  assert (keyed c') as Hc' by by apply Delete_keyed.
  subst c'. unfold onlyChanges, sameTaxon.
  unfold Collection_Delete, Collection_HasTaxon, Collection_Type,
    Collection_Age, Collection_Range, Collection_Pixelation.
  unfold Collection_Delete in Hc'.
  destruct (decide (canon x = [])) as [Hx|Hx]; cbv beta iota.
  - repeat (split; [done|]).
    intros nm. split; [|by intros []]. intros Hnm. split; [done|].
    apply keyed_Taxa in Hnm as [tax Htax]; [|done].
    destruct (Hc _ _ Htax) as (_ & Hne & _). congruence.
  - cbn [taxa pix]. rewrite lookup_delete_eq.
    rewrite bool_decide_false by (by intros []).
    repeat (split; [done|]). split.
    + split; [done|]. intros y Hy. by rewrite lookup_delete_ne.
    + intros nm. rewrite !keyed_Taxa by done. cbn [taxa].
      unfold is_Some. setoid_rewrite lookup_delete_Some.
      split; [intros (tax & Hne & Htax)|intros [[tax Htax] Hne]]; eauto.
Qed.


(** X6. Add on a name that is not blank, for a taxon that is absent or of
    type Points, at a coordinate that the pixelation resolves to the
    cell [px]: the call returns, the taxon is present with type Points,
    its cells are the previous ones plus [px] with presence 1.0, and
    nothing else changes. *)
Theorem Add_stores_point `{GoLib} c x ag lat lon px :
  canon x ≠ [] →
  (Collection_HasTaxon c x = true → Collection_Type c x = Points) →
  PixelID (pix c) lat lon = Some px →
  ∃ c', Collection_Add c x ag lat lon = Returns c' ∧
        Collection_HasTaxon c' x = true ∧
        Collection_Type c' x = Points ∧
        Collection_Range c' x
        = Some (<[px := f64_one]> (default ∅ (Collection_Range c x))) ∧
        onlyChanges c c' x.
Proof. apply Add_stores_point_aux. Qed.


(** X8. A second Set for the same taxon replaces the first: it gives what
    it would have given without the first call. *)
Theorem Set_twice `{GoLib} c x y a1 a2 (f1 f2 : gmap Z float64) c1 :
  canon y = canon x →
  Collection_Set c x a1 f1 = Returns c1 →
  Collection_Set c1 y a2 f2 = Collection_Set c x a2 f2.
Proof.
  intros Hy. unfold Collection_Set. rewrite Hy.
  destruct (decide (canon x = [])) as [Hx|Hx]; [by intros [= <-]|].
  destruct (forallb _ (map_to_list f1)); [|done]. intros [= <-].
  cbn [pix taxa]. rewrite lookup_insert_eq. cbn [default from_option id name].
  destruct (forallb _ (map_to_list f2)); [|done].
  by rewrite insert_insert_eq.
Qed.

(** X9. A name made of white space only (the empty name too) is ignored by
    every operation: the accessors answer as for an absent taxon, Add,
    Set and Delete return the collection as it was; Set does so even for
    a field with a cell that is out of bounds. *)
Theorem blank_name_is_ignored `{GoLib} c x :
  blank x →
  Collection_HasTaxon c x = false ∧ Collection_Type c x = [] ∧
  Collection_Age c x = 0 ∧ Collection_Range c x = None ∧
  Collection_Delete c x = c ∧
  (∀ ag lat lon, Collection_Add c x ag lat lon = Returns c) ∧
  (∀ ag field, Collection_Set c x ag field = Returns c).
Proof.
  intros Hx%canon_blank.
  unfold Collection_HasTaxon, Collection_Type, Collection_Age, Collection_Range,
    Collection_Delete, Collection_Add, Collection_Set.
  by destruct (decide (canon x = [])).
Qed.

(** X10. Two names with the same words up to letter case, whatever the white
    space around and between the words, name the same taxon for every
    operation. *)
Theorem same_words_same_taxon `{GoLib} c x y :
  sameWords x y →
  Collection_HasTaxon c x = Collection_HasTaxon c y ∧
  Collection_Type c x = Collection_Type c y ∧
  Collection_Age c x = Collection_Age c y ∧
  Collection_Range c x = Collection_Range c y ∧
  Collection_Delete c x = Collection_Delete c y ∧
  (∀ ag lat lon, Collection_Add c x ag lat lon = Collection_Add c y ag lat lon) ∧
  (∀ ag field, Collection_Set c x ag field = Collection_Set c y ag field).
Proof.
  intros Hxy%sameWords_canon.
  unfold Collection_HasTaxon, Collection_Type, Collection_Age, Collection_Range,
    Collection_Delete, Collection_Add, Collection_Set.
  by rewrite Hxy.
Qed.

Section OperationExamples.
#[local] Existing Instance refLib.

Lemma reachable_keyed_witness : keyed exRange.
Proof.
  apply (reachable_keyed exRange).
  apply (reach_mutate anyMutation (New exPix)
           (MSet (str " aa  BB") 100 (<[5 := f64_half]> {[3 := f64_one]}))
           exRange); [apply reach_New|done|by vm_compute].
Defined.

Lemma exRange_keyed : keyed exRange.
Proof.
  apply reachable_keyed_aux.
  apply (reach_mutate anyMutation (New exPix)
           (MSet (str " aa  BB") 100 (<[5 := f64_half]> {[3 := f64_one]}))
           exRange); [apply reach_New|done|by vm_compute].
Qed.

Lemma Taxa_lists_the_keys_witness :
  StronglySorted str_le (Collection_Taxa exRange) ∧ NoDup (Collection_Taxa exRange) ∧
  ∀ x, Collection_HasTaxon exRange x = true ↔ canon x ∈ Collection_Taxa exRange.
Proof. apply (Taxa_lists_the_keys exRange). apply exRange_keyed. Defined.

Lemma Delete_removes_witness :
  Collection_HasTaxon (Collection_Delete exRange (str "aa bb")) (str "aa bb") = false ∧
  ∀ nm, nm ∈ Collection_Taxa (Collection_Delete exRange (str "aa bb"))
        ↔ nm ∈ Collection_Taxa exRange ∧ nm ≠ canon (str "aa bb").
Proof.
  destruct (Delete_removes exRange (str "aa bb") exRange_keyed)
    as (Hhas & _ & _ & _ & _ & Htaxa).
  split; [exact Hhas|exact Htaxa].
Defined.


Lemma Add_stores_point_witness :
  ∃ c', Collection_Add exRange (str "cc") 7 f64_zero f64_zero = Returns c' ∧
        Collection_HasTaxon c' (str "cc") = true ∧
        Collection_Type c' (str "cc") = Points ∧
        Collection_Range c' (str "cc")
        = Some (<[0 := f64_one]> (default ∅ (Collection_Range exRange (str "cc")))) ∧
        onlyChanges exRange c' (str "cc").
Proof.
  apply (Add_stores_point exRange (str "cc") 7 f64_zero f64_zero 0);
    by vm_compute.
Defined.


Lemma Set_twice_witness :
  Collection_Set
    {| pix := exPix;
       taxa := {[str "Aa" := {| name := str "Aa"; tp := Range; age := 1;
                                rng := {[1 := f64_one]} |}]} |}
    (str " AA ") 2 {[2 := f64_half]}
  = Collection_Set exEmpty (str "aa") 2 {[2 := f64_half]}.
Proof.
  apply (Set_twice exEmpty (str "aa") (str " AA ") 1 2 {[1 := f64_one]});
    by vm_compute.
Defined.

Lemma blank_name_is_ignored_witness :
  blank (str "  ") ∧
  ∀ ag field, Collection_Set exEmpty (str "  ") ag field = Returns exEmpty.
Proof.
  assert (blank (str "  ")) as Hb by (by repeat constructor).
  split; [exact Hb|]. apply (blank_name_is_ignored exEmpty (str "  ") Hb).
Defined.

Lemma same_words_same_taxon_witness :
  Collection_Range exRange (str " aa   BB") = Collection_Range exRange (str "Aa bb").
Proof.
  apply (same_words_same_taxon exRange (str " aa   BB") (str "Aa bb")).
  by repeat constructor.
Defined.

End OperationExamples.

(** ** The header and the rows of a decode *)

Section HeaderFacts.
Context `{GoLib}.

Lemma headerIndex_snoc head h :
  headerIndex (head ++ [h]) = <[ToLower h := length head]> (headerIndex head).
Proof.
  unfold headerIndex. rewrite imap_app, foldl_app. cbn [imap foldl].
  by rewrite Nat.add_0_r.
Qed.

Lemma headerIndex_None head h :
  headerIndex head !! h = None ↔ h ∉ ToLower <$> head.
Proof.
  induction head as [|x head IH] using rev_ind.
  - split; [intros _ ?%elem_of_nil; done|done].
  - rewrite headerIndex_snoc, fmap_app, lookup_insert_None, IH.
    rewrite not_elem_of_app. cbn [fmap list_fmap].
    rewrite not_elem_of_cons. split.
    + intros [Hh Hx]. split; [done|]. split; [done|]. apply not_elem_of_nil.
    + intros [Hh [Hx _]]. done.
Qed.

Lemma headerIndex_Some head h i :
  headerIndex head !! h = Some i ↔
  (ToLower <$> head) !! i = Some h ∧
  ∀ j, (i < j)%nat → (ToLower <$> head) !! j ≠ Some h.
Proof.
  revert i. induction head as [|x head IH] using rev_ind; intros i.
  - split; [done|]. by intros [? _].
  - rewrite headerIndex_snoc, fmap_app, lookup_insert_Some, IH.
    cbn [fmap list_fmap].
    assert (length (ToLower <$> head) = length head) as Hlen
      by apply length_fmap.
    split.
    + intros [[<- <-]|[Hne [Hi Hlater]]].
      * split; [by rewrite lookup_app_r, Hlen, Nat.sub_diag by lia|].
        intros j Hj. rewrite lookup_ge_None_2; [done|].
        rewrite length_app, Hlen. simpl. lia.
      * pose proof (lookup_lt_Some _ _ _ Hi) as Hlt.
        split; [by rewrite lookup_app_l|].
        intros j Hj. destruct (decide (j < length head)%nat) as [Hjl|Hjl].
        -- rewrite lookup_app_l by lia. by apply Hlater.
        -- rewrite lookup_app_r by lia. rewrite Hlen.
           destruct (j - length head)%nat as [|k] eqn:Hk; simpl; [congruence|done].
    + intros [Hi Hlater].
      destruct (decide (i < length head)%nat) as [Hil|Hil].
      * right. rewrite lookup_app_l in Hi by lia.
        assert (ToLower x ≠ h) as Hne.
        { intros <-. apply (Hlater (length head) Hil).
          by rewrite lookup_app_r, Hlen, Nat.sub_diag by lia. }
        split; [done|]. split; [done|].
        intros j Hj Hjh. apply (Hlater j Hj).
        pose proof (lookup_lt_Some _ _ _ Hjh). by rewrite lookup_app_l by lia.
      * left. rewrite lookup_app_r in Hi by lia. rewrite Hlen in Hi.
        destruct (i - length head)%nat as [|k] eqn:Hk; simpl in Hi; [|done].
        split; [congruence|lia].
Qed.

Lemma find_first {A} (f : A → bool) pre x post :
  (∀ y, y ∈ pre → f y = false) → f x = true →
  List.find f (pre ++ x :: post) = Some x.
Proof.
  induction pre as [|y pre IH]; intros Hpre Hx; simpl; [by rewrite Hx|].
  rewrite (Hpre y) by left. apply IH; [|done]. intros z Hz. apply Hpre. by right.
Qed.

End HeaderFacts.

(** X11. The column that the decoder reads for a field name is the last
    column of the header whose lower-cased name is that field name: the
    match is blind to letter case, and a repeated name hides the earlier
    columns of that name. *)
Theorem header_last_column_wins `{GoLib} head h i :
  headerIndex head !! h = Some i ↔
  (ToLower <$> head) !! i = Some h ∧
  ∀ j, (i < j)%nat → (ToLower <$> head) !! j ≠ Some h.
Proof. apply headerIndex_Some. Qed.

(** X12. A header that lacks one of the six columns makes the decode fail,
    whatever the rows, with the error that names the first of the
    missing columns in the order taxon, type, age, equator, pixel,
    density. *)
Theorem header_missing_field `{GoLib} ln head rows p pre h post :
  headerFields = pre ++ h :: post →
  (∀ h', h' ∈ pre → h' ∈ ToLower <$> head) →
  h ∉ ToLower <$> head →
  ReadTSV (CsvRecord ln head :: rows) p = Err (ErrExpecting h).
Proof.
  intros Hfields Hpre Hh. unfold ReadTSV. rewrite Hfields.
  rewrite (find_first _ pre h post); [done| |].
  - intros h' Hh'. apply bool_decide_eq_false. rewrite headerIndex_None.
    intros Hno. by apply Hno, Hpre.
  - apply bool_decide_eq_true. by apply headerIndex_None.
Qed.

Section PixelationFacts.
Context `{GoLib}.

Lemma pixInv_init p : pixInv {| rs_pix := p; rs_c := None; rs_max := ∅ |}.
Proof. by intros c. Qed.

(** After a row, the pixelation is the one given or, if none was, the
    one built from the equator of the row. *)
Lemma readRow_pix fields st ln row st' :
  pixInv st → readRow fields st ln row = Ok st' →
  pixInv st' ∧
  ∃ c' eq, rs_c st' = Some c' ∧
           Atoi (rowField fields row (str "equator")) = Some eq ∧
           Equator (pix c') = eq ∧
           pix c' = default (NewPixelation eq) (rs_pix st).
Proof.
  intros Hst Hrow.
  apply readRow_Ok in Hrow as (eq & t & ag & Heq & Hp & _ & _ & Hcase).
  cbv zeta in Hcase, Hp.
  set (p := default (NewPixelation eq) (rs_pix st)) in *.
  assert (pix (default (New p) (rs_c st)) = p ∧
          ∀ nm tax px v, taxa (default (New p) (rs_c st)) !! nm = Some tax →
                         rng tax !! px = Some v → px < Len p) as [Hpix Hin].
  { destruct (rs_c st) as [c0|] eqn:Hc0; simpl.
    - destruct (Hst c0 Hc0) as [Hp0 Hin0]. subst p. rewrite Hp0. simpl.
      split; [done|]. apply Hin0.
    - split; [done|]. intros nm tax px v Hl. by rewrite lookup_empty in Hl. }
  destruct Hcase as [[_ ->]|[Hnm Hstore]].
  - split.
    + intros c [= <-]. cbn [rs_pix]. rewrite Hpix. split; [done|]. apply Hin.
    + exists (default (New p) (rs_c st)), eq. rewrite Hpix. done.
  - apply storeRow_Ok in Hstore as (px & d & _ & _ & _ & Hlt & _ & ->).
    split.
    + intros c [= <-]. cbn [rs_pix pix taxa]. rewrite Hpix. split; [done|].
      intros nm tax px' v [[_ <-]|[_ Hold]]%lookup_insert_Some; [|by eapply Hin].
      cbn [rng]. intros [[<- _]|[_ Hv]]%lookup_insert_Some; [done|].
      destruct (taxa (default (New p) (rs_c st)) !! _) as [tax0|] eqn:Htax0;
        simpl in Hv; [by eapply Hin|by rewrite lookup_empty in Hv].
    + eexists _, eq. split; [done|]. cbn [pix]. rewrite Hpix. done.
Qed.

Lemma readRows_pixInv k fields rs st st' :
  pixInv st → readRows k fields st rs = Ok st' →
  pixInv st' ∧ (∀ q, rs_pix st = Some q → rs_pix st' = Some q).
Proof.
  revert st. induction rs as [|[ln row|ln] rs IH]; intros st Hst; simpl.
  - by intros [= <-].
  - destruct (decide (length row ≠ k)); [done|].
    destruct (readRow fields st ln row) as [st1|] eqn:Hrow; [|done].
    intros Hrest.
    destruct (readRow_pix _ _ _ _ _ Hst Hrow)
      as (Hst1 & c1 & eq & Hc1 & _ & _ & Hp1).
    destruct (IH st1 Hst1 Hrest) as [Hst' Hkeep]. split; [done|].
    intros q Hq. apply Hkeep. destruct (Hst1 c1 Hc1) as [-> _].
    by rewrite Hp1, Hq.
  - done.
Qed.

Lemma readRows_equator k fields rs st st' c :
  pixInv st → readRows k fields st rs = Ok st' → rs_c st' = Some c →
  Forall (rowEquator k fields (Equator (pix c))) rs ∧
  (rs ≠ [] → pix c = default (NewPixelation (Equator (pix c))) (rs_pix st)).
Proof.
  revert st. induction rs as [|[ln row|ln] rs IH]; intros st Hst; simpl.
  - by intros [= <-].
  - destruct (decide (length row ≠ k)) as [|Hlen]; [done|].
    apply dec_stable in Hlen.
    destruct (readRow fields st ln row) as [st1|] eqn:Hrow; [|done].
    intros Hrest Hc.
    destruct (readRow_pix _ _ _ _ _ Hst Hrow)
      as (Hst1 & c1 & eq & Hc1 & Heq & Hp1e & Hp1).
    destruct (readRows_pixInv _ _ _ _ _ Hst1 Hrest) as [Hst' Hkeep].
    destruct (Hst1 c1 Hc1) as [Hpix1 _].
    destruct (Hst' c Hc) as [Hpix' _].
    rewrite (Hkeep _ Hpix1) in Hpix'. injection Hpix' as Hcc.
    destruct (IH st1 Hst1 Hrest Hc) as [Hall _].
    split.
    + constructor; [|done]. exists ln, row. rewrite <- Hcc, Hp1e. done.
    + intros _. rewrite <- Hcc, Hp1e. done.
  - done.
Qed.

End PixelationFacts.

(** X13. A decode that succeeds used one pixelation throughout: the one
    given to it or, without one, the pixelation made from the equator
    field; every row that the reader returned has the number of fields
    of the header and gives that same equator, and the collection holds
    that pixelation. *)
Theorem decode_equator `{GoLib} ln head rows p c :
  ReadTSV (CsvRecord ln head :: rows) p = Ok c →
  Collection_Pixelation c = default (NewPixelation (Equator (pix c))) p ∧
  Forall (rowEquator (length head) (headerIndex head) (Equator (pix c))) rows.
Proof.
  destruct (ReadTSV_header ln head rows p) as [Hok|[e ->]]; [|done].
  rewrite ReadTSV_rows by done. unfold stateAfter.
  destruct (readRows _ _ _ rows) as [st|] eqn:Hrows; [|done].
  destruct (rs_c st) as [c0|] eqn:Hc0; [|done]. intros [= <-].
  unfold Collection_Pixelation. cbn [pix].
  destruct (readRows_equator _ _ _ _ _ _ (pixInv_init p) Hrows Hc0) as [Hall Hpix].
  split; [|done]. apply Hpix. intros ->. simpl in Hrows.
  injection Hrows as <-. done.
Qed.

(** X14. A decode that succeeds never returns a cell at or past the length
    of the pixelation of the collection. *)
Theorem decode_in_bounds `{GoLib} r p c x cells px v :
  ReadTSV r p = Ok c →
  Collection_Range c x = Some cells → cells !! px = Some v →
  px < Len (Collection_Pixelation c).
Proof.
  destruct r as [|[l0 head|l0] rows]; [done| |done].
  destruct (ReadTSV_header l0 head rows p) as [Hok|[e ->]]; [|done].
  rewrite ReadTSV_rows by done. unfold stateAfter.
  destruct (readRows _ _ _ rows) as [st|] eqn:Hrows; [|done].
  destruct (rs_c st) as [c0|] eqn:Hc0; [|done]. intros [= <-].
  destruct (readRows_pixInv _ _ _ _ _ (pixInv_init p) Hrows) as [Hst _].
  destruct (Hst c0 Hc0) as [_ Hin].
  unfold Collection_Range, Collection_Pixelation. cbn [pix taxa].
  destruct (decide (canon x = [])); [done|]. rewrite lookup_fmap.
  destruct (taxa c0 !! canon x) as [tax|] eqn:Htax; [|done]. simpl.
  intros [= <-] Hv.
  destruct (scaleTaxon_name (rs_max st) tax) as (_ & _ & _ & Hdom).
  assert (is_Some (rng tax !! px)) as [v0 Hv0].
  { apply elem_of_dom. rewrite <- Hdom. apply elem_of_dom. by eexists. }
  by eapply Hin.
Qed.

Section RowFacts.
Context `{GoLib}.

Lemma readRow_samePoint fields st ln row row' :
  samePoint fields row row' →
  readRow fields st ln row' = readRow fields st ln row.
Proof.
  intros (_ & Hsame & Ht & Ht').
  assert (rowField fields row' (str "taxon") = rowField fields row (str "taxon")) as Htaxon
    by (apply Hsame; repeat constructor).
  assert (rowField fields row' (str "age") = rowField fields row (str "age")) as Hage
    by (apply Hsame; repeat constructor).
  assert (rowField fields row' (str "equator") = rowField fields row (str "equator")) as Heq
    by (apply Hsame; repeat constructor).
  assert (rowField fields row' (str "pixel") = rowField fields row (str "pixel")) as Hpx
    by (apply Hsame; repeat constructor).
  unfold readRow. rewrite Heq, Ht, Ht', Hage, Htaxon.
  destruct (Atoi _) as [eq|]; [|done].
  destruct (decide (Equator _ ≠ eq)); [done|].
  destruct (ParseInt _) as [ag|]; [|done].
  destruct (decide (canon _ = [])); [done|].
  unfold storeRow. rewrite Hpx.
  destruct (decide (tp _ ≠ Points)) as [|Htp]; [done|].
  apply dec_stable in Htp.
  destruct (decide (age _ ≠ ag)); [done|].
  destruct (Atoi _) as [px|]; [|done].
  destruct (decide (Len _ ≤ px)); [done|].
  rewrite !decide_False; [done| |];
    rewrite Htp; intros Heq'; by destruct Range_ne_Points.
Qed.

Lemma taxonRows_empty c tax : rng tax = ∅ → taxonRows c tax = [].
Proof. intros Hr. unfold taxonRows. by rewrite Hr, map_to_list_empty. Qed.

End RowFacts.

(** X15. In a row of type points the density is not read, and an empty type
    field stands for points: replacing a row that parses as points by
    another one with the same taxon, age, equator and pixel fields, a
    type field that also parses as points, and any density, changes
    nothing in what the decode returns. *)
Theorem points_row_ignores_density `{GoLib} l0 head pre ln row row' post p :
  samePoint (headerIndex head) row row' →
  ReadTSV (CsvRecord l0 head :: pre ++ CsvRecord ln row' :: post) p
  = ReadTSV (CsvRecord l0 head :: pre ++ CsvRecord ln row :: post) p.
Proof.
  intros Hsame. unfold ReadTSV.
  destruct (List.find _ headerFields); [done|].
  rewrite !readRows_app.
  destruct (readRows _ _ _ pre) as [st|]; [|done]. cbn [readRows].
  destruct Hsame as [Hlen Hrest]. rewrite Hlen.
  by rewrite (readRow_samePoint _ st ln row row').
Qed.

(** X16. A taxon without cells is not written: a collection none of whose
    records has a cell is encoded as the header alone, and decoding
    that fails with the error of a stream without data. *)
Theorem empty_ranges_are_lost `{GoLib} c p :
  keyed c → noCells c →
  Collection_TSV c = Some [headerFields] ∧
  ReadTSV (csvReread 3 [headerFields]) p = Err ErrNoData.
Proof.
  intros Hc Hno. split.
  - unfold Collection_TSV.
    assert (∀ l, Forall (λ nm, is_Some (taxa c !! nm)) l →
              mapM (λ nm, taxonRows c <$> taxa c !! nm) l
              = Some (replicate (length l) [])) as Hmap.
    { induction 1 as [|nm l [tax Htax] _ IH]; [done|].
      cbn [mapM]. rewrite IH, Htax. cbn.
      by rewrite (taxonRows_empty c tax (Hno _ _ Htax)). }
    rewrite Hmap by (apply Forall_forall; intros nm; by apply keyed_Taxa).
    cbn. do 2 f_equal.
    induction (length (Collection_Taxa c)) as [|n IH]; [done|]. exact IH.
  - change (csvReread 3 [headerFields]) with [CsvRecord 3 headerFields].
    rewrite ReadTSV_rows by apply headerOK_headerFields. done.
Qed.

Section DecodeExtraExamples.
#[local] Existing Instance refLib.

Lemma header_missing_field_witness :
  ReadTSV [CsvRecord 1 [str "TAXON"; str "age"; str "Type"; str "pixel"; str "density"];
           CsvRecord 2 [str "A"; str "0"; str "points"; str "1"; str "1.0"]] None
  = Err (ErrExpecting (str "equator")).
Proof.
  apply (header_missing_field 1
           [str "TAXON"; str "age"; str "Type"; str "pixel"; str "density"] _ None
           [str "taxon"; str "type"; str "age"] (str "equator")
           [str "pixel"; str "density"]).
  - reflexivity.
  - apply Forall_forall. apply (bool_decide_unpack _). by vm_compute.
  - apply (bool_decide_unpack _). by vm_compute.
Defined.

Lemma decode_equator_witness :
  let c := {| pix := exPix;
              taxa := {[str "A" := {| name := str "A"; tp := Points; age := 0;
                                      rng := {[1 := f64_one]} |}]} |} in
  Collection_Pixelation c = default (NewPixelation (Equator (pix c))) None ∧
  Forall (rowEquator (length headerFields) (headerIndex headerFields)
            (Equator (pix c)))
         [CsvRecord 4 (exRow "A" "points" "0" "360" "1" "1.0")].
Proof.
  intros c.
  apply (decode_equator 3 headerFields
           [CsvRecord 4 (exRow "A" "points" "0" "360" "1" "1.0")] None c).
  by vm_compute.
Defined.

Lemma decode_in_bounds_witness : 1 < Len (Collection_Pixelation
  {| pix := exPix;
     taxa := {[str "A" := {| name := str "A"; tp := Points; age := 0;
                             rng := {[1 := f64_one]} |}]} |}).
Proof.
  apply (decode_in_bounds
           [CsvRecord 3 headerFields;
            CsvRecord 4 (exRow "A" "points" "0" "360" "1" "1.0")] None _
           (str "a") {[1 := f64_one]} 1 f64_one); by vm_compute.
Defined.

Lemma points_row_ignores_density_witness :
  ReadTSV (CsvRecord 3 headerFields
           :: [] ++ CsvRecord 4 (exRow "A" "" "0" "360" "1" "none") :: []) None
  = ReadTSV (CsvRecord 3 headerFields
             :: [] ++ CsvRecord 4 (exRow "A" "Points" "0" "360" "1" "1.0") :: []) None.
Proof.
  apply (points_row_ignores_density 3 headerFields [] 4
           (exRow "A" "Points" "0" "360" "1" "1.0")
           (exRow "A" "" "0" "360" "1" "none") [] None).
  split; [done|]. split; [|split; by vm_compute].
  intros f Hf.
  repeat (apply elem_of_cons in Hf as [->|Hf]; [by vm_compute|]).
  by apply elem_of_nil in Hf.
Defined.

Lemma empty_ranges_are_lost_witness :
  let c := {| pix := exPix;
              taxa := {[str "A" := {| name := str "A"; tp := Range; age := 0;
                                      rng := ∅ |}]} |} in
  Collection_Set exEmpty (str "a") 0 ∅ = Returns c ∧
  Collection_TSV c = Some [headerFields] ∧
  ReadTSV (csvReread 3 [headerFields]) None = Err ErrNoData.
Proof.
  intros c. split; [by vm_compute|].
  apply (empty_ranges_are_lost c None).
  - apply reachable_keyed_aux.
    apply (reach_mutate anyMutation (New exPix) (MSet (str "a") 0 ∅) c);
      [apply reach_New|done|by vm_compute].
  - intros nm tax Htax. unfold c in Htax. cbn [taxa] in Htax.
    by apply lookup_singleton_Some in Htax as [_ <-].
Defined.

End DecodeExtraExamples.

(** ** The densities of a decoded range map *)

Lemma f64_eqb_finite x mx ex :
  f64_eqb x (S754_finite false mx ex) = true → x = S754_finite false mx ex.
Proof.
  unfold f64_eqb, SFeqb.
  destruct x as [[]|[]| |[] m e]; simpl; try done.
  change (Pos.compare_cont Eq m mx) with (Pos.compare m mx).
  destruct (Z.compare_spec e ex); try done.
  destruct (Pos.compare_spec m mx); try done.
  intros _. by subst.
Qed.

Lemma f64_ltb_trans a b d :
  f64_ltb a b = true → f64_ltb b d = true → f64_ltb a d = true.
Proof.
  intros Hab Hbd. destruct (f64_ltb a d) eqn:Had; [done|].
  by rewrite (f64_ltb_raise a b d Had Hab) in Hbd.
Qed.

(** Division by the zero value, by a positive number or by +Inf, of a
    number that is not above the divisor, is never above one. *)
Lemma f64_scaled_le_one v m :
  f64_valid v →
  m = f64_zero ∨ (f64_ltb f64_zero m = true ∧ f64_valid m) →
  f64_ltb m v = false →
  f64_ltb f64_one (f64_div v m) = false.
Proof.
  intros Hv [->|[Hpos Hm]] Hle.
  - destruct v as [[]|[]| |[] mv ev]; try done.
  - destruct m as [[]|[]| |[] mm em]; try done.
    + destruct v as [[]|[]| |[] mv ev]; try done.
    + by apply f64_div_le_one.
Qed.

Section MaxFacts.
Context `{GoLib}.

Lemma maxInv_init p : maxInv {| rs_pix := p; rs_c := None; rs_max := ∅ |}.
Proof.
  split; [|done]. intros nm. cbn [rs_max]. rewrite lookup_empty. by left.
Qed.

Lemma readRow_maxInv fields st ln row st' :
  maxInv st → validDensity fields (CsvRecord ln row) →
  readRow fields st ln row = Ok st' → maxInv st'.
Proof.
  intros [Hmax Hst] Hvalid Hrow.
  assert (∀ c, rs_c st' = Some c → keyed c) as Hkeyed.
  { eapply readRow_keyed; [|done]. intros c Hc. by apply Hst. }
  apply readRow_Ok in Hrow as (eq & t & ag & _ & _ & _ & _ & Hcase).
  cbv zeta in Hcase.
  set (p := default (NewPixelation eq) (rs_pix st)) in *.
  set (c0 := default (New p) (rs_c st)) in *.
  assert (keyed c0 ∧
          ∀ nm tax px v, taxa c0 !! nm = Some tax → rng tax !! px = Some v →
            f64_valid v ∧ f64_ltb (default f64_zero (rs_max st !! nm)) v = false)
    as [Hc0 Hcells].
  { subst c0. destruct (rs_c st) as [c1|] eqn:Hc1; simpl; [by apply Hst|].
    split; [apply keyed_New|]. intros nm tax px v Hl. by rewrite lookup_empty in Hl. }
  destruct Hcase as [[_ ->]|[Hnm Hstore]].
  { split; [done|]. by intros c [= <-]. }
  apply storeRow_Ok in Hstore as (px & d & _ & _ & _ & _ & Hd & ->).
  set (nm := canon (rowField fields row (str "taxon"))) in *.
  set (tax := default {| name := nm; tp := t; age := ag; rng := ∅ |}
                      (taxa c0 !! nm)) in *.
  assert (name tax = nm) as Hname by (by apply keyed_default).
  rewrite Hname in Hkeyed |- *.
  assert (f64_valid d) as Hdv.
  { destruct (decide (tp tax = Range)); [by eapply Hvalid|].
    injection Hd as <-. by vm_compute. }
  set (m := default f64_zero (rs_max st !! nm)) in *.
  assert (∀ nm',
    default f64_zero ((if f64_ltb m d then <[nm := d]> (rs_max st) else rs_max st) !! nm')
    = if decide (nm' = nm) then (if f64_ltb m d then d else m)
      else default f64_zero (rs_max st !! nm')) as Hnew.
  { intros nm'. destruct (decide (nm' = nm)) as [->|Hne].
    - destruct (f64_ltb m d); [by rewrite lookup_insert_eq|done].
    - destruct (f64_ltb m d); [by rewrite lookup_insert_ne|done]. }
  split.
  - intros nm'. cbn [rs_max]. rewrite Hnew.
    destruct (decide (nm' = nm)) as [->|Hne]; [|apply Hmax].
    destruct (f64_ltb m d) eqn:Hmd; [|apply Hmax]. right. split; [|done].
    pose proof (Hmax nm) as Hm. cbv zeta in Hm. fold m in Hm.
    destruct Hm as [Hz|[Hpos _]].
    + by rewrite <- Hz.
    + by eapply f64_ltb_trans.
  - intros c Hc. split; [by apply Hkeyed|]. injection Hc as <-.
    cbn [taxa rs_max]. intros nm' tax' px' v. rewrite Hnew.
    intros [[<- <-]|[Hne Hold]]%lookup_insert_Some.
    + rewrite decide_True by done. cbn [rng].
      intros [[_ <-]|[_ Hv]]%lookup_insert_Some.
      * split; [done|]. destruct (f64_ltb m d) eqn:Hmd; [apply f64_ltb_irrefl|done].
      * assert (f64_valid v ∧ f64_ltb m v = false) as [Hvv Hmv].
        { subst tax. destruct (taxa c0 !! nm) as [tax0|] eqn:Htax0; simpl in Hv.
          - by eapply Hcells.
          - by rewrite lookup_empty in Hv. }
        split; [done|]. destruct (f64_ltb m d) eqn:Hmd; [|done].
        by eapply f64_ltb_raise.
    + rewrite decide_False by done. by apply Hcells.
Qed.

Lemma readRows_maxInv k fields rs st st' :
  maxInv st → Forall (validDensity fields) rs →
  readRows k fields st rs = Ok st' → maxInv st'.
Proof.
  intros Hst Hvalid. revert st Hst.
  induction Hvalid as [|[ln row|ln] rs Hr _ IH]; intros st Hst; simpl.
  - by intros [= <-].
  - destruct (decide (length row ≠ k)); [done|].
    destruct (readRow fields st ln row) as [st1|] eqn:Hrow; [|done].
    apply IH. by eapply readRow_maxInv.
  - done.
Qed.

End MaxFacts.

(** X17. When the densities that the decoder parses are binary64 numbers in
    canonical form, a decode that succeeds never returns a range map
    (a taxon of type Range) with a density above 1.0. *)
Theorem decode_never_above_one `{GoLib} l0 head rows p c x cells px v :
  Forall (validDensity (headerIndex head)) rows →
  ReadTSV (CsvRecord l0 head :: rows) p = Ok c →
  Collection_Type c x = Range →
  Collection_Range c x = Some cells → cells !! px = Some v →
  f64_ltb f64_one v = false.
Proof.
  intros Hvalid.
  destruct (ReadTSV_header l0 head rows p) as [Hok|[e ->]]; [|done].
  rewrite ReadTSV_rows by done. unfold stateAfter.
  destruct (readRows _ _ _ rows) as [st|] eqn:Hrows; [|done].
  destruct (rs_c st) as [c0|] eqn:Hc0; [|done]. intros [= <-].
  destruct (readRows_maxInv _ _ _ _ _ (maxInv_init p) Hvalid Hrows) as [Hmax Hst].
  destruct (Hst c0 Hc0) as [Hkeyed Hcells].
  unfold Collection_Type, Collection_Range. cbn [taxa].
  destruct (decide (canon x = [])); [done|]. rewrite lookup_fmap.
  destruct (taxa c0 !! canon x) as [tax|] eqn:Htax; [|done]. simpl.
  destruct (scaleTaxon_name (rs_max st) tax) as (_ & -> & _).
  intros Htp [= <-].
  destruct (Hkeyed _ _ Htax) as (Hname & _).
  unfold scaleTaxon. rewrite decide_False
    by (rewrite Htp; intros Heq; by destruct Range_ne_Points).
  rewrite Hname. cbv zeta.
  destruct (f64_eqb _ f64_one) eqn:Hone.
  - intros Hv. destruct (Hcells _ _ _ _ Htax Hv) as [_ Hle].
    apply f64_eqb_finite in Hone. by rewrite Hone in Hle.
  - cbn [rng]. rewrite lookup_fmap.
    destruct (rng tax !! px) as [v0|] eqn:Hv0; [|done]. simpl. intros [= <-].
    destruct (Hcells _ _ _ _ Htax Hv0) as [Hvv Hle].
    apply f64_scaled_le_one; [done|apply Hmax|done].
Qed.

Section MaxExamples.
#[local] Existing Instance refLib.

Lemma decode_never_above_one_witness :
  let c := {| pix := exPix;
              taxa := {[str "A" := {| name := str "A"; tp := Range; age := 0;
                                      rng := <[1 := f64_half]> {[2 := f64_one]} |}]} |} in
  ReadTSV [CsvRecord 3 headerFields;
           CsvRecord 4 (exRow "A" "range" "0" "360" "1" "1.0");
           CsvRecord 5 (exRow "A" "range" "0" "360" "2" "2.0")] None = Ok c ∧
  f64_ltb f64_one f64_half = false.
Proof.
  intros c.
  assert (ReadTSV [CsvRecord 3 headerFields;
           CsvRecord 4 (exRow "A" "range" "0" "360" "1" "1.0");
           CsvRecord 5 (exRow "A" "range" "0" "360" "2" "2.0")] None = Ok c) as Hread
    by by vm_compute.
  split; [exact Hread|].
  apply (decode_never_above_one 3 headerFields
           [CsvRecord 4 (exRow "A" "range" "0" "360" "1" "1.0");
            CsvRecord 5 (exRow "A" "range" "0" "360" "2" "2.0")] None c
           (str "a") (<[1 := f64_half]> {[2 := f64_one]}) 1 f64_half).
  - repeat constructor; intros ln row v [= <- <-] Hv; vm_compute in Hv;
      injection Hv as <-; by vm_compute.
  - exact Hread.
  - by vm_compute.
  - by vm_compute.
  - by vm_compute.
Defined.

End MaxExamples.

(** ** The callers of Add in the commands *)

Section CommandFacts.
Context `{GoLib}.

Lemma copiedFrom_mono pre c coll : copiedFrom pre coll → copiedFrom (pre ++ [c]) coll.
Proof.
  intros Hc y. destruct (Hc y) as [Hage Hhas]. split; [done|].
  intros Hy. destruct (Hhas Hy) as (Htp & c0 & Hc0 & Htp0). split; [done|].
  exists c0. split; [|done]. apply elem_of_app. by left.
Qed.

Lemma copiedFrom_New p : copiedFrom [] (New p).
Proof.
  intros y. unfold Collection_Age, Collection_HasTaxon, New. cbn [taxa].
  rewrite lookup_empty. destruct (decide (canon y = [])); [done|].
  split; [done|]. intros Hy. apply bool_decide_eq_true in Hy. by destruct Hy.
Qed.

Lemma Add_copied cs coll c nm ag lat lon coll' :
  copiedFrom cs coll → c ∈ cs → Collection_Type c nm = Points →
  Collection_Add coll nm ag lat lon = Returns coll' → copiedFrom cs coll'.
Proof.
  intros Hcoll Hc Htp Hadd. destruct (decide (canon nm = [])) as [Hnm|Hnm].
  { unfold Collection_Add in Hadd. rewrite decide_True in Hadd by done.
    by injection Hadd as <-. }
  destruct (Add_cases coll nm ag lat lon Hnm) as [Hp|[r Hr]]; [congruence|].
  rewrite Hr in Hadd. injection Hadd as <-. intros y.
  destruct (decide (canon y = canon nm)) as [Hy|Hy].
  - assert (Collection_Type c y = Points) as Hcy.
    { unfold Collection_Type in *. by rewrite Hy. }
    destruct (Hcoll y) as [Hage Hhas].
    unfold Collection_Age, Collection_HasTaxon, Collection_Type in Hage, Hhas |- *.
    rewrite Hy in Hage, Hhas |- *.
    rewrite !decide_False in Hage by done. rewrite !decide_False in Hhas by done.
    rewrite !decide_False by done.
    cbn [taxa]. rewrite lookup_insert_eq. cbn [age tp].
    destruct (taxa coll !! canon nm) as [tax|] eqn:Htax; simpl.
    + split; [done|]. intros _. split.
      * apply Hhas. by apply bool_decide_eq_true.
      * by exists c.
    + split; [done|]. intros _. split; [done|]. by exists c.
  - destruct (lookup_other coll nm y
                {| name := name (default {| name := canon nm; tp := Points; age := 0; rng := ∅ |}
                                         (taxa coll !! canon nm));
                   tp := tp (default {| name := canon nm; tp := Points; age := 0; rng := ∅ |}
                                     (taxa coll !! canon nm));
                   age := age (default {| name := canon nm; tp := Points; age := 0; rng := ∅ |}
                                       (taxa coll !! canon nm));
                   rng := r |} Hy) as (-> & -> & -> & _).
    apply Hcoll.
Qed.

Lemma foldl_outcome {A} (P : Collection → Prop)
    (f : outcome Collection → A → outcome Collection) l acc :
  (∀ o a c', (∀ c, o = Returns c → P c) → f o a = Returns c' → P c') →
  (∀ c, acc = Returns c → P c) →
  ∀ c', foldl f acc l = Returns c' → P c'.
Proof.
  intros Hstep. revert acc. induction l as [|a l IH]; intros acc Hacc c'; simpl.
  - apply Hacc.
  - apply IH. intros c. by apply Hstep.
Qed.

Lemma copyPoints_copied pointOf pre acc c coll :
  (∀ c0, acc = Returns c0 → copiedFrom pre c0) →
  copyPoints pointOf acc c = Returns coll → copiedFrom (pre ++ [c]) coll.
Proof.
  intros Hacc. unfold copyPoints. apply foldl_outcome.
  - intros o nm c' Ho. unfold copyTaxon.
    destruct (decide (Collection_Type c nm ≠ Points)) as [|Htp]; [apply Ho|].
    apply dec_stable in Htp. apply foldl_outcome; [|done].
    intros o' id c'' Ho'. destruct o' as [cl|]; [|done].
    apply (Add_copied _ cl c); [by apply Ho'| |done].
    apply elem_of_app. right. by left.
  - intros c0 Hc0. apply copiedFrom_mono. by apply Hacc.
Qed.

Lemma copyAll_copied pointOf cs pre acc coll :
  (∀ c0, acc = Returns c0 → copiedFrom pre c0) →
  foldl (copyPoints pointOf) acc cs = Returns coll → copiedFrom (pre ++ cs) coll.
Proof.
  revert pre acc. induction cs as [|c cs IH]; intros pre acc Hacc; simpl.
  - rewrite app_nil_r. apply Hacc.
  - rewrite cons_middle, app_assoc. apply IH.
    intros c0. by apply copyPoints_copied.
Qed.

Lemma keyed_Type c y :
  keyed c → Collection_HasTaxon c y = true →
  Collection_Type c y = Points ∨ Collection_Type c y = Range.
Proof.
  intros Hc. unfold Collection_HasTaxon, Collection_Type.
  destruct (decide (canon y = [])); [done|].
  intros [tax Htax]%bool_decide_eq_true. rewrite Htax. by apply (Hc _ _ Htax).
Qed.

End CommandFacts.


(** X19. A row that [readTextData] accepts is stored: when the row does not
    end the reading with an error and Add returns, on a collection whose
    records are stored under their names and for a name that is not
    blank, both coordinates were parsed and are not outside [-90, 90]
    and [-180, 180], the pixelation resolved them to a cell, and after
    the call the taxon is of type Points with presence 1.0 in that cell;
    nothing else changes. *)
Theorem import_row_stores `{GoLib} c ag tax slat slon c' :
  keyed c → canon tax ≠ [] →
  importRow c ag tax slat slon = inr (Returns c') →
  ∃ lat lon px cells,
    ParseFloat slat = Some lat ∧ ParseFloat slon = Some lon ∧
    f64_ltb lat f64_m90 = false ∧ f64_ltb f64_90 lat = false ∧
    f64_ltb lon f64_m180 = false ∧ f64_ltb f64_180 lon = false ∧
    PixelID (pix c) lat lon = Some px ∧
    Collection_Type c' tax = Points ∧
    Collection_Range c' tax = Some cells ∧ cells !! px = Some f64_one ∧
    onlyChanges c c' tax.
Proof.
  intros Hc Hx. unfold importRow.
  destruct (ParseFloat slat) as [lat|]; [|done].
  destruct (f64_ltb lat f64_m90) eqn:Hlat1; [done|].
  destruct (f64_ltb f64_90 lat) eqn:Hlat2; [done|]. cbn [orb].
  destruct (ParseFloat slon) as [lon|]; [|done].
  destruct (f64_ltb lon f64_m180) eqn:Hlon1; [done|].
  destruct (f64_ltb f64_180 lon) eqn:Hlon2; [done|]. cbn [orb]. cbv zeta.
  destruct (decide (_ ∧ _)) as [|Hguard]; [done|]. intros [= Hadd].
  assert (Collection_HasTaxon c tax = true → Collection_Type c tax = Points) as Htp.
  { intros Hhas. destruct (keyed_Type c tax Hc Hhas) as [Hp|Hr]; [done|].
    destruct Hguard. rewrite Hr. split; [done|]. apply Range_ne_Points. }
  destruct (PixelID (pix c) lat lon) as [px|] eqn:Hpx.
  - destruct (Add_stores_point_aux c tax ag lat lon px Hx Htp Hpx)
      as (c1 & Hc1 & _ & Htp1 & Hr1 & Hframe).
    rewrite Hc1 in Hadd. injection Hadd as <-.
    exists lat, lon, px, (<[px := f64_one]> (default ∅ (Collection_Range c tax))).
    repeat (split; [done|]). split; [apply lookup_insert_eq|done].
  - exfalso. unfold Collection_Add in Hadd. rewrite decide_False in Hadd by done.
    unfold Collection_HasTaxon, Collection_Type in Htp.
    rewrite !decide_False in Htp by done.
    assert (tp (default {| name := canon tax; tp := Points; age := 0; rng := ∅ |}
                        (taxa c !! canon tax)) = Points) as Htax.
    { destruct (taxa c !! canon tax) as [t0|]; simpl; [|done].
      apply Htp. by apply bool_decide_eq_true. }
    rewrite decide_False in Hadd by (by intros []). by rewrite Hpx in Hadd.
Qed.

Section CommandExamples.
#[local] Existing Instance refLib.


Lemma import_row_stores_witness :
  ∃ lat lon px cells,
    ParseFloat (str "-12.5") = Some lat ∧ ParseFloat (str "30") = Some lon ∧
    f64_ltb lat f64_m90 = false ∧ f64_ltb f64_90 lat = false ∧
    f64_ltb lon f64_m180 = false ∧ f64_ltb f64_180 lon = false ∧
    PixelID (pix exRange) lat lon = Some px ∧
    Collection_Type
      {| pix := exPix;
         taxa := <[str "Cc" := {| name := str "Cc"; tp := Points; age := 0;
                                  rng := {[0 := f64_one]} |}]> (taxa exRange) |}
      (str "cc") = Points ∧
    Collection_Range
      {| pix := exPix;
         taxa := <[str "Cc" := {| name := str "Cc"; tp := Points; age := 0;
                                  rng := {[0 := f64_one]} |}]> (taxa exRange) |}
      (str "cc") = Some cells ∧
    cells !! px = Some f64_one ∧
    onlyChanges exRange
      {| pix := exPix;
         taxa := <[str "Cc" := {| name := str "Cc"; tp := Points; age := 0;
                                  rng := {[0 := f64_one]} |}]> (taxa exRange) |}
      (str "cc").
Proof.
  apply (import_row_stores exRange 7 (str "cc") (str "-12.5") (str "30")).
  - apply reachable_keyed_aux.
    apply (reach_mutate anyMutation (New exPix)
             (MSet (str " aa  BB") 100 (<[5 := f64_half]> {[3 := f64_one]}))
             exRange); [apply reach_New|done|by vm_compute].
  - by vm_compute.
  - by vm_compute.
Defined.

End CommandExamples.
